(** * dReal ICP core: a shallow embedding and its verified properties

    The development follows the C++ sources of the branch-and-prune
    engine:

    - [dreal/solver/icp.cc]: the sequential [Icp::EvaluateBox] and
      [Icp::CheckSat];
    - [dreal/solver/icp_parallel.cc]: [FindMaxDiamIdx], [DoubleUp], [FillUp],
      [ParallelBranch], [Worker] and [IcpParallel::CheckSat];
    - [dreal/util/expression_evaluator.cc]: [ExpressionEvaluator],
      [Taylor1Eval] and [Taylor2Eval];
    - [contractor_ibex_polytope.cc] and the two versions of
      [contractor_ibex_fwdbwd_mt.cc] (both in [unnamed/part_001], whose line
      numbers are used): [ContractorIbexPolytope::Prune] and the lazily
      populated [ContractorIbexFwdbwdMt];
    - [symbolic_expression_cell.cc] (the second document of
      [scripts/run-clang-tidy.sh], whose line numbers are used): [is_integer]
      and the [Differentiate] rules.

    The interval library (ibex) is external.  It is an interface here: a
    type class whose fields are the operations the sources call.  Every
    definition of Part I is stated over an arbitrary implementation of that
    interface, and so is every general theorem; a small exact implementation
    over the rationals ([Module QI]) runs the definitions on concrete inputs.

    Layout: Part I holds the definitions, Part II the concrete interval
    implementation and test data, Part III the theorems. *)

From Stdlib Require Import ZArith QArith List Bool String Lia.
From stdpp Require Import base gmap sets list.

(* ################################################################## *)
(** * Part I — Definitions *)
(* ################################################################## *)

(** ** The interval library interface (namespace [ibex]) *)

(** Kinds of the unary and binary elementary-function cells.  In the source
    every such cell derives from [UnaryExpressionCell] resp.
    [BinaryExpressionCell] and is told apart by its [ExpressionKind]. *)
Inductive UnaryKind :=
  Log | Abs | Exp | Sqrt | Sin | Cos | Tan | Asin | Acos | Atan | Sinh | Cosh | Tanh.

Inductive BinaryKind := Atan2 | Min | Max.

Module ibex.

(** What the sources use of C++ [double] and of [ibex::Interval] /
    [ibex::IntervalVector].  Comparisons are the IEEE ones (a comparison
    with NaN is [false]). *)
Class Lib := {
  double : Type;
  d_of_Z : Z -> double;                    (* an integral literal *)
  d_half : double;                         (* the literal 0.5 *)
  d_lt : double -> double -> bool;         (* a < b *)
  d_le : double -> double -> bool;         (* a <= b *)
  d_eqb : double -> double -> bool;        (* a == b *)
  modf_frac : double -> double;            (* value returned by std::modf *)
  d_to_int : double -> Z;                  (* static_cast<int> *)

  Interval : Type;
  EMPTY_SET : Interval;
  point : double -> Interval;              (* Interval{c} *)
  make : double -> double -> Interval;     (* Interval{lb, ub} *)
  eqb : Interval -> Interval -> bool;      (* operator== *)
  lb : Interval -> double;
  ub : Interval -> double;
  mid : Interval -> double;
  diam : Interval -> double;
  is_empty : Interval -> bool;
  is_degenerated : Interval -> bool;
  is_bisectable : Interval -> bool;
  bisect : Interval -> Interval * Interval;

  add : Interval -> Interval -> Interval;
  sub : Interval -> Interval -> Interval;
  mul : Interval -> Interval -> Interval;
  div : Interval -> Interval -> Interval;
  scale : double -> Interval -> Interval;  (* double * Interval, Interval * double *)
  sqr : Interval -> Interval;
  pow_int : Interval -> Z -> Interval;     (* pow(Interval, int) *)
  pow_d : Interval -> double -> Interval;  (* pow(Interval, double) *)
  pow : Interval -> Interval -> Interval;  (* pow(Interval, Interval) *)
  unary : UnaryKind -> Interval -> Interval;
  binary : BinaryKind -> Interval -> Interval -> Interval;

  (* ibex::IntervalVector *)
  vec_is_empty : list Interval -> bool;
  vec_set_empty : list Interval -> list Interval;
}.

Definition d_gt `{Lib} (a b : double) : bool := d_lt b a.

End ibex.

Abbreviation double := ibex.double.
Abbreviation Interval := ibex.Interval.

(** ** The symbolic library interface

    Of formulas the engines use their identity only: they are collected in
    sets ([used_constraints]) and handed to helpers. *)
Module symbolic.

Class Lib := {
  Formula : Type;
  Formula_eq_dec :: EqDecision Formula;
  Formula_countable :: Countable Formula;
}.

End symbolic.

#[global] Existing Instance symbolic.Formula_eq_dec.
#[global] Existing Instance symbolic.Formula_countable.

Abbreviation Formula := symbolic.Formula.

(** ** Shared value types *)

(** A variable is identified with its integer ID: two variables are equal
    exactly when their IDs match. *)
Definition Var := nat.

(** [ibex::BitSet]: a finite set of dimensions. *)
Abbreviation BitSet := (gset nat).

Inductive BranchingStrategy := MaxDiam | GradientDescent.

Section Core.
Context `{IL : ibex.Lib}.
Context `{SL : symbolic.Lib}.

Record Config := mkConfig {
  precision : double;
  number_of_jobs : nat;
  stack_left_box_first : bool;
  branching_strategy : BranchingStrategy;
}.

(** *** Box

    Modelled from the spec: [dreal/util/box.{h,cc}] is not part of this
    source tree.  A box is a vector of intervals indexed [0..n-1]
    together with the variables of its dimensions; [bisect i] splits
    dimension [i] at its midpoint. *)
Record Box := mkBox {
  variables : list Var;
  values : list Interval;
}.

Definition size (b : Box) : nat := length (variables b).

(** [box[i]] *)
Definition at_idx (b : Box) (i : nat) : Interval := nth i (values b) ibex.EMPTY_SET.

(** [box.variable(i)] *)
Definition variable (b : Box) (i : nat) : Var := nth i (variables b) 0.

Fixpoint index_of (v : Var) (vs : list Var) : nat :=
  match vs with
  | [] => 0
  | w :: vs' => if decide (v = w) then 0 else S (index_of v vs')
  end.

(** [box.index(v)] *)
Definition index (b : Box) (v : Var) : nat := index_of v (variables b).

(** [box[v]] *)
Definition at_var (b : Box) (v : Var) : Interval := at_idx b (index b v).

Definition set_idx (b : Box) (i : nat) (x : Interval) : Box :=
  {| variables := variables b; values := <[i := x]> (values b) |}.

Definition empty (b : Box) : bool := ibex.vec_is_empty (values b).

Definition set_empty (b : Box) : Box :=
  {| variables := variables b; values := ibex.vec_set_empty (values b) |}.

Definition bisect (b : Box) (i : nat) : Box * Box :=
  let halves := ibex.bisect (at_idx b i) in
  (set_idx b i (fst halves), set_idx b i (snd halves)).

(** *** ContractorStatus *)
Record ContractorStatus := mkStatus {
  box : Box;
  branching_point : Z;
  output : BitSet;
  used_constraints : gset Formula;
}.

Definition with_box (cs : ContractorStatus) (b : Box) : ContractorStatus :=
  {| box := b; branching_point := branching_point cs;
     output := output cs; used_constraints := used_constraints cs |}.

Definition with_branching_point (cs : ContractorStatus) (bp : Z) : ContractorStatus :=
  {| box := box cs; branching_point := bp;
     output := output cs; used_constraints := used_constraints cs |}.

Definition with_output (cs : ContractorStatus) (o : BitSet) : ContractorStatus :=
  {| box := box cs; branching_point := branching_point cs;
     output := o; used_constraints := used_constraints cs |}.

(** [cs->AddUsedConstraint(f)] *)
Definition AddUsedConstraint (f : Formula) (cs : ContractorStatus) : ContractorStatus :=
  {| box := box cs; branching_point := branching_point cs;
     output := output cs; used_constraints := used_constraints cs ∪ {[ f ]} |}.

(** [cs->AddUsedConstraint(formulas)] for a vector of formulas *)
Definition AddUsedConstraints (fs : list Formula) (cs : ContractorStatus) : ContractorStatus :=
  {| box := box cs; branching_point := branching_point cs;
     output := output cs; used_constraints := used_constraints cs ∪ list_to_set fs |}.

(** *** Formula evaluators *)
Inductive ResultType := VALID | UNSAT | UNKNOWN.

Record FormulaEvaluationResult := mkResult {
  type : ResultType;
  evaluation : Interval;
}.

(** A [FormulaEvaluator] is used through [operator()(box)], [variables()]
    and [formula()]. *)
Record FormulaEvaluator := mkEvaluator {
  fe_call : Box -> FormulaEvaluationResult;
  fe_variables : list Var;
  fe_formula : Formula;
}.

(** ** [Icp::EvaluateBox]  (icp.cc, lines 85-127) *)

(** The inner loop over [formula_evaluator.variables()]. *)
Fixpoint add_bisectable (b : Box) (vs : list Var) (branching_candidates : BitSet)
  : BitSet :=
  match vs with
  | [] => branching_candidates
  | v :: vs' =>
      add_bisectable b vs'
        (if ibex.is_bisectable (at_var b v)
         then branching_candidates ∪ {[ index b v ]}
         else branching_candidates)
  end.

(** The loop over the evaluators; [return nullopt] leaves it early.  The
    argument [b] aliases the box of [cs] at the call sites, but the only
    write to [cs] is immediately followed by the return. *)
Fixpoint EvaluateBox_loop (prec : double) (fes : list FormulaEvaluator) (b : Box)
    (cs : ContractorStatus) (branching_candidates : BitSet)
  : option BitSet * ContractorStatus :=
  match fes with
  | [] => (Some branching_candidates, cs)
  | formula_evaluator :: fes' =>
      let result := fe_call formula_evaluator b in
      match type result with
      | UNSAT =>
          (None, AddUsedConstraint (fe_formula formula_evaluator)
                   (with_box cs (set_empty (box cs))))
      | VALID => EvaluateBox_loop prec fes' b cs branching_candidates
      | UNKNOWN =>
          let diam := ibex.diam (evaluation result) in
          if ibex.d_gt diam prec
          then EvaluateBox_loop prec fes' b cs
                 (add_bisectable b (fe_variables formula_evaluator) branching_candidates)
          else EvaluateBox_loop prec fes' b cs branching_candidates
      end
  end.

Definition EvaluateBox (prec : double) (fes : list FormulaEvaluator) (b : Box)
    (cs : ContractorStatus) : option BitSet * ContractorStatus :=
  EvaluateBox_loop prec fes b cs ∅.


(** The evaluator [fe] reports [UNKNOWN] on [b] with an interval wider than
    the precision. *)
Definition wide_unknown (prec : double) (b : Box) (fe : FormulaEvaluator) : Prop :=
  type (fe_call fe b) = UNKNOWN ∧
  ibex.d_gt (ibex.diam (evaluation (fe_call fe b))) prec = true.

(** ** Helpers that are called by the engines but are not among the sources

    [branch_max_diam.h], [branch_gradient_descent.h], [branch.h] and
    [contractor_status.h] are not part of this source tree.  The engines
    are stated over any implementation of these helpers; an implementation
    that follows the specification is given in Part II. *)
Definition Stack : Type := list (Box * Z).   (* vector<pair<Box,int>>; head = back() *)

Record Helpers := mkHelpers {
  Constraint : Type;
  ToErrorFunction : Formula -> Constraint;
  BranchMaxDiam : Box -> BitSet -> bool -> Stack -> bool * Stack;
  BranchGradientDescent :
    list Constraint -> Config -> BitSet -> Box -> Stack -> bool * Box * Stack;
  FindMaxDiam : Box -> BitSet -> double * Z;
  InplaceJoin : ContractorStatus -> ContractorStatus -> ContractorStatus;
}.

(** A contractor is used through [Prune(cs)], which updates [cs] in place. *)
Definition Contractor : Type := ContractorStatus -> ContractorStatus.

(** ** [Icp::CheckSat]  (icp.cc, lines 129-230) *)
Section Sequential.
Variable helpers : Helpers.
Variable config_ : Config.
Variable contractor : Contractor.
Variable formula_evaluators : list FormulaEvaluator.

(** The variables of [CheckSat] that live across loop iterations:
    the stack, the contractor status (of which [current_box] and
    [current_branching_point] are references), and the member
    [stack_left_box_first_]. *)
Record IcpState := mkIcp {
  stack : Stack;
  cs : ContractorStatus;
  stack_left_box_first_ : bool;
}.

Inductive Step :=
| Continue (st : IcpState)
| Return (b : bool) (st : IcpState).

Definition constraints : list (Constraint helpers) :=
  map (fun fe => ToErrorFunction helpers (fe_formula fe)) formula_evaluators.

(** The part of an iteration after pruning found the box non-empty and
    evaluation produced the candidates [bc]: steps 3.2.2 and 3.2.3. *)
Definition CheckSat_branch (bc : BitSet) (rest : Stack) (cs3 : ContractorStatus)
    (left_first : bool) : Step :=
  if decide (bc = ∅) then
    (* 3.2.2 delta-SAT *)
    Return true (mkIcp rest cs3 left_first)
  else
    (* 3.2.3 branching *)
    match branching_strategy config_ with
    | MaxDiam =>
        let r := BranchMaxDiam helpers (box cs3) bc left_first rest in
        if fst r then Return true (mkIcp (snd r) cs3 left_first)
        else Continue (mkIcp (snd r) cs3 (negb left_first))
    | GradientDescent =>
        let r := BranchGradientDescent helpers constraints config_ bc (box cs3) rest in
        let cs4 := with_box cs3 (snd (fst r)) in
        if fst (fst r) then Return true (mkIcp (snd r) cs4 left_first)
        else Continue (mkIcp (snd r) cs4 left_first)
    end.

(** One iteration of the [while] loop, entered with [stack = top :: rest]. *)
Definition CheckSat_body (top : Box * Z) (rest : Stack) (st : IcpState) : Step :=
  (* 1. pop *)
  let cs1 := with_branching_point (with_box (cs st) (fst top)) (snd top) in
  (* 2. prune *)
  let cs2 := contractor cs1 in
  if empty (box cs2) then
    (* 3.1 *)
    Continue (mkIcp rest cs2 (stack_left_box_first_ st))
  else
    (* 3.2 *)
    let r := EvaluateBox (precision config_) formula_evaluators (box cs2) cs2 in
    match fst r with
    | None => Continue (mkIcp rest (snd r) (stack_left_box_first_ st))
    | Some bc => CheckSat_branch bc rest (snd r) (stack_left_box_first_ st)
    end.

(** The loop.  The box arithmetic is abstract, so the loop need not
    terminate; [fuel] bounds the number of iterations and [None] means
    that the bound was reached. *)
Fixpoint CheckSat_loop (fuel : nat) (st : IcpState) : option (bool * IcpState) :=
  match fuel with
  | O => None
  | S fuel' =>
      match stack st with
      | [] => Some (false, st)
      | top :: rest =>
          match CheckSat_body top rest st with
          | Continue st' => CheckSat_loop fuel' st'
          | Return b st' => Some (b, st')
          end
      end
  end.

Definition CheckSat_init (cs0 : ContractorStatus) : IcpState :=
  mkIcp [(box cs0, (-1)%Z)] cs0 (stack_left_box_first config_).

Definition CheckSat (fuel : nat) (cs0 : ContractorStatus) : option (bool * IcpState) :=
  CheckSat_loop fuel (CheckSat_init cs0).

(** *** Vocabulary for the statements about [CheckSat] *)

(** The state at the loop head after [k] iterations, if the loop gets
    that far. *)
Fixpoint state_after (k : nat) (st : IcpState) : option IcpState :=
  match k with
  | O => Some st
  | S k' =>
      match stack st with
      | [] => None
      | top :: rest =>
          match CheckSat_body top rest st with
          | Continue st' => state_after k' st'
          | Return _ _ => None
          end
      end
  end.

(** The status after popping and pruning the top of the stack. *)
Definition pruned (st : IcpState) (top : Box * Z) : ContractorStatus :=
  contractor (with_branching_point (with_box (cs st) (fst top)) (snd top)).

(** The iteration starting in [st] finds a box on which [EvaluateBox]
    returns an empty candidate set. *)
Definition delta_sat_at (st : IcpState) : Prop :=
  ∃ top rest,
    stack st = top :: rest ∧
    empty (box (pruned st top)) = false ∧
    fst (EvaluateBox (precision config_) formula_evaluators
           (box (pruned st top)) (pruned st top)) = Some ∅.

(** The branching helper selected by the configuration reports that it
    found nothing to bisect. *)
Definition branch_fails (bc : BitSet) (b : Box) (left_first : bool) (rest : Stack) : Prop :=
  match branching_strategy config_ with
  | MaxDiam => fst (BranchMaxDiam helpers b bc left_first rest) = true
  | GradientDescent =>
      fst (fst (BranchGradientDescent helpers constraints config_ bc b rest)) = true
  end.

(** The iteration starting in [st] gets a non-empty candidate set none of
    whose dimensions can be bisected. *)
Definition degenerate_sat_at (st : IcpState) : Prop :=
  ∃ top rest bc,
    stack st = top :: rest ∧
    empty (box (pruned st top)) = false ∧
    fst (EvaluateBox (precision config_) formula_evaluators
           (box (pruned st top)) (pruned st top)) = Some bc ∧
    bc ≠ ∅ ∧
    branch_fails bc (box (pruned st top)) (stack_left_box_first_ st) rest.

(** The iteration starting in [st] performs a branching step: the
    candidates are non-empty and the helper did bisect. *)
Definition branches_at (st : IcpState) : Prop :=
  ∃ top rest bc,
    stack st = top :: rest ∧
    empty (box (pruned st top)) = false ∧
    fst (EvaluateBox (precision config_) formula_evaluators
           (box (pruned st top)) (pruned st top)) = Some bc ∧
    bc ≠ ∅ ∧
    ¬ branch_fails bc (box (pruned st top)) (stack_left_box_first_ st) rest.

End Sequential.


(** ** The parallel engine (icp_parallel.cc) *)

(** [FindMaxDiamIdx] (lines 26-38): the loop state is
    [(max_diam, max_diam_idx)]; [-1] is returned when no dimension is
    bisectable with a positive diameter. *)
Definition FindMaxDiamIdx_step (b : Box) (acc : double * Z) (i : nat) : double * Z :=
  let iv_i := at_idx b i in
  let diam_i := ibex.diam iv_i in
  if ibex.d_gt diam_i (fst acc) && ibex.is_bisectable iv_i
  then (diam_i, Z.of_nat i)
  else acc.

Definition FindMaxDiamIdx (b : Box) : Z :=
  snd (fold_left (FindMaxDiamIdx_step b) (seq 0 (size b)) (ibex.d_of_Z 0, (-1)%Z)).

(** Conversions of the C++ integer types involved in [DoubleUp] and
    [FillUp]: [size_t] is 64 bits wide, [unsigned] 32 bits. *)
Definition to_size_t (z : Z) : Z := z mod 2 ^ 64.
Definition to_unsigned (z : Z) : Z := z mod 2 ^ 32.

(** [DoubleUp] (lines 40-58).  [boxes] holds [boxes[i..]], [bound] is
    [n - boxes.size()] computed in [size_t].  While [i < bound] the box is
    bisected if [FindMaxDiamIdx] finds a dimension, and nothing is pushed
    otherwise; from the first [i] with [bound <= i] on, the second loop
    pushes the remaining boxes unchanged. *)
Fixpoint DoubleUp_loop (boxes : list Box) (i : nat) (bound : Z) (ret : list Box)
  : list Box :=
  match boxes with
  | [] => ret
  | b :: boxes' =>
      if (Z.of_nat i <? bound)%Z then
        let max_diam_idx := FindMaxDiamIdx b in
        if (0 <=? max_diam_idx)%Z then
          let bisect_result := bisect b (Z.to_nat max_diam_idx) in
          DoubleUp_loop boxes' (S i) bound (ret ++ [fst bisect_result; snd bisect_result])
        else
          DoubleUp_loop boxes' (S i) bound ret
      else
        ret ++ boxes
  end.

Definition DoubleUp (boxes : list Box) (n : Z) : list Box :=
  DoubleUp_loop boxes 0 (to_size_t (n - Z.of_nat (length boxes))) [].

(** [FillUp] (lines 60-71).  [fuel] bounds the iterations of the [while]
    loop. *)
Fixpoint FillUp_loop (fuel : nat) (ret : list Box) (n : Z) : option (list Box) :=
  match fuel with
  | O => None
  | S fuel' =>
      if (Z.of_nat (length ret) <? to_unsigned n)%Z then
        let new_ones := DoubleUp ret n in
        if (length new_ones =? length ret)%nat then Some ret
        else FillUp_loop fuel' new_ones n
      else Some ret
  end.

Definition FillUp (fuel : nat) (b : Box) (n : Z) : option (list Box) :=
  FillUp_loop fuel [b] n.

Section Parallel.
Variable helpers : Helpers.
Variable config : Config.
Variable contractor : Contractor.
Variable formula_evaluators : list FormulaEvaluator.
(** Whether the build defines the macro [DREAL_CHECK_INTERRUPT]. *)
Variable DREAL_CHECK_INTERRUPT : bool.

(** The objects shared by all workers. *)
Record Shared := mkShared {
  global_stack : list Box;          (* head = top *)
  found_delta_sat : Z;
  number_of_boxes : Z;
}.

(** How a call of [Worker] stands: still in its loop, returned because
    the loop test failed, returned after publishing its id in
    [found_delta_sat], or left by the exception. *)
Inductive WorkerStatus := Running | Exited | Found | Raised.

Record WorkerState := mkWorker {
  w_cs : ContractorStatus;          (* &status_vector_[id] *)
  need_to_pop : bool;
  w_stack_left_box_first : bool;
  w_status : WorkerStatus;
}.

(** [ParallelBranch] (lines 73-102); returns the flag, the new [*box],
    the new global stack and the new counter. *)
Definition ParallelBranch (bitset : BitSet) (left_first : bool) (b : Box)
    (gs : list Box) (nb : Z) : bool * Box * list Box * Z :=
  let max_diam_and_idx := FindMaxDiam helpers b bitset in
  let branching_point := snd max_diam_and_idx in
  if (0 <=? branching_point)%Z then
    let boxes := bisect b (Z.to_nat branching_point) in
    let box1 := if left_first then fst boxes else snd boxes in
    let box2 := if left_first then snd boxes else fst boxes in
    (true, box2, box1 :: gs, (nb + 1)%Z)
  else
    (false, b, gs, nb).

(** Steps 2-3 of the loop body of [Worker], entered with the box to
    process installed in [cs0] and the global stack [gs].  The four-argument
    [EvaluateBox] called here is [Icp::EvaluateBox] with the precision passed
    explicitly. *)
Definition Worker_process (id : nat) (sh : Shared) (gs : list Box)
    (cs0 : ContractorStatus) (w : WorkerState) : Shared * WorkerState :=
  let cs1 := contractor cs0 in
  if empty (box cs1) then
    (* 3.1 *)
    (mkShared gs (found_delta_sat sh) (number_of_boxes sh - 1)%Z,
     mkWorker cs1 true (w_stack_left_box_first w) Running)
  else
    let r := EvaluateBox (precision config) formula_evaluators (box cs1) cs1 in
    match fst r with
    | None =>
        (* 3.2.1 *)
        (mkShared gs (found_delta_sat sh) (number_of_boxes sh - 1)%Z,
         mkWorker (snd r) true (w_stack_left_box_first w) Running)
    | Some evaluation_result =>
        if decide (evaluation_result = ∅) then
          (* 3.2.2 *)
          (mkShared gs (Z.of_nat id) (number_of_boxes sh),
           mkWorker (snd r) true (w_stack_left_box_first w) Found)
        else
          (* 3.2.3 *)
          let pb := ParallelBranch evaluation_result (w_stack_left_box_first w)
                      (box (snd r)) gs (number_of_boxes sh) in
          match pb with
          | (false, _, _, _) =>
              (mkShared gs (Z.of_nat id) (number_of_boxes sh),
               mkWorker (snd r) true (w_stack_left_box_first w) Found)
          | (true, b', gs', nb') =>
              (mkShared gs' (found_delta_sat sh) nb',
               mkWorker (with_box (snd r) b') false
                 (negb (w_stack_left_box_first w)) Running)
          end
    end.

(** One evaluation of the loop test of [Worker] followed, if it holds,
    by one loop body (lines 127-231).  [g_interrupted] is the value of
    the process-wide flag at that moment. *)
Definition Worker_step (g_interrupted : bool) (id : nat) (sh : Shared)
    (w : WorkerState) : Shared * WorkerState :=
  match w_status w with
  | Running =>
      if negb ((found_delta_sat sh =? -1)%Z && (0 <? number_of_boxes sh)%Z) then
        (sh, mkWorker (w_cs w) (need_to_pop w) (w_stack_left_box_first w) Exited)
      else if DREAL_CHECK_INTERRUPT && g_interrupted then
        (sh, mkWorker (w_cs w) (need_to_pop w) (w_stack_left_box_first w) Raised)
      else if need_to_pop w then
        match global_stack sh with
        | [] => (sh, w)                                    (* spin *)
        | b :: gs => Worker_process id sh gs (with_box (w_cs w) b) w
        end
      else
        Worker_process id sh (global_stack sh) (w_cs w) w
  | _ => (sh, w)
  end.

(** The whole pool.  Worker [i] owns [status_vector_[i]]; the workers
    [0 .. number_of_jobs-2] run in the thread pool, the last one in the
    calling thread. *)
Record System := mkSystem {
  shared : Shared;
  workers : list WorkerState;
}.

(** A schedule lists, in the order in which they happen, which worker
    performs its next loop test and body and which value of
    [g_interrupted] it reads.  Each such step is taken to be atomic. *)
Definition Schedule : Type := list (nat * bool).

Definition System_step (sys : System) (ev : nat * bool) : System :=
  match workers sys !! fst ev with
  | None => sys
  | Some w =>
      let r := Worker_step (snd ev) (fst ev) (shared sys) w in
      mkSystem (fst r) (<[fst ev := snd r]> (workers sys))
  end.

Definition run (sched : Schedule) (sys : System) : System :=
  fold_left System_step sched sys.

Inductive CheckSatResult :=
| Returns (b : bool) (cs : ContractorStatus)
| Throws.

(** The barrier: [result.get()] on the pool workers in order; the first
    one that is not yet done blocks, the first one that raised rethrows. *)
Inductive Joined := AllReturned | Blocked | Rethrown.

Fixpoint barrier (ws : list WorkerState) : Joined :=
  match ws with
  | [] => AllReturned
  | w :: ws' =>
      match w_status w with
      | Running => Blocked
      | Raised => Rethrown
      | Exited | Found => barrier ws'
      end
  end.

(** Post-processing (lines 290-302). *)
Definition CheckSat_post (cs : ContractorStatus) (sys : System) : CheckSatResult :=
  let status_vector_ := map w_cs (workers sys) in
  let joined := fold_left (InplaceJoin helpers) status_vector_ cs in
  let found := found_delta_sat (shared sys) in
  if (0 <=? found)%Z then
    Returns true
      (with_box joined (box (nth (Z.to_nat found) status_vector_ joined)))
  else
    Returns false (with_box joined (set_empty (box joined))).

(** What the caller does once the workers have been started: its own
    [Worker] call, the barrier, the post-processing.  [None]: the
    schedule does not let the caller get through. *)
Definition CheckSat_finish (cs : ContractorStatus) (sys : System)
  : option CheckSatResult :=
  let last_index := (number_of_jobs config - 1)%nat in
  match workers sys !! last_index with
  | None => None
  | Some main =>
      match w_status main with
      | Running => None
      | Raised => Some Throws
      | Exited | Found =>
          match barrier (take last_index (workers sys)) with
          | Blocked => None
          | Rethrown => Some Throws
          | AllReturned => Some (CheckSat_post cs sys)
          end
      end
  end.

Definition initial_system (cs : ContractorStatus) (boxes : list Box) : System :=
  mkSystem
    (mkShared (rev boxes) (-1)%Z (Z.of_nat (length boxes)))
    (replicate (number_of_jobs config)
       (mkWorker cs true (stack_left_box_first config) Running)).

(** [IcpParallel::CheckSat] (lines 241-303). *)
Definition IcpParallel_CheckSat (fuel : nat) (sched : Schedule)
    (cs0 : ContractorStatus) : option CheckSatResult :=
  (* Initial Prune *)
  let cs := contractor cs0 in
  if empty (box cs) then Some (Returns false cs)
  else
    match FillUp fuel (box cs) (Z.of_nat (number_of_jobs config)) with
    | None => None
    | Some boxes =>
        CheckSat_finish cs (run sched (initial_system cs boxes))
    end.

(** The invariant of the pool: there are [number_of_jobs] workers, and
    [found_delta_sat] is [-1] or the index of a worker that has exited as the
    finder. *)
Definition pool_invariant (sys : System) : Prop :=
  length (workers sys) = number_of_jobs config ∧
  (found_delta_sat (shared sys) = (-1)%Z ∨
   ∃ w, (0 ≤ found_delta_sat (shared sys))%Z ∧
        workers sys !! Z.to_nat (found_delta_sat (shared sys)) = Some w ∧
        w_status w = Found).

End Parallel.


(** ** The interval evaluator (expression_evaluator.cc) *)

(** Expressions as the evaluator sees them: additions carry a constant and
    a map from sub-expression to coefficient, multiplications a constant
    and a map from base to exponent. *)
#[warnings="-register-all"]
Inductive Expression :=
| EVar (v : Var)
| EConstant (c : double)
| ERealConstant (lb ub : double)
| ENaN
| EAdd (c : double) (expr_to_coeff_map : list (Expression * double))
| EMul (c : double) (base_to_exponent_map : list (Expression * Expression))
| EDiv (e1 e2 : Expression)
| EUnary (k : UnaryKind) (e : Expression)
| EPow (e1 e2 : Expression)
| EBinary (k : BinaryKind) (e1 e2 : Expression)
| EIfThenElse (f_cond : Formula) (e_then e_else : Expression)
| EUninterpretedFunction (name : string) (vars : list Var).

(** C++ exceptions: a computation either yields a value or throws
    [std::runtime_error] with a message. *)
Inductive result (A : Type) :=
| Ok (a : A)
| Throw (msg : string).
Global Arguments Ok {A} a.
Global Arguments Throw {A} msg.

Definition bind {A B} (r : result A) (k : A -> result B) : result B :=
  match r with
  | Ok a => k a
  | Throw msg => Throw msg
  end.

Local Notation "'let*' x ':=' r 'in' k" := (bind r (fun x => k))
  (at level 10, x name, r at level 100, k at level 200).

(** [is_integer] (the copy of [dreal/util/math.h]'s function kept in
    symbolic_expression_cell.cc). *)
Definition int_lowest : Z := (-2147483648)%Z.
Definition int_max : Z := 2147483647%Z.

Definition is_integer (v : double) : bool :=
  if negb (ibex.d_le (ibex.d_of_Z int_lowest) v && ibex.d_le v (ibex.d_of_Z int_max))
  then false
  else ibex.d_eqb (ibex.modf_frac v) (ibex.d_of_Z 0).

(** The two tests of [is_integer]: the value lies in the range of [int], and
    its fractional part is zero. *)
Definition in_int_range (v : double) : bool :=
  ibex.d_le (ibex.d_of_Z int_lowest) v && ibex.d_le v (ibex.d_of_Z int_max).

Definition has_no_fraction (v : double) : bool :=
  ibex.d_eqb (ibex.modf_frac v) (ibex.d_of_Z 0).

(** The test of line 107: the interval is a single point. *)
Definition is_point (x : Interval) : bool :=
  ibex.is_degenerated x && negb (ibex.is_empty x).

(** Which interval operation [VisitPow] selects (lines 107-122). *)
Inductive PowCase :=
| UseSqr
| UseIntPow (n : Z)
| UsePointPow (p : double)
| UseIntervalPow.

Definition VisitPow_case (second : Interval) : PowCase :=
  if is_point second then
    let point := ibex.lb second in
    if is_integer point then
      if ibex.d_eqb point (ibex.d_of_Z 2) then UseSqr
      else UseIntPow (ibex.d_to_int point)
    else UsePointPow point
  else UseIntervalPow.

Definition VisitPow_apply (first second : Interval) : Interval :=
  match VisitPow_case second with
  | UseSqr => ibex.sqr first
  | UseIntPow n => ibex.pow_int first n
  | UsePointPow p => ibex.pow_d first p
  | UseIntervalPow => ibex.pow first second
  end.

(** [ExpressionEvaluator::Visit] with the [Visit*] methods it dispatches
    to.  [std::accumulate] is a left fold over the map. *)
Fixpoint Visit (e : Expression) (b : Box) {struct e} : result Interval :=
  match e with
  | EVar v => Ok (at_var b v)
  | EConstant c => Ok (ibex.point c)
  | ERealConstant l u => Ok (ibex.make l u)
  | ENaN => Throw "NaN is detected."
  | EAdd c expr_to_coeff_map =>
      fold_left
        (fun init p =>
           let* i := init in let* x := Visit (fst p) b in
           Ok (ibex.add i (ibex.scale (snd p) x)))
        expr_to_coeff_map (Ok (ibex.point c))
  | EMul c base_to_exponent_map =>
      fold_left
        (fun init p =>
           let* i := init in
           let* first := Visit (fst p) b in let* second := Visit (snd p) b in
           Ok (ibex.mul i (VisitPow_apply first second)))
        base_to_exponent_map (Ok (ibex.point c))
  | EDiv e1 e2 =>
      let* x := Visit e1 b in let* y := Visit e2 b in Ok (ibex.div x y)
  | EUnary k e1 =>
      let* x := Visit e1 b in Ok (ibex.unary k x)
  | EPow e1 e2 =>
      let* first := Visit e1 b in let* second := Visit e2 b in
      Ok (VisitPow_apply first second)
  | EBinary k e1 e2 =>
      let* x := Visit e1 b in let* y := Visit e2 b in Ok (ibex.binary k x y)
  | EIfThenElse _ _ _ => Throw "If-then-else expression is not supported yet."
  | EUninterpretedFunction _ _ => Throw "Uninterpreted function is not supported."
  end.

(** [ExpressionEvaluator::VisitPow(e1, e2, box)] (lines 102-123). *)
Definition VisitPow (e1 e2 : Expression) (b : Box) : result Interval :=
  let* first := Visit e1 b in let* second := Visit e2 b in
  Ok (VisitPow_apply first second).

(** [Mid] (lines 206-212). *)
Definition Mid (b : Box) : Box :=
  fold_left (fun ret i => set_idx ret i (ibex.point (ibex.mid (at_idx ret i))))
    (seq 0 (size b)) b.

(** [Eval] (line 233). *)
Definition Eval (f : Expression) (x : Box) : result Interval := Visit f x.

Section Taylor.
(** [Expression::Differentiate] belongs to the symbolic library. *)
Variable Differentiate : Expression -> Var -> result Expression.

(** The summand added for dimension [i] by the first-order loops, with
    the derivative evaluated over the box [at_box]. *)
Definition first_order_term (f : Expression) (x x0 at_box : Box) (i : nat)
  : result Interval :=
  let* d := Differentiate f (variable x i) in
  let* g := Visit d at_box in
  Ok (ibex.mul g (ibex.sub (at_idx x i) (at_idx x0 i))).

(** The summand added for the pair [(i, j)] by the second-order loop. *)
Definition second_order_term (f : Expression) (x x0 : Box) (i j : nat)
  : result Interval :=
  let* d := Differentiate f (variable x i) in
  let* dd := Differentiate d (variable x j) in
  let* h := Visit dd x in
  if (i =? j)%nat then
    Ok (ibex.mul (ibex.mul (ibex.scale ibex.d_half h)
                    (ibex.sub (at_idx x i) (at_idx x0 i)))
          (ibex.sub (at_idx x j) (at_idx x0 j)))
  else
    Ok (ibex.mul (ibex.mul h (ibex.sub (at_idx x i) (at_idx x0 i)))
          (ibex.sub (at_idx x j) (at_idx x0 j))).

(** [ret += t] where computing [t] may throw. *)
Definition accumulate (ret : result Interval) (t : result Interval)
  : result Interval :=
  let* r := ret in let* v := t in Ok (ibex.add r v).

(** The first-order loop (lines 247-250 and 264-267), with the derivatives
    evaluated over [at_box]. *)
Definition first_order_loop (f : Expression) (x x0 at_box : Box)
    (ret : result Interval) : result Interval :=
  fold_left (fun ret i => accumulate ret (first_order_term f x x0 at_box i))
    (seq 0 (size x)) ret.

(** The nested loops [for i] / [for j = i] of lines 270-285. *)
Definition second_order_loop (f : Expression) (x x0 : Box)
    (ret : result Interval) : result Interval :=
  fold_left
    (fun ret i =>
       fold_left (fun ret j => accumulate ret (second_order_term f x x0 i j))
         (seq i (size x - i)) ret)
    (seq 0 (size x)) ret.

(** [Taylor1Eval] (lines 237-252): the derivatives are evaluated over [x]. *)
Definition Taylor1Eval (f : Expression) (x : Box) : result Interval :=
  let x0 := Mid x in
  let ret := Eval f x0 in
  first_order_loop f x x0 x ret.

(** [Taylor2Eval] (lines 254-287): in its first loop the derivatives are
    evaluated over [x0]. *)
Definition Taylor2Eval (f : Expression) (x : Box) : result Interval :=
  let x0 := Mid x in
  let ret := Eval f x0 in
  let ret := first_order_loop f x x0 x0 ret in
  second_order_loop f x x0 ret.

(** What the documentation of [Taylor2Eval] describes: the first-order form
    of [Taylor1Eval], with the derivatives over [x], followed by the
    second-order terms. *)
Definition Taylor1_plus_second_order (f : Expression) (x : Box) : result Interval :=
  second_order_loop f x (Mid x) (Taylor1Eval f x).

End Taylor.


(** ** [ContractorIbexPolytope::Prune]
    (contractor_ibex_polytope.cc, lines 89-119) *)
Section Polytope.
(** [ctc_->contract(iv)], the polytope-hull contractor of ibex, and the
    member [formulas_]. *)
Variable ctc_contract : list Interval -> list Interval.
Variable formulas_ : list Formula.

(** The loop of lines 101-106; its state is [(changed, output)]. *)
Definition Polytope_diff_step (old_iv iv : list Interval) (acc : bool * BitSet)
    (i : nat) : bool * BitSet :=
  if negb (ibex.eqb (nth i old_iv ibex.EMPTY_SET) (nth i iv ibex.EMPTY_SET))
  then (true, snd acc ∪ {[ i ]})
  else acc.

Definition ContractorIbexPolytope_Prune (cs0 : ContractorStatus) : ContractorStatus :=
  let old_iv := values (box cs0) in
  let iv := ctc_contract old_iv in
  let cs1 := with_box cs0 (mkBox (variables (box cs0)) iv) in
  (* Update output. *)
  let upd :=
    if ibex.vec_is_empty iv then
      (* fill(0, size - 1) *)
      (true, output cs1 ∪ set_seq 0 (size (box cs1)))
    else
      fold_left (Polytope_diff_step old_iv iv) (seq 0 (length old_iv))
        (false, output cs1) in
  let cs2 := with_output cs1 (snd upd) in
  (* Update used constraints. *)
  if fst upd then AddUsedConstraints formulas_ cs2 else cs2.

(** The dimensions in which two interval vectors differ. *)
Definition changed_dimensions (old_iv iv : list Interval) : BitSet :=
  list_to_set
    (filter (fun i => ibex.eqb (nth i old_iv ibex.EMPTY_SET)
                        (nth i iv ibex.EMPTY_SET) = false)
       (seq 0 (length old_iv))).

(** The interval of dimension [i] of the box that a vector stands for.  An
    empty box has no point, so each of its intervals is the empty one,
    however the vector keeps its components. *)
Definition interval_of (iv : list Interval) (i : nat) : Interval :=
  if ibex.vec_is_empty iv then ibex.EMPTY_SET else nth i iv ibex.EMPTY_SET.

(** Following the claim's words: "the set of dimensions whose interval it
    actually changed", the dimensions in which the box before and the box
    after have different intervals. *)
Definition dimensions_changed (old_iv iv : list Interval) : BitSet :=
  list_to_set
    (filter (fun i => ibex.eqb (interval_of old_iv i) (interval_of iv i) = false)
       (seq 0 (length old_iv))).

(** A box that [Prune] is meant for: it has one interval for each variable
    and at least one dimension (an [ibex::IntervalVector] has at least one
    component), it is not empty, and none of its intervals is the empty
    one. *)
Definition nonempty_box (b : Box) : Prop :=
  length (values b) = size b ∧ 0 < size b ∧ empty b = false ∧
  ∀ i, i < size b → ibex.eqb (at_idx b i) ibex.EMPTY_SET = false.

End Polytope.

(** ** The lazily populated [ContractorIbexFwdbwdMt]
    (contractor_ibex_fwdbwd_mt.cc, the second version, lines 205-253) *)
Section FwdbwdMt.
(** The single-threaded contractor held in the slots. *)
Variable ContractorIbexFwdbwd : Type.
Variable make_unique : Formula -> Box -> Config -> ContractorIbexFwdbwd.
Variable ctc_input : ContractorIbexFwdbwd -> BitSet.
Variable ctc_is_dummy : ContractorIbexFwdbwd -> bool.
Variable ctc_Prune : ContractorIbexFwdbwd -> ContractorStatus -> ContractorStatus.
(** Whether [DREAL_ASSERT] is compiled in (a debug build). *)
Variable debug : bool.

Record ContractorIbexFwdbwdMt := mkMt {
  f_ : Formula;
  mt_config_ : Config;
  ctc_ready_ : list Z;                              (* vector<int> *)
  ctcs_ : list (option ContractorIbexFwdbwd);       (* vector<unique_ptr<..>> *)
}.

(** The constructor (lines 205-213): every flag is 0, every pointer null. *)
Definition ContractorIbexFwdbwdMt_new (f : Formula) (b : Box) (config : Config)
  : ContractorIbexFwdbwdMt :=
  mkMt f config
    (replicate (number_of_jobs config) 0%Z)
    (replicate (number_of_jobs config) None).

(** How a call ends: with a value, in a failed [DREAL_ASSERT], or in
    undefined behaviour (a null pointer is dereferenced or a vector is
    indexed out of range). *)
Inductive outcome (A : Type) :=
| Value (a : A)
| AssertionFailure
| Undefined.
Global Arguments Value {A} a.
Global Arguments AssertionFailure {A}.
Global Arguments Undefined {A}.

(** [DREAL_ASSERT(ctc_ready_[0]); return ctcs_[0]->g();] *)
Definition slot0_call {A} (g : ContractorIbexFwdbwd -> A)
    (c : ContractorIbexFwdbwdMt) : outcome A :=
  match ctc_ready_ c !! 0%nat with
  | None => Undefined
  | Some ready =>
      if debug && (ready =? 0)%Z then AssertionFailure
      else
        match ctcs_ c !! 0%nat with
        | Some (Some ctc) => Value (g ctc)
        | _ => Undefined
        end
  end.

(** [input()] (lines 215-218). *)
Definition input (c : ContractorIbexFwdbwdMt) : outcome BitSet :=
  slot0_call ctc_input c.

(** [mutable_input()] (lines 220-223); the reference it returns is
    represented by the set it refers to. *)
Definition mutable_input (c : ContractorIbexFwdbwdMt) : outcome BitSet :=
  slot0_call ctc_input c.

(** [is_dummy()] (lines 250-253). *)
Definition is_dummy (c : ContractorIbexFwdbwdMt) : outcome bool :=
  slot0_call ctc_is_dummy c.

(** [GetCtcOrCreate(box)] (lines 225-237), called on the thread whose
    [ThreadPool::get_thread_id()] is [tid]. *)
Definition GetCtcOrCreate (tid : nat) (b : Box) (c : ContractorIbexFwdbwdMt)
  : outcome (option ContractorIbexFwdbwd * ContractorIbexFwdbwdMt) :=
  match ctc_ready_ c !! tid, ctcs_ c !! tid with
  | Some ready, Some slot =>
      if negb (ready =? 0)%Z then Value (slot, c)
      else
        let ctc := make_unique (f_ c) b (mt_config_ c) in
        Value (Some ctc,
               mkMt (f_ c) (mt_config_ c)
                 (<[tid := 1%Z]> (ctc_ready_ c))
                 (<[tid := Some ctc]> (ctcs_ c)))
  | _, _ => Undefined
  end.

(** [Prune(cs)] (lines 239-244) on thread [tid]. *)
Definition ContractorIbexFwdbwdMt_Prune (tid : nat) (cs0 : ContractorStatus)
    (c : ContractorIbexFwdbwdMt)
  : outcome (ContractorStatus * ContractorIbexFwdbwdMt) :=
  let checked : outcome unit :=
    if debug then
      match is_dummy c with
      | Value d => if d then AssertionFailure else Value tt
      | AssertionFailure => AssertionFailure
      | Undefined => Undefined
      end
    else Value tt in
  match checked with
  | Value _ =>
      match GetCtcOrCreate tid (box cs0) c with
      | Value (Some ctc, c') => Value (ctc_Prune ctc cs0, c')
      | Value (None, _) => if debug then AssertionFailure else Undefined
      | AssertionFailure => AssertionFailure
      | Undefined => Undefined
      end
  | AssertionFailure => AssertionFailure
  | Undefined => Undefined
  end.

(** A history of [Prune] calls, each with the id of the calling thread. *)
Fixpoint Prune_history (h : list (nat * ContractorStatus))
    (c : ContractorIbexFwdbwdMt) : outcome ContractorIbexFwdbwdMt :=
  match h with
  | [] => Value c
  | (tid, cs0) :: h' =>
      match ContractorIbexFwdbwdMt_Prune tid cs0 c with
      | Value (_, c') => Prune_history h' c'
      | AssertionFailure => AssertionFailure
      | Undefined => Undefined
      end
  end.

(** Slot [i] has been created: its flag is set. *)
Definition ready_at (c : ContractorIbexFwdbwdMt) (i : nat) : Prop :=
  ∃ ready, ctc_ready_ c !! i = Some ready ∧ ready ≠ 0%Z.

(** Slot 0 has been created. *)
Definition slot0_ready (c : ContractorIbexFwdbwdMt) : Prop := ready_at c 0.

(** A slot holds a contractor exactly when its flag is set. *)
Definition slots_consistent (c : ContractorIbexFwdbwdMt) : Prop :=
  ∀ i, ready_at c i ↔ ∃ ctc, ctcs_ c !! i = Some (Some ctc).

End FwdbwdMt.

End Core.

(** ** Further vocabulary for the engines *)
Section Engines_vocabulary.
Context `{IL : ibex.Lib} `{SL : symbolic.Lib}.

(** What the first loop of [DoubleUp] pushes for one box (lines 46-52): its
    two halves, or nothing when [FindMaxDiamIdx] finds no dimension. *)
Definition DoubleUp_pushes (b : Box) : list Box :=
  let max_diam_idx := FindMaxDiamIdx b in
  if (0 <=? max_diam_idx)%Z then
    let bisect_result := bisect b (Z.to_nat max_diam_idx) in
    [fst bisect_result; snd bisect_result]
  else [].

(** [FindMaxDiamIdx] finds a dimension in the box and, down to depth [d], in
    both halves of every bisection that [DoubleUp] would make. *)
Fixpoint bisectable_to_depth (d : nat) (b : Box) : bool :=
  match d with
  | O => true
  | S d' =>
      (0 <=? FindMaxDiamIdx b)%Z &&
      bisectable_to_depth d' (fst (bisect b (Z.to_nat (FindMaxDiamIdx b)))) &&
      bisectable_to_depth d' (snd (bisect b (Z.to_nat (FindMaxDiamIdx b))))
  end.

(** The workers that hold a box of their own between iterations: those that
    will not pop ([need_to_pop] is [false]). *)
Definition holders (ws : list WorkerState) : nat :=
  length (filter (fun w => need_to_pop w = false) ws).

(** The bookkeeping of the pool.  While no worker has published an id,
    [number_of_boxes] counts the boxes on the global stack and those held by
    workers; a worker that has returned as the finder has published an id;
    and a worker has left by the loop test only if an id had been published
    or the counter had dropped to zero. *)
Definition boxes_accounted (sys : System) : Prop :=
  (found_delta_sat (shared sys) = (-1)%Z ∨ (0 ≤ found_delta_sat (shared sys))%Z) ∧
  (found_delta_sat (shared sys) = (-1)%Z →
     number_of_boxes (shared sys)
     = (Z.of_nat (length (global_stack (shared sys))) +
        Z.of_nat (holders (workers sys)))%Z) ∧
  ((∃ w, w ∈ workers sys ∧ w_status w = Found) →
     (0 ≤ found_delta_sat (shared sys))%Z) ∧
  ((∃ w, w ∈ workers sys ∧ w_status w = Exited) →
     (0 ≤ found_delta_sat (shared sys))%Z ∨ (number_of_boxes (shared sys) ≤ 0)%Z).

(** The status that an iteration of [Worker] passes to [contractor.Prune]
    (step 1 of the loop, lines 142-149): its own status with the box popped
    from the global stack installed, or, if it kept a half from its last
    branching, its own status as it is.  [None]: there is nothing to pop. *)
Definition Worker_input (sh : Shared) (w : WorkerState) : option ContractorStatus :=
  if need_to_pop w then
    match global_stack sh with
    | [] => None
    | b :: _ => Some (with_box (w_cs w) b)
    end
  else Some (w_cs w).

Section Sequential_vocabulary.
Variable config_ : Config.
Variable contractor : Contractor.
Variable formula_evaluators : list FormulaEvaluator.

(** The iteration that starts in [st] reaches step 3.2.3: the pruned box is
    not empty and [EvaluateBox] returns a non-empty candidate set. *)
Definition reaches_branching (st : IcpState) : bool :=
  match stack st with
  | [] => false
  | top :: rest =>
      let cs2 := pruned contractor st top in
      negb (empty (box cs2)) &&
      match fst (EvaluateBox (precision config_) formula_evaluators (box cs2) cs2) with
      | Some bc => negb (bool_decide (bc = ∅))
      | None => false
      end
  end.

End Sequential_vocabulary.

(** The number of iterations that reach step 3.2.3 among the first [k]. *)
Fixpoint branchings (helpers : Helpers) (config_ : Config) (contractor : Contractor)
    (formula_evaluators : list FormulaEvaluator) (k : nat) (st : IcpState) : nat :=
  match k with
  | O => 0
  | S k' =>
      match stack st with
      | [] => 0
      | top :: rest =>
          match CheckSat_body helpers config_ contractor formula_evaluators top rest st with
          | Continue st' =>
              (if reaches_branching config_ contractor formula_evaluators st then 1 else 0)
              + branchings helpers config_ contractor formula_evaluators k' st'
          | Return _ _ => 0
          end
      end
  end.

End Engines_vocabulary.

(** ** Further vocabulary for the evaluator *)
Section Evaluator_vocabulary.
Context `{IL : ibex.Lib} `{SL : symbolic.Lib}.

(** The visitor comes across a cell for which [e] holds.  It visits every
    operand of the arithmetic cells and of the function cells, and neither
    branch of an if-then-else. *)
Fixpoint visits (is_it : Expression -> bool) (e : Expression) {struct e} : bool :=
  is_it e ||
  match e with
  | EVar _ | EConstant _ | ERealConstant _ _ | ENaN => false
  | EAdd _ m => existsb (fun p => visits is_it (fst p)) m
  | EMul _ m => existsb (fun p => visits is_it (fst p) || visits is_it (snd p)) m
  | EDiv e1 e2 | EPow e1 e2 | EBinary _ e1 e2 => visits is_it e1 || visits is_it e2
  | EUnary _ e1 => visits is_it e1
  | EIfThenElse _ _ _ | EUninterpretedFunction _ _ => false
  end.

Definition is_nan_cell (e : Expression) : bool :=
  match e with ENaN => true | _ => false end.

(** The cells that [VisitIfThenElse] and [VisitUninterpretedFunction] reject
    (lines 188-196). *)
Definition is_unsupported_cell (e : Expression) : bool :=
  match e with
  | EIfThenElse _ _ _ | EUninterpretedFunction _ _ => true
  | _ => false
  end.

Definition unsupported_message (msg : string) : Prop :=
  msg = "If-then-else expression is not supported yet."%string ∨
  msg = "Uninterpreted function is not supported."%string.

End Evaluator_vocabulary.

(** ** [ContractorIbexPolytope]: construction
    (contractor_ibex_polytope.cc, lines 22-83) *)

(** How a constructor ends: with the object, by [throw n] for an integer
    [n], or in a failed [DREAL_ASSERT]. *)
Inductive construction (A : Type) :=
| Constructed (a : A)
| ThrowsInt (n : Z)
| FailsAssertion.
Global Arguments Constructed {A} a.
Global Arguments ThrowsInt {A} n.
Global Arguments FailsAssertion {A}.

Section Polytope_construction.
Context `{IL : ibex.Lib} `{SL : symbolic.Lib}.
(** [is_forall(f)] and [f.GetFreeVariables()] of the symbolic library,
    [ContractorIbexFwdbwd::is_dummy(f)], and [ibex_converter_.Convert(f)],
    which yields the ibex constraint or a null pointer. *)
Variable is_forall : Formula -> bool.
Variable GetFreeVariables : Formula -> list Var.
Variable Fwdbwd_is_dummy : Formula -> bool.
Variable ExprCtr : Type.
Variable Convert : Formula -> option ExprCtr.
(** Whether [DREAL_ASSERT] is compiled in. *)
Variable debug : bool.

(** [ContractorIbexPolytope::is_dummy] (lines 73-83). *)
Fixpoint Polytope_is_dummy (formulas : list Formula) : bool :=
  match formulas with
  | [] => true
  | f :: formulas' =>
      if is_forall f then Polytope_is_dummy formulas'
      else if negb (Fwdbwd_is_dummy f) then false
      else Polytope_is_dummy formulas'
  end.

(** The loop of lines 35-46: [expr_ctrs_] after it.  Every constraint pushed
    here has been added to the system factory, and nothing else has. *)
Fixpoint add_constraints (formulas : list Formula) (expr_ctrs : list ExprCtr)
  : list ExprCtr :=
  match formulas with
  | [] => expr_ctrs
  | f :: formulas' =>
      if negb (is_forall f) then
        match Convert f with
        | Some expr_ctr => add_constraints formulas' (expr_ctrs ++ [expr_ctr])
        | None => add_constraints formulas' expr_ctrs
        end
      else add_constraints formulas' expr_ctrs
  end.

(** The loops of lines 66-70. *)
Definition build_input (formulas : list Formula) (b : Box) (input : BitSet) : BitSet :=
  fold_left
    (fun input f =>
       fold_left (fun input var => input ∪ {[ index b var ]}) (GetFreeVariables f) input)
    formulas input.

Record ContractorIbexPolytope := mkPolytope {
  input_ : BitSet;
  polytope_formulas_ : list Formula;
  expr_ctrs_ : list ExprCtr;
}.

(** The constructor (lines 22-71).  [system_->nb_ctr] is the number of
    constraints added to the factory. *)
Definition ContractorIbexPolytope_new (formulas : list Formula) (b : Box)
  : construction ContractorIbexPolytope :=
  if debug && Polytope_is_dummy formulas then FailsAssertion
  else
    let expr_ctrs := add_constraints formulas [] in
    let nb_ctr := length expr_ctrs in
    if (nb_ctr =? 0)%nat then ThrowsInt 1
    else Constructed (mkPolytope (build_input formulas b ∅) formulas expr_ctrs).

End Polytope_construction.

(** ** The eagerly populated [ContractorIbexFwdbwdMt]
    (contractor_ibex_fwdbwd_mt.cc, the first version, lines 148-186 of
    [unnamed/part_001]) *)
Section FwdbwdMt_eager.
Context `{IL : ibex.Lib} `{SL : symbolic.Lib}.
Variable ContractorIbexFwdbwd : Type.
Variable make_unique : Formula -> Box -> Config -> ContractorIbexFwdbwd.
Variable ctc_input : ContractorIbexFwdbwd -> BitSet.
Variable ctc_is_dummy : ContractorIbexFwdbwd -> bool.
Variable ctc_Prune : ContractorIbexFwdbwd -> ContractorStatus -> ContractorStatus.
Variable debug : bool.

Record EagerFwdbwdMt := mkEager {
  eager_f_ : Formula;
  eager_config_ : Config;
  eager_input : BitSet;                (* the input of the [ContractorCell] base *)
  is_dummy_ : bool;
  eager_ctcs_ : list ContractorIbexFwdbwd;
}.

(** The constructor (lines 148-168): one contractor per job, all built from
    the same formula, box and configuration; then [ctcs_[0]] is asked for
    the input and for [is_dummy]. *)
Definition EagerFwdbwdMt_new (f : Formula) (b : Box) (config : Config)
  : outcome EagerFwdbwdMt :=
  let ctcs := map (fun _ => make_unique f b config) (seq 0 (number_of_jobs config)) in
  match ctcs !! 0%nat with
  | None => Undefined
  | Some ctc0 => Value (mkEager f config (ctc_input ctc0) (ctc_is_dummy ctc0) ctcs)
  end.

(** [GetCtc()] (lines 170-173) on the thread with id [tid]. *)
Definition GetCtc (tid : nat) (c : EagerFwdbwdMt) : outcome ContractorIbexFwdbwd :=
  match eager_ctcs_ c !! tid with
  | Some ctc => Value ctc
  | None => Undefined
  end.

(** [Prune(cs)] (lines 175-180) on the thread with id [tid]. *)
Definition EagerFwdbwdMt_Prune (tid : nat) (cs0 : ContractorStatus) (c : EagerFwdbwdMt)
  : outcome ContractorStatus :=
  if debug && is_dummy_ c then AssertionFailure
  else
    match GetCtc tid c with
    | Value ctc => Value (ctc_Prune ctc cs0)
    | AssertionFailure => AssertionFailure
    | Undefined => Undefined
    end.

(** [is_dummy()] (line 186). *)
Definition EagerFwdbwdMt_is_dummy (c : EagerFwdbwdMt) : bool := is_dummy_ c.

(** A slot of the lazily populated contractor is ready and holds the
    contractor [ctc]. *)
Definition holds (c : ContractorIbexFwdbwdMt ContractorIbexFwdbwd) (tid : nat)
    (ctc : ContractorIbexFwdbwd) : Prop :=
  ready_at ContractorIbexFwdbwd c tid ∧ ctcs_ _ c !! tid = Some (Some ctc).

(** The statuses that a history of [Prune] calls on the lazily populated
    contractor returns, in order. *)
Fixpoint Prune_results (h : list (nat * ContractorStatus))
    (c : ContractorIbexFwdbwdMt ContractorIbexFwdbwd) : outcome (list ContractorStatus) :=
  match h with
  | [] => Value []
  | (tid, cs0) :: h' =>
      match ContractorIbexFwdbwdMt_Prune ContractorIbexFwdbwd make_unique ctc_is_dummy
              ctc_Prune debug tid cs0 c with
      | Value (cs', c') =>
          match Prune_results h' c' with
          | Value rest => Value (cs' :: rest)
          | AssertionFailure => AssertionFailure
          | Undefined => Undefined
          end
      | AssertionFailure => AssertionFailure
      | Undefined => Undefined
      end
  end.

End FwdbwdMt_eager.

(** ** Expression cells (symbolic_expression_cell.cc)

    In this file additions and multiplications are binary cells.  All line
    numbers are those of the second document of [scripts/run-clang-tidy.sh]. *)

(** What the cells use of <cmath> and of the arithmetic of [double]. *)
Module cmath.

Class Lib `{IL : ibex.Lib} := {
  d_add : double -> double -> double;       (* v1 + v2 *)
  d_mul : double -> double -> double;       (* v1 * v2 *)
  d_div : double -> double -> double;       (* v1 / v2 *)
  d_pow : double -> double -> double;       (* std::pow *)
  d_atan2 : double -> double -> double;     (* std::atan2 *)
  d_min : double -> double -> double;       (* std::min *)
  d_max : double -> double -> double;       (* std::max *)
  d_fn : UnaryKind -> double -> double;     (* std::log, std::fabs, std::exp, ... *)
  isnan : double -> bool;
  isfinite : double -> bool;
}.

End cmath.

(** The kinds of the cells that derive from [BinaryExpressionCell]. *)
Inductive BinaryCellKind := KAdd | KMul | KDiv | KPow | KAtan2 | KMin | KMax.

(** The functions that check their argument before they evaluate. *)
Inductive DomainCheck := LogDomain | SqrtDomain | PowDomain | AsinDomain | AcosDomain.

Section Cells.
Context `{IL : ibex.Lib} `{SL : symbolic.Lib} `{CL : !cmath.Lib}.

(** The class hierarchy below [ExpressionCell], with the members of each
    class. *)
Inductive Cell :=
| CVar (var_ : Var)
| CConstant (v_ : double)
| CRealConstant (lb_ ub_ : double) (use_lb_as_representative_ : bool)
| CNaN
| CUnary (k : UnaryKind) (e_ : Cell)
| CBinary (k : BinaryCellKind) (e1_ e2_ : Cell)
| CIfThenElse (f_cond_ : Formula) (e_then_ e_else_ : Cell)
| CUninterpretedFunction (name_ : string) (variables_ : gset Var).

Definition Environment : Type := gmap Var double.

(** What [Evaluate] throws: [std::runtime_error] for the first four,
    [std::domain_error] for the last.  The text of a message is built from
    what is kept here: the message of a missing entry prints the variable and
    the environment (lines 288-293), that of a division by zero the two
    values and the cell (lines 747-750). *)
Inductive Failure :=
| NoEntry (var : Var) (env : Environment)        (* line 293 *)
| NaNDetected                                    (* line 433 *)
| DivisionByZero (v1 v2 : double) (this : Cell)  (* line 750 *)
| UninterpretedFunctionEvaluated                 (* line 1612 *)
| OutOfDomain (check : DomainCheck) (args : list double).
                                                 (* lines 763, 890, 942, 1105, 1154 *)

Definition is_domain_error (what : Failure) : bool :=
  match what with OutOfDomain _ _ => true | _ => false end.

(** How an evaluation ends: with a value, with an exception, or in a failed
    [assert]. *)
Inductive evaluated (A : Type) :=
| Returned (a : A)
| Thrown (what : Failure)
| Aborted.
Global Arguments Returned {A} a.
Global Arguments Thrown {A} what.
Global Arguments Aborted {A}.

Definition and_then {A B} (r : evaluated A) (k : A -> evaluated B) : evaluated B :=
  match r with
  | Returned a => k a
  | Thrown what => Thrown what
  | Aborted => Aborted
  end.

(** The same outcome with [env] as the environment that the message of a
    missing entry prints. *)
Definition in_environment {A} (env : Environment) (r : evaluated A) : evaluated A :=
  match r with
  | Thrown (NoEntry var _) => Thrown (NoEntry var env)
  | _ => r
  end.

(** [Formula::GetFreeVariables] and [Formula::Evaluate] belong to
    symbolic_formula.cc; [NDEBUG] tells whether [assert] is compiled out. *)
Variable GetFreeVariables : Formula -> gset Var.
Variable Formula_Evaluate : Formula -> Environment -> evaluated bool.
Variable NDEBUG : bool.

(** [assert(!std::isnan(v))] followed by [return v]. *)
Definition assert_not_nan (v : double) : evaluated double :=
  if negb NDEBUG && cmath.isnan v then Aborted else Returned v.

(** The [check_domain] functions of the unary cells (lines 758, 885, 1100
    and 1149): the check that the argument fails, if any.  [!(v >= 0)] also
    rejects NaN. *)
Definition check_domain (k : UnaryKind) (v : double) : option DomainCheck :=
  match k with
  | Log => if negb (ibex.d_le (ibex.d_of_Z 0) v) then Some LogDomain else None
  | Sqrt => if negb (ibex.d_le (ibex.d_of_Z 0) v) then Some SqrtDomain else None
  | Asin =>
      if negb (ibex.d_le (ibex.d_of_Z (-1)) v && ibex.d_le v (ibex.d_of_Z 1))
      then Some AsinDomain else None
  | Acos =>
      if negb (ibex.d_le (ibex.d_of_Z (-1)) v && ibex.d_le v (ibex.d_of_Z 1))
      then Some AcosDomain else None
  | _ => None
  end.

(** [DoEvaluate] of the unary cells. *)
Definition DoEvaluate1 (k : UnaryKind) (v : double) : evaluated double :=
  match check_domain k v with
  | Some check => Thrown (OutOfDomain check [v])
  | None => Returned (cmath.d_fn k v)
  end.

(** [ExpressionPow::check_domain] (lines 935-944): [true] when the pair is
    rejected. *)
Definition pow_out_of_domain (v1 v2 : double) : bool :=
  cmath.isfinite v1 && ibex.d_lt v1 (ibex.d_of_Z 0) &&
  cmath.isfinite v2 && negb (is_integer v2).

(** [DoEvaluate] of the binary cells; [this] is the cell. *)
Definition DoEvaluate2 (k : BinaryCellKind) (this : Cell) (v1 v2 : double)
  : evaluated double :=
  match k with
  | KAdd => Returned (cmath.d_add v1 v2)
  | KMul => Returned (cmath.d_mul v1 v2)
  | KDiv =>
      if ibex.d_eqb v2 (ibex.d_of_Z 0) then Thrown (DivisionByZero v1 v2 this)
      else Returned (cmath.d_div v1 v2)
  | KPow =>
      if pow_out_of_domain v1 v2 then Thrown (OutOfDomain PowDomain [v1; v2])
      else Returned (cmath.d_pow v1 v2)
  | KAtan2 => Returned (cmath.d_atan2 v1 v2)
  | KMin => Returned (cmath.d_min v1 v2)
  | KMax => Returned (cmath.d_max v1 v2)
  end.

(** Modelled from the spec: [ExpressionRealConstant::get_value] is declared
    in the header.  "[RealConstant([lb,ub])] evaluates to its representative
    side." *)
Definition get_value (lb ub : double) (use_lb_as_representative : bool) : double :=
  if use_lb_as_representative then lb else ub.

(** [Evaluate] of every cell (lines 209, 249, 282, 336, 389, 432, 1534 and
    1611). *)
Fixpoint Evaluate (e : Cell) (env : Environment) : evaluated double :=
  match e with
  | CVar var =>
      match env !! var with
      | Some v => assert_not_nan v
      | None => Thrown (NoEntry var env)
      end
  | CConstant v => assert_not_nan v
  | CRealConstant lb ub use_lb => Returned (get_value lb ub use_lb)
  | CNaN => Thrown NaNDetected
  | CUnary k e1 =>
      and_then (Evaluate e1 env) (fun v => DoEvaluate1 k v)
  | CBinary k e1 e2 =>
      and_then (Evaluate e1 env) (fun v1 =>
      and_then (Evaluate e2 env) (fun v2 => DoEvaluate2 k e v1 v2))
  | CIfThenElse f_cond e_then e_else =>
      and_then (Formula_Evaluate f_cond env) (fun c =>
      if c then Evaluate e_then env else Evaluate e_else env)
  | CUninterpretedFunction _ _ => Thrown UninterpretedFunctionEvaluated
  end.

(** [GetVariables] of every cell (lines 191, 222, 266, 322, 371, 418, 1498
    and 1585). *)
Fixpoint GetVariables (e : Cell) : gset Var :=
  match e with
  | CVar var => {[ var ]}
  | CConstant _ | CRealConstant _ _ _ | CNaN => ∅
  | CUnary _ e1 => GetVariables e1
  | CBinary _ e1 e2 => GetVariables e1 ∪ GetVariables e2
  | CIfThenElse f_cond e_then e_else =>
      GetFreeVariables f_cond ∪ GetVariables e_then ∪ GetVariables e_else
  | CUninterpretedFunction _ variables => variables
  end.

Definition is_constant (e : Cell) : bool :=
  match e with CConstant _ => true | _ => false end.

Definition is_addition (e : Cell) : bool :=
  match e with CBinary KAdd _ _ => true | _ => false end.

(** [is_non_negative_integer] (lines 84-86). *)
Definition is_non_negative_integer (v : double) : bool :=
  ibex.d_le (ibex.d_of_Z 0) v && is_integer v.

(** The flag [is_polynomial_] as the constructors compute it (lines 256,
    318, 361, 412, 453, 499, 570 and 933, with [determine_polynomial] of
    lines 90-99; the other constructors pass [false]). *)
Fixpoint is_polynomial (e : Cell) : bool :=
  match e with
  | CVar _ | CConstant _ | CRealConstant _ _ _ => true
  | CNaN => false
  | CUnary _ _ => false
  | CBinary KAdd e1 e2 | CBinary KMul e1 e2 => is_polynomial e1 && is_polynomial e2
  | CBinary KDiv e1 e2 => is_polynomial e1 && is_constant e2
  | CBinary KPow base exponent =>
      if negb (is_polynomial base && is_constant exponent) then false
      else
        match exponent with
        | CConstant e => is_non_negative_integer e
        | _ => false
        end
  | CBinary _ _ _ => false
  | CIfThenElse _ _ _ | CUninterpretedFunction _ _ => false
  end.

(** *** Expansion of products and powers (lines 101-155) *)
Section Expansion.
(** [operator+] and [operator*] on expressions belong to
    symbolic_expression.cc. *)
Variable plus : Cell -> Cell -> Cell.
Variable times : Cell -> Cell -> Cell.

(** [ExpandMultiplication(e1, e2)] (lines 106-133), with [assert] compiled
    out: the two assertions call [Expand] and [EqualTo] of
    symbolic_expression.cc. *)
Definition ExpandMultiplication (e1 e2 : Cell) : Cell :=
  match e1 with
  | CBinary KAdd e11 e12 =>
      match e2 with
      | CBinary KAdd e21 e22 =>
          plus (plus (plus (times e11 e21) (times e12 e21)) (times e11 e22))
            (times e12 e22)
      | _ => plus (times e11 e2) (times e12 e2)
      end
  | _ =>
      match e2 with
      | CBinary KAdd e21 e22 => plus (times e1 e21) (times e1 e22)
      | _ => times e1 e2
      end
  end.

(** [ExpandMultiplication(e1, e2, e3)] (lines 135-138). *)
Definition ExpandMultiplication3 (e1 e2 e3 : Cell) : Cell :=
  ExpandMultiplication (ExpandMultiplication e1 e2) e3.

(** [ExpandPow(base, n)] (lines 141-155), with [assert] compiled out.  The
    division and the remainder are those of C++ [int], which truncate
    towards zero; [fuel] bounds the depth of the recursion. *)
Fixpoint ExpandPow (fuel : nat) (base : Cell) (n : Z) : option Cell :=
  match fuel with
  | O => None
  | S fuel' =>
      if (n =? 1)%Z then Some base
      else
        match ExpandPow fuel' base (Z.quot n 2) with
        | None => None
        | Some pow_half =>
            if (Z.rem n 2 =? 1)%Z
            then Some (ExpandMultiplication3 base pow_half pow_half)
            else Some (ExpandMultiplication pow_half pow_half)
        end
  end.

End Expansion.

End Cells.

(* ################################################################## *)
(** * Part II — A concrete interval library and test data *)
(* ################################################################## *)

(** ** Exact interval arithmetic over the rationals

    An implementation of the [ibex.Lib] interface in which a [double] is a
    rational number, an infinity or NaN, and an interval is empty, the whole
    line, or bounded.  Arithmetic is exact on bounded intervals for the
    polynomial operations; where this implementation has no exact answer it
    returns the whole line, which encloses every answer.  Rounding is not
    modelled.  All inputs used below are small dyadic numbers, on which
    double arithmetic is exact as well. *)
Module QI.

Inductive dbl := NaN | NInf | Fin (q : Q) | PInf.
Inductive itv := Empty | Entire | Bnd (lo hi : Q).

Definition fin (q : Q) : dbl := Fin (Qred q).
Definition bnd (lo hi : Q) : itv := Bnd (Qred lo) (Qred hi).

Definition Qlt_bool (p q : Q) : bool := negb (Qle_bool q p).
Definition Qmin (p q : Q) : Q := if Qle_bool p q then p else q.
Definition Qmax (p q : Q) : Q := if Qle_bool p q then q else p.

Definition d_lt (a b : dbl) : bool :=
  match a, b with
  | NaN, _ | _, NaN => false
  | PInf, _ | _, NInf => false
  | NInf, _ | _, PInf => true
  | Fin p, Fin q => Qlt_bool p q
  end.

Definition d_eqb (a b : dbl) : bool :=
  match a, b with
  | NInf, NInf | PInf, PInf => true
  | Fin p, Fin q => Qeq_bool p q
  | _, _ => false
  end.

Definition d_le (a b : dbl) : bool := d_lt a b || d_eqb a b.

(** Truncation towards zero. *)
Definition Qtrunc (q : Q) : Z := Z.quot (Qnum q) (Zpos (Qden q)).

Definition modf_frac (a : dbl) : dbl :=
  match a with
  | NaN => NaN
  | NInf | PInf => Fin 0
  | Fin q => fin (q - inject_Z (Qtrunc q))
  end.

Definition d_to_int (a : dbl) : Z :=
  match a with
  | Fin q => Qtrunc q
  | _ => 0%Z
  end.

Definition point (c : dbl) : itv :=
  match c with
  | Fin q => bnd q q
  | _ => Empty
  end.

Definition make (l u : dbl) : itv :=
  match l, u with
  | NaN, _ | _, NaN | PInf, _ | _, NInf => Empty
  | Fin p, Fin q => if Qle_bool p q then bnd p q else Empty
  | _, _ => Entire
  end.

Definition eqb (x y : itv) : bool :=
  match x, y with
  | Empty, Empty | Entire, Entire => true
  | Bnd a b, Bnd c d => Qeq_bool a c && Qeq_bool b d
  | _, _ => false
  end.

Definition lb (x : itv) : dbl :=
  match x with Empty => NaN | Entire => NInf | Bnd lo _ => Fin lo end.
Definition ub (x : itv) : dbl :=
  match x with Empty => NaN | Entire => PInf | Bnd _ hi => Fin hi end.
Definition mid (x : itv) : dbl :=
  match x with
  | Empty => NaN
  | Entire => Fin 0
  | Bnd lo hi => fin ((lo + hi) / 2)
  end.
Definition diam (x : itv) : dbl :=
  match x with
  | Empty => NaN
  | Entire => PInf
  | Bnd lo hi => fin (hi - lo)
  end.
Definition is_empty (x : itv) : bool :=
  match x with Empty => true | _ => false end.
Definition is_degenerated (x : itv) : bool :=
  match x with Empty => true | Entire => false | Bnd lo hi => Qeq_bool lo hi end.
Definition is_bisectable (x : itv) : bool :=
  match x with Empty => false | Entire => true | Bnd lo hi => Qlt_bool lo hi end.
Definition bisect (x : itv) : itv * itv :=
  match x with
  | Bnd lo hi => (bnd lo ((lo + hi) / 2), bnd ((lo + hi) / 2) hi)
  | _ => (x, x)
  end.

(** Lifting an exact operation on bounded intervals. *)
Definition lift2 (f : Q -> Q -> Q -> Q -> itv) (x y : itv) : itv :=
  match x, y with
  | Empty, _ | _, Empty => Empty
  | Bnd a b, Bnd c d => f a b c d
  | _, _ => Entire
  end.

Definition add : itv -> itv -> itv := lift2 (fun a b c d => bnd (a + c) (b + d)).
Definition sub : itv -> itv -> itv := lift2 (fun a b c d => bnd (a - d) (b - c)).
Definition mul : itv -> itv -> itv :=
  lift2 (fun a b c d =>
           bnd (Qmin (Qmin (a * c) (a * d)) (Qmin (b * c) (b * d)))
               (Qmax (Qmax (a * c) (a * d)) (Qmax (b * c) (b * d)))).
Definition div : itv -> itv -> itv :=
  lift2 (fun a b c d =>
           if Qlt_bool 0 c || Qlt_bool d 0
           then mul (Bnd a b) (bnd (/ d) (/ c))
           else Entire).

Definition scale (c : dbl) (x : itv) : itv :=
  match c, x with
  | _, Empty | NaN, _ => Empty
  | Fin q, _ => mul (Bnd q q) x
  | _, _ => Entire
  end.

Definition pow_int (x : itv) (n : Z) : itv :=
  match x with
  | Empty => Empty
  | Entire => Entire
  | Bnd lo hi =>
      if (n <? 0)%Z then Entire
      else if (n =? 0)%Z then Bnd 1 1
      else if Z.odd n then bnd (lo ^ n) (hi ^ n)
      else if Qle_bool 0 lo then bnd (lo ^ n) (hi ^ n)
      else if Qle_bool hi 0 then bnd (hi ^ n) (lo ^ n)
      else bnd 0 (Qmax (lo ^ n) (hi ^ n))
  end.

Definition sqr (x : itv) : itv := pow_int x 2.

Definition whole (x : itv) : itv :=
  match x with Empty => Empty | _ => Entire end.

Definition unary (k : UnaryKind) (x : itv) : itv :=
  match k, x with
  | _, Empty => Empty
  | Abs, Bnd lo hi =>
      if Qle_bool 0 lo then x
      else if Qle_bool hi 0 then bnd (- hi) (- lo)
      else bnd 0 (Qmax (- lo) hi)
  | (Sin | Cos | Tanh), _ => Bnd (-1) 1
  | _, _ => Entire
  end.

Definition binary (k : BinaryKind) : itv -> itv -> itv :=
  match k with
  | Min => lift2 (fun a b c d => bnd (Qmin a c) (Qmin b d))
  | Max => lift2 (fun a b c d => bnd (Qmax a c) (Qmax b d))
  | Atan2 => lift2 (fun _ _ _ _ => Entire)
  end.

(** An interval vector is empty when its first component is. *)
Definition vec_is_empty (v : list itv) : bool :=
  match v with
  | [] => false
  | x :: _ => is_empty x
  end.

Definition vec_set_empty (v : list itv) : list itv :=
  match v with
  | [] => []
  | _ :: v' => Empty :: v'
  end.

#[export] Instance lib : ibex.Lib := {|
  ibex.double := dbl;
  ibex.d_of_Z := fun z => Fin (inject_Z z);
  ibex.d_half := Fin (Qmake 1 2);
  ibex.d_lt := d_lt;
  ibex.d_le := d_le;
  ibex.d_eqb := d_eqb;
  ibex.modf_frac := modf_frac;
  ibex.d_to_int := d_to_int;
  ibex.Interval := itv;
  ibex.EMPTY_SET := Empty;
  ibex.point := point;
  ibex.make := make;
  ibex.eqb := eqb;
  ibex.lb := lb;
  ibex.ub := ub;
  ibex.mid := mid;
  ibex.diam := diam;
  ibex.is_empty := is_empty;
  ibex.is_degenerated := is_degenerated;
  ibex.is_bisectable := is_bisectable;
  ibex.bisect := bisect;
  ibex.add := add;
  ibex.sub := sub;
  ibex.mul := mul;
  ibex.div := div;
  ibex.scale := scale;
  ibex.sqr := sqr;
  ibex.pow_int := pow_int;
  ibex.pow_d := fun x _ => whole x;
  ibex.pow := fun x y => lift2 (fun _ _ _ _ => Entire) x y;
  ibex.unary := unary;
  ibex.binary := binary;
  ibex.vec_is_empty := vec_is_empty;
  ibex.vec_set_empty := vec_set_empty;
|}.

End QI.


(** ** The helpers, following the specification *)
Section SpecHelpers.
Context `{IL : ibex.Lib}.
Context `{SL : symbolic.Lib}.

(** A candidate dimension that the MaxDiam search accepts: bisectable, with
    a positive diameter. *)
Definition can_bisect (b : Box) (i : nat) : bool :=
  ibex.d_gt (ibex.diam (at_idx b i)) (ibex.d_of_Z 0) && ibex.is_bisectable (at_idx b i).

(** Modelled from the spec: [FindMaxDiam] of [branch.h] is not among the
    sources.  "MaxDiam: branch on the dimension with the largest diameter
    among candidates; tie-break by smallest box-index."  It is
    [FindMaxDiamIdx] restricted to the dimensions of the bitset. *)
Definition FindMaxDiam_spec (b : Box) (bitset : BitSet) : double * Z :=
  fold_left
    (fun acc i => if bool_decide (i ∈ bitset) then FindMaxDiamIdx_step b acc i else acc)
    (seq 0 (size b)) (ibex.d_of_Z 0, (-1)%Z).

(** Modelled from the spec: [BranchMaxDiam] of [branch_max_diam.h] is not
    among the sources.  "Pick a branching point from the candidates.  If none
    can be bisected, return SAT.  Bisect at that index; push both children on
    the stack", the left child first when the flag says so.  The result is
    [true] when nothing could be bisected. *)
Definition BranchMaxDiam_spec (b : Box) (bitset : BitSet) (left_first : bool)
    (stack : Stack) : bool * Stack :=
  let branching_point := snd (FindMaxDiam_spec b bitset) in
  if (0 <=? branching_point)%Z then
    let boxes := bisect b (Z.to_nat branching_point) in
    (false,
     if left_first
     then (snd boxes, branching_point) :: (fst boxes, branching_point) :: stack
     else (fst boxes, branching_point) :: (snd boxes, branching_point) :: stack)
  else (true, stack).

(** Modelled from the spec: [BranchGradientDescent] of
    [branch_gradient_descent.h] is not among the sources.  "Falls back to
    MaxDiam when the gradient is not informative": this is that fallback,
    with the stacking order of the configuration. *)
Definition BranchGradientDescent_spec (constraints : list Formula) (config : Config)
    (bitset : BitSet) (b : Box) (stack : Stack) : bool * Box * Stack :=
  let r := BranchMaxDiam_spec b bitset (stack_left_box_first config) stack in
  (fst r, b, snd r).

(** Modelled from the spec: [ContractorStatus::InplaceJoin] is not among the
    sources.  "Component-wise merges every worker's ContractorStatus into its
    own (union of used_constraints ...)". *)
Definition InplaceJoin_spec (cs cs_i : ContractorStatus) : ContractorStatus :=
  {| box := box cs; branching_point := branching_point cs;
     output := output cs ∪ output cs_i;
     used_constraints := used_constraints cs ∪ used_constraints cs_i |}.

Definition spec_helpers : Helpers :=
  {| Constraint := Formula;
     ToErrorFunction := fun f => f;
     BranchMaxDiam := BranchMaxDiam_spec;
     BranchGradientDescent := BranchGradientDescent_spec;
     FindMaxDiam := FindMaxDiam_spec;
     InplaceJoin := InplaceJoin_spec |}.

End SpecHelpers.

(** ** Test data over the rational interval library *)
Module TestData.
Import QI.

#[export] Instance formulas : symbolic.Lib := {| symbolic.Formula := nat |}.

(** The box [x0 ∈ [lo, hi]] of one dimension and boxes of two dimensions. *)
Definition box1 (lo hi : Q) : Box := mkBox [0%nat] [Bnd lo hi].
Definition box2 (x y : itv) : Box := mkBox [0%nat; 1%nat] [x; y].

Definition status_of (b : Box) : ContractorStatus :=
  mkStatus b (-1)%Z ∅ ∅.

(** The identity contractor. *)
Definition Id : Contractor := fun cs => cs.

(** An evaluator that reports [UNKNOWN] with the interval of variable [v]
    as its evaluation: the constraint is as wide as the box is in [v]. *)
Definition width_of (v : Var) (f : Formula) : FormulaEvaluator :=
  mkEvaluator (fun b => mkResult UNKNOWN (at_var b v)) [v] f.

(** An evaluator that always reports [VALID], and one that always reports
    [UNSAT]. *)
Definition always_valid (f : Formula) : FormulaEvaluator :=
  mkEvaluator (fun b => mkResult VALID (at_idx b 0)) [] f.
Definition always_unsat (f : Formula) : FormulaEvaluator :=
  mkEvaluator (fun b => mkResult UNSAT ibex.EMPTY_SET) [0%nat] f.

(** The precision 1/2. *)
Definition half : double := Fin (Qmake 1 2).

Definition config_of (jobs : nat) (strategy : BranchingStrategy) : Config :=
  mkConfig half jobs true strategy.

(** *** A sequential run

    One variable [x0 ∈ [0, 2]], the constraint as wide as [x0], precision
    1/2, the identity contractor.  The engine bisects twice and then finds
    the box [[1, 3/2]], whose width is not above the precision. *)
Definition seq_box : Box := box1 0 2.
Definition seq_cs : ContractorStatus := status_of seq_box.
Definition seq_evaluators : list FormulaEvaluator := [width_of 0 7].

(** The state at the loop head of the third iteration under MaxDiam. *)
Definition seq_state2 : IcpState :=
  mkIcp [(box1 1 (Qmake 3 2), 0%Z); (box1 (Qmake 3 2) 2, 0%Z); (box1 0 1, 0%Z)]
        (mkStatus (box1 1 2) 0%Z ∅ ∅) true.

(** The state at the loop head of the second iteration under
    GradientDescent. *)
Definition seq_state1_gd : IcpState :=
  mkIcp [(box1 1 2, 0%Z); (box1 0 1, 0%Z)] (mkStatus seq_box (-1)%Z ∅ ∅) true.

(** The state in which that run returns: the delta-box is the box of [cs]. *)
Definition seq_final : IcpState :=
  mkIcp [(box1 (Qmake 3 2) 2, 0%Z); (box1 0 1, 0%Z)]
        (mkStatus (box1 1 (Qmake 3 2)) 0%Z ∅ ∅) true.

(** The state at the loop head of the second iteration under MaxDiam. *)
Definition seq_state1 : IcpState :=
  mkIcp [(box1 1 2, 0%Z); (box1 0 1, 0%Z)] (mkStatus seq_box (-1)%Z ∅ ∅) false.

(** *** A parallel run

    The same problem with two jobs.  [FillUp] seeds the stack with the two
    halves of [[0, 2]].  The caller's worker (id 1) pops [[1, 2]], bisects
    it, pushes [[1, 3/2]] and keeps [[3/2, 2]]; the pool worker (id 0) pops
    [[1, 3/2]] and finds it delta-SAT; the caller's worker then leaves by the
    loop test. *)
Definition par_schedule : Schedule := [(1%nat, false); (0%nat, false); (1%nat, false)].

Definition par_final : ContractorStatus :=
  mkStatus (box1 1 (Qmake 3 2)) (-1)%Z ∅ ∅.

(** A schedule of one job in which the interrupted flag is set at every
    iteration. *)
Definition interrupted_schedule : Schedule :=
  [(0%nat, true); (0%nat, true); (0%nat, true)].

(** *** Polytope contractions

    Stand-ins for [ctc_->contract]: one that narrows to a given vector and
    one that proves the box empty. *)
Definition square_box : Box := box2 (Bnd 0 2) (Bnd 0 2).
Definition narrowed : list Interval := [Bnd 0 1; Bnd 0 2].
Definition narrow_to (iv : list Interval) : list Interval → list Interval :=
  fun _ => iv.
Definition prove_empty : list Interval → list Interval := ibex.vec_set_empty.

Definition two_formulas : list Formula := [5%nat; 6%nat].

(** *** A box that cannot be bisected: [x0 ∈ [1, 1]] *)
Definition point_box : Box := box1 1 1.
Definition point_cs : ContractorStatus := status_of point_box.
Definition exit_schedule : Schedule := [(0%nat, false); (1%nat, false)].

(** *** A per-thread contractor

    A stand-in for [ContractorIbexFwdbwd]: the pair of what [input()] and
    [is_dummy()] return.  Two threads call [Prune], first thread 1, then
    thread 0. *)
Definition Fwdbwd : Type := BitSet * bool.
Definition make_fwdbwd : Formula → Box → Config → Fwdbwd :=
  fun _ _ _ => ({[ 0%nat ]}, false).
Definition fwdbwd_Prune : Fwdbwd → ContractorStatus → ContractorStatus :=
  fun _ cs => cs.
Definition the_formula : Formula := 7%nat.
Definition mt_history : list (nat * ContractorStatus) :=
  [(1%nat, seq_cs); (0%nat, seq_cs)].
Definition mt_after_thread1 : ContractorIbexFwdbwdMt Fwdbwd :=
  mkMt Fwdbwd the_formula (config_of 2 MaxDiam)
    [0%Z; 1%Z] [None; Some ({[ 0%nat ]}, false)].
Definition mt_after_both : ContractorIbexFwdbwdMt Fwdbwd :=
  mkMt Fwdbwd the_formula (config_of 2 MaxDiam)
    [1%Z; 1%Z] [Some ({[ 0%nat ]}, false); Some ({[ 0%nat ]}, false)].

End TestData.

(** ** Symbolic differentiation over the rational library

    [Expression::Differentiate] on the expressions of the evaluator.  The
    rules are those of the [Differentiate] methods of
    symbolic_expression_cell.cc; the rule for sums and products is the rule
    of [ExpressionAdd] and [ExpressionMul] applied operand by operand.

    Modelled from the spec: the smart constructors [operator+], [operator*],
    [pow], ... (symbolic_expression.cc) are not among the sources.  "Add
    nodes ... absorb the constant term; Mul does the analogous merge over
    base→exponent.  Identities 0+e, 1·e, e/1, e^0, e^1, 0·e, 0/e are applied
    eagerly by the smart constructors."  Constants are folded; equal operands
    are not merged. *)
Module Sym.
Import QI TestData.

Definition lift_d (f : Q -> Q -> Q) (a b : dbl) : dbl :=
  match a, b with
  | Fin p, Fin q => fin (f p q)
  | _, _ => NaN
  end.

Definition Zero : Expression := EConstant (Fin 0).
Definition One : Expression := EConstant (Fin 1).

Definition is_constant (e : Expression) : bool :=
  match e with EConstant _ => true | _ => false end.

Definition is_value (c : dbl) (q : Q) : bool := d_eqb c (Fin q).

(** A sum [c + Σ kᵢ·eᵢ] in parts, and back. *)
Definition as_sum (e : Expression) : dbl * list (Expression * dbl) :=
  match e with
  | EConstant a => (a, [])
  | EAdd c m => (c, m)
  | _ => (Fin 0, [(e, Fin 1)])
  end.

Definition mk_sum (c : dbl) (m : list (Expression * dbl)) : Expression :=
  match m with
  | [] => EConstant c
  | [(e, k)] => if is_value c 0 && is_value k 1 then e else EAdd c m
  | _ => EAdd c m
  end.

Definition e_add (e1 e2 : Expression) : Expression :=
  mk_sum (lift_d Qplus (fst (as_sum e1)) (fst (as_sum e2)))
         (snd (as_sum e1) ++ snd (as_sum e2)).

(** A product [c · Π bᵢ^xᵢ] in parts, and back. *)
Definition as_prod (e : Expression) : dbl * list (Expression * Expression) :=
  match e with
  | EConstant a => (a, [])
  | EMul c m => (c, m)
  | EPow b x => (Fin 1, [(b, x)])
  | _ => (Fin 1, [(e, One)])
  end.

Definition mk_prod (c : dbl) (m : list (Expression * Expression)) : Expression :=
  if is_value c 0 then Zero
  else
    match m with
    | [] => EConstant c
    | [(b, EConstant x)] =>
        if is_value c 1 then (if is_value x 1 then b else EPow b (EConstant x))
        else EMul c m
    | [(b, x)] => if is_value c 1 then EPow b x else EMul c m
    | _ => EMul c m
    end.

Definition e_mul (e1 e2 : Expression) : Expression :=
  mk_prod (lift_d Qmult (fst (as_prod e1)) (fst (as_prod e2)))
          (snd (as_prod e1) ++ snd (as_prod e2)).

Definition e_neg (e : Expression) : Expression := e_mul (EConstant (Fin (-1))) e.
Definition e_sub (e1 e2 : Expression) : Expression := e_add e1 (e_neg e2).

Definition e_div (e1 e2 : Expression) : Expression :=
  match e1, e2 with
  | EConstant (Fin p), EConstant (Fin q) =>
      if Qeq_bool q 0 then EDiv e1 e2 else EConstant (fin (p / q))
  | _, EConstant c => if is_value c 1 then e1 else EDiv e1 e2
  | EConstant c, _ => if is_value c 0 then Zero else EDiv e1 e2
  | _, _ => EDiv e1 e2
  end.

Definition e_pow (b x : Expression) : Expression :=
  match x with
  | EConstant c =>
      if is_value c 0 then One
      else if is_value c 1 then b
      else EPow b x
  | _ => EPow b x
  end.

(** [GetVariables().include(x)] *)
Fixpoint occurs (x : Var) (e : Expression) {struct e} : bool :=
  match e with
  | EVar v => bool_decide (x = v)
  | EConstant _ | ERealConstant _ _ | ENaN => false
  | EAdd _ m => existsb (fun p => occurs x (fst p)) m
  | EMul _ m => existsb (fun p => occurs x (fst p) || occurs x (snd p)) m
  | EDiv e1 e2 | EPow e1 e2 | EBinary _ e1 e2 => occurs x e1 || occurs x e2
  | EUnary _ e1 => occurs x e1
  | EIfThenElse _ e1 e2 => occurs x e1 || occurs x e2
  | EUninterpretedFunction _ vars => bool_decide (x ∈ vars)
  end.

Definition not_differentiable {A} : result A :=
  Throw "The expression is not differentiable with respect to the variable.".

Definition map2 (f : Expression -> Expression -> Expression)
    (r1 r2 : result Expression) : result Expression :=
  bind r1 (fun a => bind r2 (fun b => Ok (f a b))).

Definition two : Expression := EConstant (Fin 2).

(** [DifferentiatePow] (symbolic_expression_cell.cc, lines 545-566); [df] and
    [dg] are the results of [f.Differentiate(x)] and [g.Differentiate(x)],
    looked at only in the cases that call them. *)
Definition DifferentiatePow (f g : Expression) (df dg : result Expression)
  : result Expression :=
  if is_constant g then
    bind df (fun df => Ok (e_mul (e_mul g (e_pow f (e_sub g One))) df))
  else if is_constant f then
    bind dg (fun dg => Ok (e_mul (e_mul (EUnary Log f) (e_pow f g)) dg))
  else
    bind df (fun df => bind dg (fun dg =>
      Ok (e_mul (e_pow f (e_sub g One))
            (e_add (e_mul g df) (e_mul (e_mul (EUnary Log f) f) dg))))).

(** The derivative of a unary cell with argument [f], given [df]. *)
Definition Differentiate_unary (k : UnaryKind) (f df : Expression) : Expression :=
  match k with
  | Log => e_div df f
  | Abs => Zero
  | Exp => e_mul (EUnary Exp f) df
  | Sqrt => e_mul (e_div One (e_mul two (EUnary Sqrt f))) df
  | Sin => e_mul (EUnary Cos f) df
  | Cos => e_mul (e_neg (EUnary Sin f)) df
  | Tan => e_mul (e_div One (e_pow (EUnary Cos f) two)) df
  | Asin => e_mul (e_div One (EUnary Sqrt (e_sub One (e_pow f two)))) df
  | Acos => e_mul (e_div (EConstant (Fin (-1))) (EUnary Sqrt (e_sub One (e_pow f two)))) df
  | Atan => e_mul (e_div One (e_add One (e_pow f two))) df
  | Sinh => e_mul (EUnary Cosh f) df
  | Cosh => e_mul (EUnary Sinh f) df
  | Tanh => e_mul (e_div One (e_pow (EUnary Cosh f) two)) df
  end.

Fixpoint Differentiate (e : Expression) (x : Var) {struct e} : result Expression :=
  match e with
  | EVar v => Ok (if bool_decide (x = v) then One else Zero)
  | EConstant _ => Ok Zero
  | ERealConstant _ _ => Ok Zero
  | ENaN => Throw "NaN is detected during differentiation."
  | EAdd _ m =>
      fold_left
        (fun acc p =>
           map2 e_add acc
             (bind (Differentiate (fst p) x)
                (fun d => Ok (e_mul (EConstant (snd p)) d))))
        m (Ok Zero)
  | EMul c m =>
      (* the pair (product, derivative of the product) of the factors *)
      let pd :=
        fold_right
          (fun p acc =>
             let pw := e_pow (fst p) (snd p) in
             let dpw :=
               DifferentiatePow (fst p) (snd p)
                 (Differentiate (fst p) x) (Differentiate (snd p) x) in
             (e_mul pw (fst acc),
              map2 e_add (bind dpw (fun d => Ok (e_mul d (fst acc))))
                         (bind (snd acc) (fun d => Ok (e_mul pw d)))))
          (One, Ok Zero) m in
      bind (snd pd) (fun d => Ok (e_mul (EConstant c) d))
  | EDiv f g =>
      bind (Differentiate f x) (fun df => bind (Differentiate g x) (fun dg =>
        Ok (e_div (e_sub (e_mul df g) (e_mul f dg)) (e_pow g two))))
  | EUnary Abs f =>
      if occurs x f then not_differentiable else Ok Zero
  | EUnary k f =>
      bind (Differentiate f x) (fun df => Ok (Differentiate_unary k f df))
  | EPow f g =>
      DifferentiatePow f g (Differentiate f x) (Differentiate g x)
  | EBinary Atan2 f g =>
      bind (Differentiate f x) (fun df => bind (Differentiate g x) (fun dg =>
        Ok (e_div (e_sub (e_mul g df) (e_mul f dg))
              (e_add (e_pow f two) (e_pow g two)))))
  | EBinary _ f g =>
      if occurs x f || occurs x g then not_differentiable else Ok Zero
  | EIfThenElse _ f g =>
      if occurs x f || occurs x g then not_differentiable else Ok Zero
  | EUninterpretedFunction _ vars =>
      if bool_decide (x ∈ vars) then not_differentiable else Ok Zero
  end.

(** The test input of the Taylor forms: [f = x0^2] over [x0 ∈ [0, 2]]. *)
Definition square : Expression := EPow (EVar 0%nat) two.

End Sym.

(** ** Further test data for the parallel engine *)
Module ParallelData.
Import QI TestData.

(** One job, on a problem whose only constraint is refuted on every box: the
    worker pops the box, has it refuted, and leaves by the loop test. *)
Definition unsat_evaluators : list FormulaEvaluator := [always_unsat 8].
Definition unsat_schedule : Schedule := [(0%nat, false); (0%nat, false)].

(** The box [x0 ∈ [0, 2]] with a second dimension that is a point. *)
Definition flat_box : Box := box2 (Bnd 0 2) (Bnd 1 1).

End ParallelData.

(** ** Test data for the contractors *)
Module ContractorData.
Import QI TestData.

(** Formulas are numbers here; the even ones stand for quantified formulas,
    and a formula [f] mentions the variable [f mod 2]. *)
Definition forall_if_even : Formula → bool := Nat.even.
Definition free_variables : Formula → list Var := fun f => [Nat.modulo f 2].
Definition never_dummy : Formula → bool := fun _ => false.
Definition convert_all : Formula → option nat := Some.
Definition mixed_formulas : list Formula := [4%nat; 5%nat].
Definition quantified_formulas : list Formula := [4%nat; 6%nat].
Definition mixed_input : BitSet := {[ 0%nat; 1%nat ]}.
Definition mixed_polytope : ContractorIbexPolytope nat :=
  mkPolytope nat mixed_input mixed_formulas [5%nat].

(** Three [Prune] calls on the lazily populated contractor: thread 1 on
    [[0, 2]], thread 0 on [[0, 1]], and thread 1 again on [[1, 2]].  The
    stand-in for [ContractorIbexFwdbwd] remembers the box it was built from
    and prunes to it. *)
Definition BoxCtc : Type := Box.
Definition make_box_ctc : Formula → Box → Config → BoxCtc := fun _ b _ => b.
Definition box_ctc_Prune : BoxCtc → ContractorStatus → ContractorStatus :=
  fun b cs => with_box cs b.
Definition no_input : BoxCtc → BitSet := fun _ => ∅.
Definition not_dummy : BoxCtc → bool := fun _ => false.
Definition three_calls : list (nat * ContractorStatus) :=
  [(1%nat, status_of (box1 0 2)); (0%nat, status_of (box1 0 1));
   (1%nat, status_of (box1 1 2))].

End ContractorData.

(** ** Exact arithmetic for the cells, and test data *)
Module CellData.
Import QI TestData.

Definition lift_q (f : Q → Q → Q) (a b : dbl) : dbl :=
  match a, b with
  | Fin p, Fin q => fin (f p q)
  | _, _ => NaN
  end.

(** The arithmetic of [double] on rationals.  Where an operation has no
    exact rational answer this implementation returns NaN. *)
#[export] Instance exact : cmath.Lib := {|
  cmath.d_add := lift_q Qplus;
  cmath.d_mul := lift_q Qmult;
  cmath.d_div := fun a b =>
    match a, b with
    | Fin p, Fin q => if Qeq_bool q 0 then NaN else fin (p / q)
    | _, _ => NaN
    end;
  cmath.d_pow := fun a b =>
    match a, b with
    | Fin p, Fin q =>
        if Qeq_bool q (inject_Z (Qtrunc q)) && (0 <=? Qtrunc q)%Z
        then fin (p ^ Qtrunc q) else NaN
    | _, _ => NaN
    end;
  cmath.d_atan2 := fun _ _ => NaN;
  cmath.d_min := lift_q Qmin;
  cmath.d_max := lift_q Qmax;
  cmath.d_fn := fun k a =>
    match k, a with
    | Abs, Fin q => if Qle_bool 0 q then Fin q else fin (- q)
    | _, _ => NaN
    end;
  cmath.isnan := fun a => match a with NaN => true | _ => false end;
  cmath.isfinite := fun a => match a with Fin _ => true | _ => false end;
|}.

(** Formulas without free variables that evaluate to [true]. *)
Definition closed_formula : Formula → gset Var := fun _ => ∅.
Definition holds_everywhere : Formula → Environment → evaluated bool :=
  fun _ _ => Returned true.

(** The cells [x0^2 + x1 / 2] and [x0 + x1]. *)
Definition poly_cell : Cell :=
  CBinary KAdd (CBinary KPow (CVar 0%nat) (CConstant (Fin 2)))
               (CBinary KDiv (CVar 1%nat) (CConstant (Fin 2))).
Definition sum_cell : Cell := CBinary KAdd (CVar 0%nat) (CVar 1%nat).

(** Two environments that agree on [x0] and [x1], and one without [x1]. *)
Definition env_small : Environment := {[ 0%nat := Fin 3; 1%nat := Fin 4 ]}.
Definition env_large : Environment :=
  {[ 0%nat := Fin 3; 1%nat := Fin 4; 2%nat := Fin 7 ]}.
Definition env_x0 : Environment := {[ 0%nat := Fin 3 ]}.

(** The integer value of a sum or product of variables and constants at
    [x0 = 2] and every other variable [3]. *)
Fixpoint int_value (e : Cell) : Z :=
  match e with
  | CVar O => 2
  | CVar _ => 3
  | CConstant c => d_to_int c
  | CBinary KAdd e1 e2 => int_value e1 + int_value e2
  | CBinary KMul e1 e2 => int_value e1 * int_value e2
  | _ => 0
  end.

End CellData.

(** ** Test data for the precision *)
Module PrecisionData.
Import QI TestData.

(** The precision 3, coarser than 1/2. *)
Definition coarse : double := Fin 3.

(** The candidates of the box [[0, 2]] at precision 1/2. *)
Definition fine_candidates : BitSet := {[ 0%nat ]}.

End PrecisionData.


(* ################################################################## *)
(** * Part III — Theorems *)
(* ################################################################## *)

(** ** [Icp::EvaluateBox] *)
Section EvaluateBox_facts.
Context `{IL : ibex.Lib} `{SL : symbolic.Lib}.

Lemma add_bisectable_elem (b : Box) (vs : list Var) (S : BitSet) (i : nat) :
  i ∈ add_bisectable b vs S ↔
  i ∈ S ∨ ∃ v, v ∈ vs ∧ ibex.is_bisectable (at_var b v) = true ∧ i = index b v.
Proof.
  revert S. induction vs as [|v vs IH]; intros S; simpl.
  - split; [auto|]. intros [?|(v & Hv & _)]; [done|]. by apply elem_of_nil in Hv.
  - rewrite IH. split.
    + intros [Hi|(w & Hw & Hb & ->)].
      * destruct (ibex.is_bisectable (at_var b v)) eqn:Hb.
        -- apply elem_of_union in Hi as [Hi|Hi]; [by left|].
           apply elem_of_singleton in Hi as ->. right. exists v.
           split; [apply list_elem_of_here|done].
        -- by left.
      * right. exists w. split; [by apply list_elem_of_further|done].
    + intros [Hi|(w & Hw & Hb & ->)].
      * left. destruct (ibex.is_bisectable (at_var b v)); set_solver.
      * apply elem_of_cons in Hw as [->|Hw].
        -- left. rewrite Hb. set_solver.
        -- right. eauto.
Qed.

(** From the first evaluator that reports [UNSAT] the loop returns at once. *)
Lemma EvaluateBox_loop_unsat prec (pre : list FormulaEvaluator) fe post b cs S :
  Forall (fun g => type (fe_call g b) ≠ UNSAT) pre →
  type (fe_call fe b) = UNSAT →
  EvaluateBox_loop prec (pre ++ fe :: post) b cs S =
    (None, AddUsedConstraint (fe_formula fe) (with_box cs (set_empty (box cs)))).
Proof.
  intros Hpre Hfe. revert S.
  induction Hpre as [|g pre Hg Hpre IH]; intros S; simpl.
  - by rewrite Hfe.
  - destruct (type (fe_call g b)) eqn:Hty; [apply IH|done|].
    destruct (ibex.d_gt _ _); apply IH.
Qed.

(** Without any [UNSAT] the loop runs to the end, leaves the status alone and
    collects exactly the bisectable variables of the wide [UNKNOWN]
    constraints. *)
Lemma EvaluateBox_loop_some prec (fes : list FormulaEvaluator) b cs S :
  Forall (fun g => type (fe_call g b) ≠ UNSAT) fes →
  ∃ S', EvaluateBox_loop prec fes b cs S = (Some S', cs) ∧
    ∀ i, i ∈ S' ↔
      i ∈ S ∨ ∃ fe v, fe ∈ fes ∧ wide_unknown prec b fe ∧ v ∈ fe_variables fe ∧
                ibex.is_bisectable (at_var b v) = true ∧ i = index b v.
Proof.
  intros Hall. revert S.
  induction Hall as [|g fes Hg Hall IH]; intros S; simpl.
  - exists S. split; [done|]. intros i. split; [auto|].
    intros [?|(fe & v & Hfe & _)]; [done|]. by apply elem_of_nil in Hfe.
  - assert (Hskip : ¬ wide_unknown prec b g →
      ∃ S', EvaluateBox_loop prec fes b cs S = (Some S', cs) ∧
        ∀ i, i ∈ S' ↔
          i ∈ S ∨ ∃ fe v, fe ∈ g :: fes ∧ wide_unknown prec b fe ∧
                    v ∈ fe_variables fe ∧
                    ibex.is_bisectable (at_var b v) = true ∧ i = index b v).
    { intros Hnot. destruct (IH S) as (S' & Heq & HS'). exists S'.
      split; [done|]. intros i. rewrite HS'. split.
      - intros [?|(fe & v & Hfe & ?)]; [by left|]. right. exists fe, v.
        split; [by apply list_elem_of_further|done].
      - intros [?|(fe & v & Hfe & Hw & ?)]; [by left|].
        apply elem_of_cons in Hfe as [->|Hfe]; [done|]. right. eauto. }
    destruct (type (fe_call g b)) eqn:Hty.
    + apply Hskip. intros [Hu _]. congruence.
    + done.
    + destruct (ibex.d_gt (ibex.diam (evaluation (fe_call g b))) prec) eqn:Hd.
      * destruct (IH (add_bisectable b (fe_variables g) S)) as (S' & Heq & HS').
        exists S'. split; [done|]. intros i. rewrite HS', add_bisectable_elem.
        split.
        -- intros [[?|(v & Hv & Hb & ->)]|(fe & v & Hfe & ?)].
           ++ by left.
           ++ right. exists g, v. split; [apply list_elem_of_here|].
              by repeat split.
           ++ right. exists fe, v. split; [by apply list_elem_of_further|done].
        -- intros [?|(fe & v & Hfe & Hw & Hv & Hb & ->)]; [by left; left|].
           apply elem_of_cons in Hfe as [->|Hfe].
           ++ left. right. eauto.
           ++ right. exists fe, v. eauto.
      * apply Hskip. intros [_ Hw]. congruence.
Qed.

(** When a bitset is returned the status has not been touched. *)
Lemma EvaluateBox_Some_status prec (fes : list FormulaEvaluator) b cs bc :
  fst (EvaluateBox prec fes b cs) = Some bc → snd (EvaluateBox prec fes b cs) = cs.
Proof.
  unfold EvaluateBox. generalize (∅ : BitSet).
  induction fes as [|g fes IH]; intros S; simpl; [done|].
  destruct (type (fe_call g b)); [apply IH|done|].
  destruct (ibex.d_gt _ _); apply IH.
Qed.

(** C2.  [Icp::EvaluateBox] returns [nullopt] as soon as an evaluator reports
    UNSAT on the box, after emptying the box of [cs] and adding that
    evaluator's formula to [used_constraints]; if no evaluator reports UNSAT
    it leaves [cs] alone and returns the bitset that contains exactly the
    box-indices [index b v] of the variables [v] of an evaluator reporting
    UNKNOWN with a diameter strictly greater than the precision, with [b[v]]
    bisectable.  VALID results and UNKNOWN results of diameter at most the
    precision contribute nothing. *)
Theorem EvaluateBox_correct (prec : double) (fes : list FormulaEvaluator)
    (b : Box) (cs : ContractorStatus) :
  (∀ pre fe post,
      fes = pre ++ fe :: post →
      Forall (fun g => type (fe_call g b) ≠ UNSAT) pre →
      type (fe_call fe b) = UNSAT →
      ∃ cs', EvaluateBox prec fes b cs = (None, cs') ∧
        box cs' = set_empty (box cs) ∧
        used_constraints cs' = used_constraints cs ∪ {[ fe_formula fe ]} ∧
        output cs' = output cs ∧ branching_point cs' = branching_point cs) ∧
  (Forall (fun g => type (fe_call g b) ≠ UNSAT) fes →
      ∃ S, EvaluateBox prec fes b cs = (Some S, cs) ∧
        ∀ i, i ∈ S ↔
          ∃ fe v, fe ∈ fes ∧ wide_unknown prec b fe ∧ v ∈ fe_variables fe ∧
                  ibex.is_bisectable (at_var b v) = true ∧ i = index b v).
Proof.
  split.
  - intros pre fe post -> Hpre Hfe. eexists. split.
    + unfold EvaluateBox. by apply EvaluateBox_loop_unsat.
    + done.
  - intros Hall. unfold EvaluateBox.
    destruct (EvaluateBox_loop_some prec fes b cs ∅ Hall) as (S & Heq & HS).
    exists S. split; [done|]. intros i. rewrite HS. split.
    + intros [Hi|?]; [|done]. by apply not_elem_of_empty in Hi.
    + auto.
Qed.

End EvaluateBox_facts.

(** ** The sequential [Icp::CheckSat] *)
Section CheckSat_facts.
Context `{IL : ibex.Lib} `{SL : symbolic.Lib}.
Variable helpers : Helpers.
Variable config_ : Config.
Variable contractor : Contractor.
Variable formula_evaluators : list FormulaEvaluator.

Local Abbreviation body := (CheckSat_body helpers config_ contractor formula_evaluators).
Local Abbreviation loop := (CheckSat_loop helpers config_ contractor formula_evaluators).
Local Abbreviation after := (state_after helpers config_ contractor formula_evaluators).
Local Abbreviation delta_sat := (delta_sat_at config_ contractor formula_evaluators).
Local Abbreviation degenerate_sat :=
  (degenerate_sat_at helpers config_ contractor formula_evaluators).
Local Abbreviation branches :=
  (branches_at helpers config_ contractor formula_evaluators).

(** The loop body never returns [false]. *)
Lemma CheckSat_body_never_false top rest st st' :
  body top rest st ≠ Return false st'.
Proof.
  unfold CheckSat_body, CheckSat_branch.
  repeat (case_match; try done).
Qed.

(** The loop body returns exactly in the two delta-SAT cases. *)
Lemma CheckSat_body_returns top rest st :
  stack st = top :: rest →
  (∃ st', body top rest st = Return true st') ↔ delta_sat st ∨ degenerate_sat st.
Proof.
  intros Hst. unfold delta_sat_at, degenerate_sat_at, branch_fails, pruned.
  rewrite Hst. unfold CheckSat_body, CheckSat_branch. split.
  - intros [st' Hret].
    destruct (empty _) eqn:Hempty; [done|].
    destruct (fst (EvaluateBox _ _ _ _)) as [bc|] eqn:Hev; [|done].
    destruct (decide (bc = ∅)) as [->|Hne].
    + left. exists top, rest. done.
    + right. exists top, rest, bc. repeat split; try done.
      cbv zeta in Hret. rewrite (EvaluateBox_Some_status _ _ _ _ _ Hev) in Hret.
      destruct (branching_strategy config_);
        by match type of Hret with (if ?c then _ else _) = _ => destruct c end.
  - intros [(top' & rest' & [= <- <-] & Hempty & Hev)
           |(top' & rest' & bc & [= <- <-] & Hempty & Hev & Hne & Hfail)].
    + rewrite Hempty, Hev. rewrite decide_True by done. eauto.
    + rewrite Hempty, Hev. rewrite decide_False by done. cbv zeta.
      rewrite (EvaluateBox_Some_status _ _ _ _ _ Hev).
      destruct (branching_strategy config_); rewrite Hfail; eauto.
Qed.

Lemma CheckSat_loop_mono fuel k st r :
  loop fuel st = Some r → loop (fuel + k) st = Some r.
Proof.
  revert st. induction fuel as [|fuel IH]; intros st; simpl; [done|].
  destruct (stack st) as [|top rest]; [done|].
  destruct (body top rest st); [apply IH|done].
Qed.

(** Running [k] iterations and then the loop is running the loop. *)
Lemma CheckSat_loop_after k fuel st st' :
  after k st = Some st' → loop (k + fuel) st = loop fuel st'.
Proof.
  revert st. induction k as [|k IH]; intros st; simpl.
  - by intros [= ->].
  - destruct (stack st) as [|top rest]; [done|].
    destruct (body top rest st); [apply IH|done].
Qed.

Lemma state_after_prefix j k st st' :
  after (j + k) st = Some st' → ∃ st_j, after j st = Some st_j ∧ after k st_j = Some st'.
Proof.
  revert st. induction j as [|j IH]; intros st; simpl.
  - eauto.
  - destruct (stack st) as [|top rest]; [done|].
    destruct (body top rest st); [apply IH|done].
Qed.

(** A state from which another iteration is run is not a delta-SAT state. *)
Lemma state_after_not_sat st st' :
  after 1 st = Some st' → ¬ delta_sat st ∧ ¬ degenerate_sat st.
Proof.
  simpl. destruct (stack st) as [|top rest] eqn:Hst; [done|].
  destruct (body top rest st) as [st1|b st1] eqn:Hbody; [|done].
  intros _.
  assert (¬ (delta_sat st ∨ degenerate_sat st)) as Hno; [|tauto].
  rewrite <- (CheckSat_body_returns top rest st Hst).
  intros [st2 Hret]. congruence.
Qed.

(** What the loop returns, in terms of the states it goes through. *)
Lemma CheckSat_loop_result fuel st b st' :
  loop fuel st = Some (b, st') →
  ∃ k st_k, k < fuel ∧ after k st = Some st_k ∧
    match b with
    | false => stack st_k = [] ∧ st' = st_k
    | true => delta_sat st_k ∨ degenerate_sat st_k
    end.
Proof.
  revert st. induction fuel as [|fuel IH]; intros st; simpl; [done|].
  destruct (stack st) as [|top rest] eqn:Hst.
  - intros [= <- <-]. exists 0, st. split; [lia|]. done.
  - destruct (body top rest st) as [st1|b1 st1] eqn:Hbody.
    + intros Hloop. destruct (IH _ Hloop) as (k & st_k & Hk & Hafter & Hres).
      exists (S k), st_k. split; [lia|]. split; [|done].
      simpl. by rewrite Hst, Hbody.
    + intros [= <- <-]. exists 0, st. split; [lia|]. split; [done|].
      destruct b1.
      * apply (CheckSat_body_returns top rest st Hst). eauto.
      * by apply CheckSat_body_never_false in Hbody.
Qed.

(** C1.  Started on any status and with any evaluators, [Icp::CheckSat]
    returns [true] from the first iteration in which [EvaluateBox] yields an
    empty candidate set for the pruned box, and likewise from the first
    iteration in which the candidates are non-empty but the branching helper
    finds no dimension to bisect; and it returns [false] exactly when the
    stack becomes empty without either case having occurred in any earlier
    iteration. *)
Theorem CheckSat_verdict (cs0 : ContractorStatus) :
  (∀ k st,
      state_after helpers config_ contractor formula_evaluators k
        (CheckSat_init config_ cs0) = Some st →
      delta_sat_at config_ contractor formula_evaluators st →
      ∃ st', CheckSat helpers config_ contractor formula_evaluators (S k) cs0
             = Some (true, st')) ∧
  (∀ k st,
      state_after helpers config_ contractor formula_evaluators k
        (CheckSat_init config_ cs0) = Some st →
      degenerate_sat_at helpers config_ contractor formula_evaluators st →
      ∃ st', CheckSat helpers config_ contractor formula_evaluators (S k) cs0
             = Some (true, st')) ∧
  (∀ fuel st',
      CheckSat helpers config_ contractor formula_evaluators fuel cs0
        = Some (false, st') ↔
      ∃ k, k < fuel ∧
        state_after helpers config_ contractor formula_evaluators k
          (CheckSat_init config_ cs0) = Some st' ∧
        stack st' = [] ∧
        ∀ j st_j, j < k →
          state_after helpers config_ contractor formula_evaluators j
            (CheckSat_init config_ cs0) = Some st_j →
          ¬ delta_sat_at config_ contractor formula_evaluators st_j ∧
          ¬ degenerate_sat_at helpers config_ contractor formula_evaluators st_j).
Proof.
  assert (Hsat : ∀ k st,
    after k (CheckSat_init config_ cs0) = Some st →
    delta_sat st ∨ degenerate_sat st →
    ∃ st', CheckSat helpers config_ contractor formula_evaluators (S k) cs0
           = Some (true, st')).
  { intros k st Hafter Hcase. unfold CheckSat.
    replace (S k) with (k + 1) by lia.
    rewrite (CheckSat_loop_after k 1 _ st Hafter). simpl.
    assert (∃ top rest, stack st = top :: rest) as (top & rest & Hst).
    { destruct Hcase as [(t & r & ? & _)|(t & r & ? & ? & _)]; eauto. }
    rewrite Hst.
    destruct (proj2 (CheckSat_body_returns top rest st Hst) Hcase) as [st' Hret].
    rewrite Hret. eauto. }
  split; [|split].
  - intros k st Hafter Hcase. apply (Hsat k st); auto.
  - intros k st Hafter Hcase. apply (Hsat k st); auto.
  - intros fuel st'. unfold CheckSat. split.
    + intros Hloop.
      apply CheckSat_loop_result in Hloop as (k & st_k & Hk & Hafter & Hnil & ->).
      exists k. repeat split; try done.
      * intros Hd. revert Hd.
        replace k with (j + (1 + (k - j - 1))) in Hafter by lia.
        apply state_after_prefix in Hafter as (st_j' & Hj & Hrest).
        apply state_after_prefix in Hrest as (st1 & H1 & _).
        assert (st_j' = st_j) as -> by congruence.
        by apply state_after_not_sat in H1 as [? ?].
      * intros Hd. revert Hd.
        replace k with (j + (1 + (k - j - 1))) in Hafter by lia.
        apply state_after_prefix in Hafter as (st_j' & Hj & Hrest).
        apply state_after_prefix in Hrest as (st1 & H1 & _).
        assert (st_j' = st_j) as -> by congruence.
        by apply state_after_not_sat in H1 as [? ?].
    + intros (k & Hk & Hafter & Hnil & _).
      replace fuel with (k + (1 + (fuel - k - 1))) by lia.
      rewrite (CheckSat_loop_after k _ _ st' Hafter). simpl. by rewrite Hnil.
Qed.

(** [stack_left_box_first_] across one iteration of the loop that does not
    return. *)
Lemma CheckSat_body_flag top rest st st' :
  stack st = top :: rest →
  body top rest st = Continue st' →
  match branching_strategy config_ with
  | MaxDiam =>
      (branches st → stack_left_box_first_ st' = negb (stack_left_box_first_ st)) ∧
      (¬ branches st → stack_left_box_first_ st' = stack_left_box_first_ st)
  | GradientDescent => stack_left_box_first_ st' = stack_left_box_first_ st
  end.
Proof.
  intros Hst. unfold branches_at, branch_fails, pruned. rewrite Hst.
  unfold CheckSat_body, CheckSat_branch.
  destruct (empty _) eqn:Hempty.
  { intros [= <-]. destruct (branching_strategy config_); [|done].
    split; [|done].
    intros (t & r & bc & [= <- <-] & He & _). congruence. }
  destruct (fst (EvaluateBox _ _ _ _)) as [bc|] eqn:Hev.
  2:{ intros [= <-]. destruct (branching_strategy config_); [|done].
      split; [|done].
      intros (t & r & bc & [= <- <-] & _ & He & _). congruence. }
  destruct (decide (bc = ∅)) as [->|Hne]; [done|].
  cbv zeta. rewrite (EvaluateBox_Some_status _ _ _ _ _ Hev).
  destruct (branching_strategy config_) eqn:Hstrat.
  - destruct (fst (BranchMaxDiam _ _ _ _ _)) eqn:Hbr; [done|].
    intros [= <-]. simpl. split; [done|].
    intros Hno. exfalso. apply Hno. exists top, rest, bc.
    repeat split; try done. congruence.
  - destruct (fst (fst (BranchGradientDescent _ _ _ _ _ _))) eqn:Hbr; [done|].
    by intros [= <-].
Qed.

(** C3 (as the code has it).  In [Icp::CheckSat] a branching step flips
    [stack_left_box_first_] under the MaxDiam strategy, and no other
    iteration changes it, so the flag handed to [BranchMaxDiam] alternates
    over consecutive branchings.  Under the GradientDescent strategy no
    iteration changes the flag: it keeps the configured value after every
    branching step. *)
Theorem CheckSat_flag_alternation (st st' : IcpState) :
  state_after helpers config_ contractor formula_evaluators 1 st = Some st' →
  match branching_strategy config_ with
  | MaxDiam =>
      (branches_at helpers config_ contractor formula_evaluators st →
         stack_left_box_first_ st' = negb (stack_left_box_first_ st)) ∧
      (¬ branches_at helpers config_ contractor formula_evaluators st →
         stack_left_box_first_ st' = stack_left_box_first_ st)
  | GradientDescent => stack_left_box_first_ st' = stack_left_box_first_ st
  end.
Proof.
  simpl. destruct (stack st) as [|top rest] eqn:Hst; [done|].
  destruct (body top rest st) as [st1|b st1] eqn:Hbody; [|done].
  intros [= <-]. by apply (CheckSat_body_flag top rest).
Qed.

End CheckSat_facts.

(** ** Runs of the sequential engine on the test data *)
Section CheckSat_runs.
Import QI TestData.

Example CheckSat_finds_delta_box :
  CheckSat spec_helpers (config_of 1 MaxDiam) Id seq_evaluators 3 seq_cs
  = Some (true, seq_final).
Proof. reflexivity. Qed.

Example CheckSat_third_iteration :
  state_after spec_helpers (config_of 1 MaxDiam) Id seq_evaluators 2
    (CheckSat_init (config_of 1 MaxDiam) seq_cs) = Some seq_state2.
Proof. reflexivity. Qed.

Example CheckSat_second_iteration_gd :
  state_after spec_helpers (config_of 1 GradientDescent) Id seq_evaluators 1
    (CheckSat_init (config_of 1 GradientDescent) seq_cs) = Some seq_state1_gd.
Proof. reflexivity. Qed.

Example CheckSat_unsat_run :
  fst <$> CheckSat spec_helpers (config_of 1 MaxDiam) Id [always_unsat 8] 2 seq_cs
  = Some false.
Proof. reflexivity. Qed.

Example CheckSat_second_iteration :
  state_after spec_helpers (config_of 1 MaxDiam) Id seq_evaluators 1
    (CheckSat_init (config_of 1 MaxDiam) seq_cs) = Some seq_state1.
Proof. reflexivity. Qed.

(** The first iteration on the test data is a branching step, under either
    strategy. *)
Lemma seq_first_iteration_branches (strategy : BranchingStrategy) :
  branches_at spec_helpers (config_of 1 strategy) Id seq_evaluators
    (CheckSat_init (config_of 1 strategy) seq_cs).
Proof.
  exists (seq_box, (-1)%Z), [], {[ 0%nat ]}.
  split; [reflexivity|]. split; [reflexivity|].
  split; [reflexivity|]. split; [set_solver|].
  destruct strategy; vm_compute; discriminate.
Qed.

(** Witness of [EvaluateBox_correct]: an UNSAT evaluator after a VALID one,
    and a run without UNSAT that yields the candidate [0]. *)
Lemma EvaluateBox_correct_witness :
  (∃ cs', EvaluateBox half [always_valid 1; always_unsat 8] seq_box seq_cs
          = (None, cs') ∧ used_constraints cs' = {[ 8%nat ]}) ∧
  (∃ S, EvaluateBox half [always_valid 1; width_of 0 7] seq_box seq_cs
        = (Some S, seq_cs) ∧ 0%nat ∈ S).
Proof.
  split.
  - destruct (proj1 (EvaluateBox_correct half
                       [always_valid 1; always_unsat 8] seq_box seq_cs)
               [always_valid 1] (always_unsat 8) [])
      as (cs' & Heq & _ & Hused & _).
    + reflexivity.
    + repeat constructor; discriminate.
    + reflexivity.
    + exists cs'. split; [exact Heq|]. rewrite Hused. reflexivity.
  - destruct (proj2 (EvaluateBox_correct half
                       [always_valid 1; width_of 0 7] seq_box seq_cs))
      as (S & Heq & HS).
    + repeat constructor; discriminate.
    + exists S. split; [exact Heq|]. apply HS.
      exists (width_of 0 7), 0%nat.
      split; [apply list_elem_of_further, list_elem_of_here|].
      split; [split; reflexivity|].
      split; [apply list_elem_of_here|]. split; reflexivity.
Defined.

(** Witness of [CheckSat_verdict]: the delta-SAT run and the UNSAT run of the
    test data. *)
Lemma CheckSat_verdict_witness :
  (∃ st', CheckSat spec_helpers (config_of 1 MaxDiam) Id seq_evaluators 3 seq_cs
          = Some (true, st')) ∧
  (∃ st', CheckSat spec_helpers (config_of 1 MaxDiam) Id [always_unsat 8] 2 seq_cs
          = Some (false, st')).
Proof.
  split.
  - destruct (CheckSat_verdict spec_helpers (config_of 1 MaxDiam) Id seq_evaluators seq_cs)
      as (Hdelta & _ & _).
    apply (Hdelta 2 seq_state2).
    + reflexivity.
    + exists (box1 1 (Qmake 3 2), 0%Z),
        [(box1 (Qmake 3 2) 2, 0%Z); (box1 0 1, 0%Z)].
      split; [reflexivity|]. split; [reflexivity|]. reflexivity.
  - destruct (CheckSat_verdict spec_helpers (config_of 1 MaxDiam) Id [always_unsat 8] seq_cs)
      as (_ & _ & Hfalse).
    eexists. apply Hfalse. exists 1. split; [lia|].
    split; [reflexivity|]. split; [reflexivity|].
    intros j st_j Hj Hafter. assert (j = 0) as -> by lia.
    injection Hafter as <-. split.
    + intros (top & rest & Hst & _ & Hev). injection Hst as <- <-.
      vm_compute in Hev. discriminate Hev.
    + intros (top & rest & bc & Hst & _ & Hev & _). injection Hst as <- <-.
      vm_compute in Hev. discriminate Hev.
Defined.

(** Witness of [CheckSat_flag_alternation]: the first branching step of the
    MaxDiam run flips the flag. *)
Lemma CheckSat_flag_alternation_witness :
  stack_left_box_first_ seq_state1
  = negb (stack_left_box_first_ (CheckSat_init (config_of 1 MaxDiam) seq_cs)).
Proof.
  apply (CheckSat_flag_alternation spec_helpers (config_of 1 MaxDiam) Id seq_evaluators
           (CheckSat_init (config_of 1 MaxDiam) seq_cs) seq_state1).
  - reflexivity.
  - apply (seq_first_iteration_branches MaxDiam).
Defined.

(** C3, counterexample.  Under GradientDescent the first iteration of the run
    on the test data is a branching step (both halves of [[0, 2]] are pushed)
    and the flag is the same after it: it has not been flipped. *)
Lemma GradientDescent_branching_keeps_flag :
  branches_at spec_helpers (config_of 1 GradientDescent) Id seq_evaluators
    (CheckSat_init (config_of 1 GradientDescent) seq_cs) ∧
  state_after spec_helpers (config_of 1 GradientDescent) Id seq_evaluators 1
    (CheckSat_init (config_of 1 GradientDescent) seq_cs) = Some seq_state1_gd ∧
  stack_left_box_first_ seq_state1_gd
  ≠ negb (stack_left_box_first_ (CheckSat_init (config_of 1 GradientDescent) seq_cs)).
Proof.
  split; [apply (seq_first_iteration_branches GradientDescent)|].
  split; [reflexivity|]. vm_compute. discriminate.
Qed.

End CheckSat_runs.

(** ** The parallel engine *)
Section Parallel_facts.
Context `{IL : ibex.Lib} `{SL : symbolic.Lib}.
Variable helpers : Helpers.
Variable config : Config.
Variable contractor : Contractor.
Variable formula_evaluators : list FormulaEvaluator.
Variable DREAL_CHECK_INTERRUPT : bool.

Local Abbreviation process :=
  (Worker_process helpers config contractor formula_evaluators).
Local Abbreviation wstep :=
  (Worker_step helpers config contractor formula_evaluators DREAL_CHECK_INTERRUPT).
Local Abbreviation sstep :=
  (System_step helpers config contractor formula_evaluators DREAL_CHECK_INTERRUPT).
Local Abbreviation run_sched :=
  (run helpers config contractor formula_evaluators DREAL_CHECK_INTERRUPT).
Local Abbreviation finish := (CheckSat_finish helpers config).
Local Abbreviation pool_invariant := (pool_invariant config).
Local Abbreviation parallel_CheckSat :=
  (IcpParallel_CheckSat helpers config contractor formula_evaluators
     DREAL_CHECK_INTERRUPT).

(** Processing a box either leaves the worker in its loop and
    [found_delta_sat] as it was, or publishes the worker's id and returns. *)
Lemma Worker_process_cases id sh gs cs0 w :
  let r := process id sh gs cs0 w in
  (w_status (snd r) = Running ∧ found_delta_sat (fst r) = found_delta_sat sh) ∨
  (w_status (snd r) = Found ∧ found_delta_sat (fst r) = Z.of_nat id).
Proof.
  unfold Worker_process. simpl.
  destruct (empty _); [by left|].
  destruct (fst (EvaluateBox _ _ _ _)) as [bc|]; [|by left].
  destruct (decide (bc = ∅)); [by right|].
  destruct (ParallelBranch _ _ _ _ _ _) as [[[[] ?] ?] ?]; [by left|by right].
Qed.

(** A step of a worker: a worker that has left its loop stays as it is; a
    running worker keeps running, leaves by the loop test, raises, or leaves
    after publishing its id, and only in the last case is [found_delta_sat]
    written. *)
Lemma Worker_step_cases g id sh w :
  let r := wstep g id sh w in
  (w_status w ≠ Running ∧ r = (sh, w)) ∨
  (w_status w = Running ∧
   ((w_status (snd r) ∈ [Running; Exited] ∧ found_delta_sat (fst r) = found_delta_sat sh) ∨
    (w_status (snd r) = Raised ∧ fst r = sh ∧ DREAL_CHECK_INTERRUPT = true ∧ g = true) ∨
    (w_status (snd r) = Found ∧ found_delta_sat (fst r) = Z.of_nat id))).
Proof.
  unfold Worker_step. simpl.
  destruct (w_status w) eqn:Hs; try (left; split; [congruence|done]).
  right. split; [done|].
  destruct (negb _); [left; split; [set_solver|done]|].
  assert (Hproc : ∀ gs cs0,
    (w_status (snd (process id sh gs cs0 w)) ∈ [Running; Exited] ∧
     found_delta_sat (fst (process id sh gs cs0 w)) = found_delta_sat sh) ∨
    (w_status (snd (process id sh gs cs0 w)) = Raised ∧
     fst (process id sh gs cs0 w) = sh ∧ DREAL_CHECK_INTERRUPT = true ∧ g = true) ∨
    (w_status (snd (process id sh gs cs0 w)) = Found ∧
     found_delta_sat (fst (process id sh gs cs0 w)) = Z.of_nat id)).
  { intros gs cs0.
    destruct (Worker_process_cases id sh gs cs0 w) as [[H1 H2]|[H1 H2]].
    - left. split; [rewrite H1; set_solver|done].
    - right. right. done. }
  destruct (DREAL_CHECK_INTERRUPT && g) eqn:Hint.
  { apply andb_true_iff in Hint as [-> ->]. right. left. done. }
  destruct (need_to_pop w); [|apply Hproc].
  destruct (global_stack sh) as [|b gs]; [|apply Hproc].
  left. simpl. split; [rewrite Hs; set_solver|done].
Qed.

Lemma pool_invariant_initial cs boxes :
  pool_invariant (initial_system config cs boxes).
Proof.
  split; simpl; [by rewrite length_replicate|by left].
Qed.

Lemma pool_invariant_step sys ev :
  pool_invariant sys → pool_invariant (sstep sys ev).
Proof.
  intros [Hlen Hfound]. unfold System_step.
  destruct (workers sys !! fst ev) as [w|] eqn:Hw; [|done].
  split; simpl; [by rewrite length_insert|].
  pose proof (lookup_lt_Some _ _ _ Hw) as Hlt.
  destruct (Worker_step_cases (snd ev) (fst ev) (shared sys) w)
    as [[Hnr ->]|[Hr [[_ ->]|[(_ & -> & _)|[Hst ->]]]]]; simpl.
  - rewrite list_insert_id by done. done.
  - destruct Hfound as [?|(w' & Hpos & Hw' & Hst')]; [by left|].
    right. exists w'. split; [done|]. split; [|done].
    rewrite list_lookup_insert_ne; [done|].
    intros Heq. rewrite <- Heq in Hw'. congruence.
  - destruct Hfound as [?|(w' & Hpos & Hw' & Hst')]; [by left|].
    right. exists w'. split; [done|]. split; [|done].
    rewrite list_lookup_insert_ne; [done|].
    intros Heq. rewrite <- Heq in Hw'. congruence.
  - right. eexists. split; [lia|]. rewrite Nat2Z.id.
    split; [by apply list_lookup_insert_eq|done].
Qed.

Lemma pool_invariant_run sched sys :
  pool_invariant sys → pool_invariant (run_sched sched sys).
Proof.
  revert sys. induction sched as [|ev sched IH]; intros sys Hinv; [done|].
  simpl. apply IH. by apply pool_invariant_step.
Qed.

(** The barrier lets the caller through only when every pool worker has
    returned. *)
Lemma barrier_AllReturned (ws : list WorkerState) :
  barrier ws = AllReturned →
  Forall (fun w => w_status w = Exited ∨ w_status w = Found) ws.
Proof.
  induction ws as [|w ws IH]; simpl; [constructor|].
  destruct (w_status w) eqn:Hs; try done; constructor; auto.
Qed.

Lemma barrier_Raised (ws : list WorkerState) w :
  w ∈ ws → w_status w = Raised → barrier ws ≠ AllReturned.
Proof.
  induction ws as [|w' ws IH]; [by intros ?%elem_of_nil|].
  intros [->|Hin]%elem_of_cons Hs; simpl.
  - by rewrite Hs.
  - destruct (w_status w'); try done; by apply IH.
Qed.

Lemma barrier_not_Blocked (ws : list WorkerState) :
  Forall (fun w => w_status w ≠ Running) ws → barrier ws ≠ Blocked.
Proof.
  induction 1 as [|w ws Hw Hws IH]; simpl; [done|].
  destruct (w_status w); done.
Qed.

Lemma barrier_not_Rethrown (ws : list WorkerState) :
  Forall (fun w => w_status w ≠ Raised) ws → barrier ws ≠ Rethrown.
Proof.
  induction 1 as [|w ws Hw Hws IH]; simpl; [done|].
  destruct (w_status w); done.
Qed.

(** When the caller gets past the barrier without an exception, all workers
    have returned. *)
Lemma CheckSat_finish_Returns cs sys b cs' :
  length (workers sys) = number_of_jobs config →
  finish cs sys = Some (Returns b cs') →
  Forall (fun w => w_status w = Exited ∨ w_status w = Found) (workers sys) ∧
  CheckSat_post helpers cs sys = Returns b cs'.
Proof.
  intros Hlen. unfold CheckSat_finish.
  destruct (workers sys !! (number_of_jobs config - 1)) as [main|] eqn:Hmain; [|done].
  assert (workers sys = take (number_of_jobs config - 1) (workers sys) ++ [main]) as Hsplit.
  { pose proof (lookup_lt_Some _ _ _ Hmain) as Hlt.
    rewrite <- (take_drop (number_of_jobs config - 1) (workers sys)) at 1.
    f_equal. erewrite drop_S by done. rewrite drop_ge by lia. done. }
  destruct (w_status main) eqn:Hs; try done.
  all: destruct (barrier _) eqn:Hb; try done.
  all: intros [= Hpost]; split; [|done].
  all: rewrite Hsplit; apply Forall_app; split;
    [by apply barrier_AllReturned|constructor; [auto|constructor]].
Qed.

Lemma barrier_terminated (ws : list WorkerState) :
  Forall (fun w => w_status w = Exited ∨ w_status w = Found) ws →
  barrier ws = AllReturned.
Proof.
  induction 1 as [|w ws [Hw|Hw] Hws IH]; simpl; [done| |]; by rewrite Hw.
Qed.

(** Once every worker has returned, the caller gets through the barrier and
    does the post-processing. *)
Lemma CheckSat_finish_terminated cs sys :
  length (workers sys) = number_of_jobs config →
  0 < number_of_jobs config →
  Forall (fun w => w_status w = Exited ∨ w_status w = Found) (workers sys) →
  finish cs sys = Some (CheckSat_post helpers cs sys).
Proof.
  intros Hlen Hjobs Hall. unfold CheckSat_finish.
  destruct (workers sys !! (number_of_jobs config - 1)) as [main|] eqn:Hmain.
  2:{ apply lookup_ge_None in Hmain. lia. }
  rewrite (barrier_terminated _ (Forall_take _ _ _ Hall)).
  destruct (Forall_lookup_1 _ _ _ _ Hall Hmain) as [-> | ->]; done.
Qed.

(** C4.  [IcpParallel::CheckSat] first prunes the caller's box and returns
    [false] at once when that empties it.  Otherwise, once the seeding is
    done and every worker has returned, it joins every worker's status into
    the caller's by [InplaceJoin] and returns: if [found_delta_sat >= 0] it
    holds the id of a worker that exited as the finder, the verdict is
    [true] and the caller's box is that worker's box; otherwise
    [found_delta_sat] is [-1], the verdict is [false] and the caller's box
    has been set empty.  And it returns a verdict only when every worker has
    returned. *)
Theorem IcpParallel_CheckSat_verdict (fuel : nat) (sched : Schedule)
    (cs0 : ContractorStatus) :
  (empty (box (contractor cs0)) = true →
     IcpParallel_CheckSat helpers config contractor formula_evaluators
       DREAL_CHECK_INTERRUPT fuel sched cs0
     = Some (Returns false (contractor cs0))) ∧
  (empty (box (contractor cs0)) = false →
   0 < number_of_jobs config →
   ∀ boxes,
     FillUp fuel (box (contractor cs0)) (Z.of_nat (number_of_jobs config)) = Some boxes →
     let sys := run helpers config contractor formula_evaluators DREAL_CHECK_INTERRUPT
                  sched (initial_system config (contractor cs0) boxes) in
     let joined :=
       fold_left (InplaceJoin helpers) (map w_cs (workers sys)) (contractor cs0) in
     Forall (fun w => w_status w = Exited ∨ w_status w = Found) (workers sys) →
     ((0 ≤ found_delta_sat (shared sys))%Z →
        ∃ w, workers sys !! Z.to_nat (found_delta_sat (shared sys)) = Some w ∧
             w_status w = Found ∧
             IcpParallel_CheckSat helpers config contractor formula_evaluators
               DREAL_CHECK_INTERRUPT fuel sched cs0
             = Some (Returns true (with_box joined (box (w_cs w))))) ∧
     ((found_delta_sat (shared sys) < 0)%Z →
        found_delta_sat (shared sys) = (-1)%Z ∧
        IcpParallel_CheckSat helpers config contractor formula_evaluators
          DREAL_CHECK_INTERRUPT fuel sched cs0
        = Some (Returns false (with_box joined (set_empty (box joined)))))) ∧
  (empty (box (contractor cs0)) = false →
   ∀ b cs',
     IcpParallel_CheckSat helpers config contractor formula_evaluators
       DREAL_CHECK_INTERRUPT fuel sched cs0
     = Some (Returns b cs') →
     ∃ boxes,
       FillUp fuel (box (contractor cs0)) (Z.of_nat (number_of_jobs config)) = Some boxes ∧
       Forall (fun w => w_status w = Exited ∨ w_status w = Found)
         (workers (run helpers config contractor formula_evaluators
                     DREAL_CHECK_INTERRUPT sched
                     (initial_system config (contractor cs0) boxes)))).
Proof.
  unfold IcpParallel_CheckSat. split; [|split].
  - by intros ->.
  - intros Hne Hjobs boxes Hfill. rewrite Hne, Hfill.
    pose proof (pool_invariant_run sched _
                  (pool_invariant_initial (contractor cs0) boxes)) as [Hlen Hinv].
    set (sys := run_sched sched (initial_system config (contractor cs0) boxes)) in *.
    intros Hall.
    rewrite (CheckSat_finish_terminated (contractor cs0) sys Hlen Hjobs Hall).
    unfold CheckSat_post.
    set (joined := fold_left (InplaceJoin helpers) (map w_cs (workers sys))
                     (contractor cs0)).
    split.
    + intros Hpos. destruct Hinv as [Hm|(w & _ & Hw & Hs)]; [lia|].
      rewrite (proj2 (Z.leb_le _ _) Hpos).
      exists w. split; [done|]. split; [done|]. do 4 f_equal.
      apply nth_lookup_Some with (d := joined).
      by rewrite list_lookup_fmap, Hw.
    + intros Hneg. destruct Hinv as [Hm|(w & Hpos & _)]; [|lia].
      split; [done|]. by rewrite (proj2 (Z.leb_gt _ _) Hneg).
  - intros -> b cs'.
    destruct (FillUp _ _ _) as [boxes|]; [|done].
    intros Hfin. exists boxes. split; [done|].
    pose proof (pool_invariant_run sched _
                  (pool_invariant_initial (contractor cs0) boxes)) as [Hlen _].
    by apply CheckSat_finish_Returns in Hfin as [Hall _].
Qed.

(** Without the macro no worker ever raises. *)
Lemma no_check_no_raise sched sys :
  DREAL_CHECK_INTERRUPT = false →
  Forall (fun w => w_status w ≠ Raised) (workers sys) →
  Forall (fun w => w_status w ≠ Raised) (workers (run_sched sched sys)).
Proof.
  intros Hoff. revert sys. induction sched as [|ev sched IH]; intros sys Hall; [done|].
  simpl. apply IH. unfold System_step.
  destruct (workers sys !! fst ev) as [w|] eqn:Hw; [|done]. simpl.
  apply Forall_insert; [done|].
  destruct (Worker_step_cases (snd ev) (fst ev) (shared sys) w)
    as [[Hnr ->]|[Hr [[Hin _]|[(_ & _ & Hon & _)|[-> _]]]]]; simpl.
  - by eapply Forall_lookup_1 in Hall.
  - intros Heq. rewrite Heq in Hin. set_solver.
  - congruence.
  - done.
Qed.

(** C5 (as the code has it).  In a build that defines
    [DREAL_CHECK_INTERRUPT], every loop iteration of a worker begins by
    reading the interrupted flag, and a set flag makes the worker leave by an
    exception without touching the shared state; an exception of any worker
    leaves [CheckSat] through the caller, so that no verdict is returned.  In
    a build that does not define the macro the flag is not read at all and
    [CheckSat] never ends in that exception. *)
Theorem Worker_interrupt_handling :
  (DREAL_CHECK_INTERRUPT = true →
     ∀ id sh w,
       w_status w = Running →
       found_delta_sat sh = (-1)%Z → (0 < number_of_boxes sh)%Z →
       Worker_step helpers config contractor formula_evaluators
         DREAL_CHECK_INTERRUPT true id sh w
       = (sh, mkWorker (w_cs w) (need_to_pop w) (w_stack_left_box_first w) Raised)) ∧
  (∀ cs sys,
     length (workers sys) = number_of_jobs config →
     Forall (fun w => w_status w ≠ Running) (workers sys) →
     (∃ w, w ∈ workers sys ∧ w_status w = Raised) →
     CheckSat_finish helpers config cs sys = Some Throws) ∧
  (DREAL_CHECK_INTERRUPT = false →
     ∀ g id sh w,
       Worker_step helpers config contractor formula_evaluators
         DREAL_CHECK_INTERRUPT g id sh w
       = Worker_step helpers config contractor formula_evaluators
           DREAL_CHECK_INTERRUPT false id sh w) ∧
  (DREAL_CHECK_INTERRUPT = false →
     ∀ fuel sched cs0,
       IcpParallel_CheckSat helpers config contractor formula_evaluators
         DREAL_CHECK_INTERRUPT fuel sched cs0
       ≠ Some Throws).
Proof.
  split; [|split; [|split]].
  - intros Hon id sh w Hs Hf Hn. unfold Worker_step.
    rewrite Hs, Hf, Hon. simpl.
    by rewrite (proj2 (Z.ltb_lt _ _) Hn).
  - intros cs sys Hlen Hterm (w & Hin & Hs).
    destruct (finish cs sys) as [[b cs'|]|] eqn:Hfin; [|done|].
    + apply CheckSat_finish_Returns in Hfin as [Hall _]; [|done].
      rewrite Forall_forall in Hall. destruct (Hall w Hin); congruence.
    + exfalso. revert Hfin. unfold CheckSat_finish.
      assert (0 < length (workers sys)) as Hpos.
      { destruct (workers sys); [by apply elem_of_nil in Hin|simpl; lia]. }
      destruct (workers sys !! (number_of_jobs config - 1)) as [main|] eqn:Hmain.
      2:{ apply lookup_ge_None in Hmain. lia. }
      pose proof (Forall_lookup_1 _ _ _ _ Hterm Hmain) as Hm. simpl in Hm.
      assert (barrier (take (number_of_jobs config - 1) (workers sys)) ≠ Blocked)
        as Hb by (apply barrier_not_Blocked; by apply Forall_take).
      destruct (w_status main); try done.
      all: by destruct (barrier _).
  - intros Hoff g id sh w. unfold Worker_step. by rewrite Hoff.
  - intros Hoff fuel sched cs0. unfold IcpParallel_CheckSat.
    destruct (empty _); [done|].
    destruct (FillUp _ _ _) as [boxes|]; [|done].
    pose proof (no_check_no_raise sched (initial_system config (contractor cs0) boxes)
                  Hoff) as Hnr.
    assert (Forall (fun w => w_status w ≠ Raised)
              (workers (initial_system config (contractor cs0) boxes))) as Hinit.
    { simpl. apply Forall_replicate. done. }
    specialize (Hnr Hinit). unfold CheckSat_finish.
    destruct (workers _ !! _) as [main|] eqn:Hmain; [|done].
    pose proof (Forall_lookup_1 _ _ _ _ Hnr Hmain) as Hm. simpl in Hm.
    destruct (w_status main) eqn:Hs; try done.
    all: destruct (barrier _) eqn:Hb; try done.
    all: try (unfold CheckSat_post; by case_match).
    all: exfalso; revert Hb; apply barrier_not_Rethrown; by apply Forall_take.
Qed.

End Parallel_facts.

(** ** Runs of the parallel engine on the test data *)
Section Parallel_runs.
Import QI TestData.

Example FillUp_two_jobs :
  FillUp 2 seq_box 2 = Some [box1 0 1; box1 1 2].
Proof. reflexivity. Qed.

Example IcpParallel_CheckSat_two_jobs :
  IcpParallel_CheckSat spec_helpers (config_of 2 MaxDiam) Id seq_evaluators false
    2 par_schedule seq_cs
  = Some (Returns true par_final).
Proof. reflexivity. Qed.

(** Witness of [IcpParallel_CheckSat_verdict]: the run with two jobs, in
    which worker 0 is the finder. *)
Lemma IcpParallel_CheckSat_verdict_witness :
  IcpParallel_CheckSat spec_helpers (config_of 2 MaxDiam) Id seq_evaluators false
    2 par_schedule seq_cs
  = Some (Returns true par_final).
Proof.
  destruct (proj1 (proj2 (IcpParallel_CheckSat_verdict spec_helpers
                            (config_of 2 MaxDiam) Id seq_evaluators false
                            2 par_schedule seq_cs))
              eq_refl (le_S 1 1 (le_n 1)) [box1 0 1; box1 1 2] eq_refl) as [Hfound _].
  - repeat (constructor; [first [left; reflexivity | right; reflexivity]|]).
    constructor.
  - destruct (Hfound ltac:(done)) as (w & Hw & _ & ->).
    injection Hw as <-. reflexivity.
Defined.

(** C5, counterexample.  In a build without [DREAL_CHECK_INTERRUPT] the
    worker runs three iterations with the interrupted flag set at each of
    them, and [CheckSat] returns the verdict SAT. *)
Lemma interrupt_ignored_without_macro :
  IcpParallel_CheckSat spec_helpers (config_of 1 MaxDiam) Id seq_evaluators false
    1 interrupted_schedule seq_cs
  = Some (Returns true par_final).
Proof. reflexivity. Qed.

(** Witness of [Worker_interrupt_handling]: with the macro, the first
    iteration of the same run raises, and [CheckSat] ends in the exception. *)
Lemma Worker_interrupt_handling_witness :
  Worker_step spec_helpers (config_of 1 MaxDiam) Id seq_evaluators true true 0
    (mkShared [seq_box] (-1)%Z 1%Z) (mkWorker seq_cs true true Running)
  = (mkShared [seq_box] (-1)%Z 1%Z, mkWorker seq_cs true true Raised) ∧
  IcpParallel_CheckSat spec_helpers (config_of 1 MaxDiam) Id seq_evaluators true
    1 interrupted_schedule seq_cs
  = Some Throws.
Proof.
  split; [|reflexivity].
  apply (proj1 (Worker_interrupt_handling spec_helpers (config_of 1 MaxDiam) Id
                  seq_evaluators true) eq_refl 0%nat
           (mkShared [seq_box] (-1)%Z 1%Z) (mkWorker seq_cs true true Running));
    reflexivity.
Defined.

End Parallel_runs.

(** ** The interval evaluator *)
Section Evaluator_facts.
Context `{IL : ibex.Lib} `{SL : symbolic.Lib}.

(** A [Pow] cell is evaluated by [VisitPow] on its two arguments (lines
    97-100). *)
Lemma Visit_EPow (e1 e2 : Expression) (b : Box) :
  Visit (EPow e1 e2) b = VisitPow e1 e2 b.
Proof. reflexivity. Qed.

Lemma VisitPow_evaluated (e1 e2 : Expression) (b : Box) first second :
  Visit e1 b = Ok first → Visit e2 b = Ok second →
  VisitPow e1 e2 b = Ok (VisitPow_apply first second).
Proof. intros H1 H2. unfold VisitPow. by rewrite H1, H2. Qed.

Lemma is_integer_tests (v : double) :
  is_integer v = in_int_range v && has_no_fraction v.
Proof.
  unfold is_integer, in_int_range, has_no_fraction.
  by destruct (ibex.d_le _ v && ibex.d_le v _).
Qed.

(** C7 (as the code has it).  [VisitPow] evaluates base and exponent and
    then looks at the exponent interval.  If it is non-empty and degenerate
    at a point [n] that is an integer in the range of [int], the result is
    [sqr] of the base interval when [n] is 2 and the integer power
    [pow(base, n)] for every other such [n].  If the point is not an
    integer, or is an integer outside the range of [int], the result is the
    real-exponent power [pow(base, point)].  If the exponent interval is not
    a single point, the result is [pow(base, exponent)] on intervals. *)
Theorem VisitPow_integer_specialization (e1 e2 : Expression) (b : Box)
    (first second : Interval) :
  Visit e1 b = Ok first →
  Visit e2 b = Ok second →
  (ibex.is_empty second = false → ibex.is_degenerated second = true →
   has_no_fraction (ibex.lb second) = true → in_int_range (ibex.lb second) = true →
     VisitPow e1 e2 b =
       Ok (if ibex.d_eqb (ibex.lb second) (ibex.d_of_Z 2)
           then ibex.sqr first
           else ibex.pow_int first (ibex.d_to_int (ibex.lb second)))) ∧
  (is_point second = true →
   has_no_fraction (ibex.lb second) = false ∨ in_int_range (ibex.lb second) = false →
     VisitPow e1 e2 b = Ok (ibex.pow_d first (ibex.lb second))) ∧
  (is_point second = false →
     VisitPow e1 e2 b = Ok (ibex.pow first second)) ∧
  ((VisitPow_case second = UseIntervalPow ∨ ∃ p, VisitPow_case second = UsePointPow p) ↔
   (is_point second = false ∨ has_no_fraction (ibex.lb second) = false ∨
    in_int_range (ibex.lb second) = false)).
Proof.
  intros H1 H2. rewrite (VisitPow_evaluated e1 e2 b first second H1 H2).
  unfold VisitPow_apply, VisitPow_case. rewrite is_integer_tests.
  split; [|split; [|split]].
  - intros He Hd Hf Hr. unfold is_point. rewrite He, Hd, Hf, Hr. simpl.
    by destruct (ibex.d_eqb _ _).
  - intros Hp [Hf|Hr]; rewrite Hp.
    + by rewrite Hf, andb_false_r.
    + by rewrite Hr.
  - intros Hp. by rewrite Hp.
  - destruct (is_point second) eqn:Hp; [|split; by left].
    destruct (in_int_range (ibex.lb second)) eqn:Hr; simpl.
    2:{ split; [auto|]. intros _. right. eauto. }
    destruct (has_no_fraction (ibex.lb second)) eqn:Hf.
    + split.
      * destruct (ibex.d_eqb _ _); intros [?|[p ?]]; done.
      * intros [?|[?|?]]; done.
    + split; [auto|]. intros _. right. eauto.
Qed.

End Evaluator_facts.

(** ** The Taylor forms *)
Section Taylor_facts.
Context `{IL : ibex.Lib} `{SL : symbolic.Lib}.
Variable Differentiate : Expression → Var → result Expression.

Lemma first_order_loop_ext (f : Expression) (x x0 b1 b2 : Box) (idxs : list nat)
    (ret : result Interval) :
  (∀ i, i ∈ idxs →
     first_order_term Differentiate f x x0 b1 i
     = first_order_term Differentiate f x x0 b2 i) →
  fold_left (fun ret i => accumulate ret (first_order_term Differentiate f x x0 b1 i)) idxs ret
  = fold_left (fun ret i => accumulate ret (first_order_term Differentiate f x x0 b2 i)) idxs ret.
Proof.
  revert ret. induction idxs as [|i idxs IH]; intros ret Hext; simpl; [done|].
  rewrite (Hext i) by apply list_elem_of_here.
  apply IH. intros j Hj. apply Hext. by apply list_elem_of_further.
Qed.

(** [Taylor2Eval] is the first-order form with the gradient taken at the
    midpoint, followed by the second-order terms.  It coincides with
    [Taylor1Eval] followed by the second-order terms when every first-order
    term is the same over the box and over its midpoint (for instance when
    the partial derivatives are constants). *)
Lemma Taylor2Eval_when_gradient_agrees (f : Expression) (x : Box) :
  (∀ i, i < size x →
     first_order_term Differentiate f x (Mid x) x i
     = first_order_term Differentiate f x (Mid x) (Mid x) i) →
  Taylor2Eval Differentiate f x = Taylor1_plus_second_order Differentiate f x.
Proof.
  intros Hagree. unfold Taylor2Eval, Taylor1_plus_second_order, Taylor1Eval.
  f_equal. unfold first_order_loop. symmetry. apply first_order_loop_ext.
  intros i Hi. apply Hagree. apply elem_of_seq in Hi. lia.
Qed.

End Taylor_facts.

Section Taylor_runs.
Import QI TestData Sym.

Example square_gradient :
  Differentiate square 0 = Ok (EMul (Fin 2) [(EVar 0%nat, EConstant (Fin 1))]).
Proof. reflexivity. Qed.

(** C6, the code at the failing input [f = x0^2], [x0 ∈ [0, 2]].
    [Taylor2Eval] yields [[-2, 4]], whereas [Taylor1Eval], [[-3, 5]], plus
    the second-order terms, [[-1, 1]], is [[-4, 6]]: the first-order term of
    [Taylor2Eval] is [[-2, 2]], the derivative being evaluated at the
    midpoint, and not the [[-4, 4]] of [Taylor1Eval], where it is evaluated
    over the box. *)
Lemma Taylor2Eval_gradient_at_midpoint :
  Taylor2Eval Differentiate square seq_box = Ok (Bnd (-2) 4) ∧
  Taylor1Eval Differentiate square seq_box = Ok (Bnd (-3) 5) ∧
  second_order_term Differentiate square seq_box (Mid seq_box) 0 0 = Ok (Bnd (-1) 1) ∧
  Taylor1_plus_second_order Differentiate square seq_box = Ok (Bnd (-4) 6) ∧
  first_order_term Differentiate square seq_box (Mid seq_box) (Mid seq_box) 0
    = Ok (Bnd (-2) 2) ∧
  first_order_term Differentiate square seq_box (Mid seq_box) seq_box 0
    = Ok (Bnd (-4) 4).
Proof. repeat split; reflexivity. Qed.

(** Witness of [VisitPow_integer_specialization]: exponent 2 on
    [x0 ∈ [0, 2]] is evaluated by [sqr]. *)
Lemma VisitPow_integer_specialization_witness :
  VisitPow (EVar 0%nat) two seq_box = Ok (Bnd 0 4).
Proof.
  apply (proj1 (VisitPow_integer_specialization (EVar 0%nat) two seq_box
                  (Bnd 0 2) (Bnd 2 2) eq_refl eq_refl));
    reflexivity.
Defined.

(** C7, counterexample.  The exponent [2^31] is an integer, but it is not in
    the range of [int]: [VisitPow] takes the real-exponent power, which for
    the base [[0, 1]] gives another interval than the integer power. *)
Lemma VisitPow_integer_beyond_int :
  has_no_fraction (Fin 2147483648) = true ∧
  in_int_range (Fin 2147483648) = false ∧
  VisitPow_case (Bnd 2147483648 2147483648) = UsePointPow (Fin 2147483648) ∧
  VisitPow (EVar 0%nat) (EConstant (Fin 2147483648)) (box1 0 1)
  = Ok (ibex.pow_d (Bnd 0 1) (Fin 2147483648)) ∧
  ibex.pow_d (Bnd 0 1) (Fin 2147483648) = Entire ∧
  ibex.pow_int (Bnd 0 1) 2147483648 = Bnd 0 1.
Proof. repeat split; reflexivity. Qed.

Example VisitPow_cube :
  VisitPow (EVar 0%nat) (EConstant (Fin 3)) (box1 (-1) 2) = Ok (Bnd (-1) 8).
Proof. reflexivity. Qed.

Example VisitPow_fraction :
  VisitPow_case (Bnd (Qmake 1 2) (Qmake 1 2)) = UsePointPow (Fin (Qmake 1 2)).
Proof. reflexivity. Qed.

Example VisitPow_interval_exponent :
  VisitPow_case (Bnd 1 2) = UseIntervalPow ∧ VisitPow_case Empty = UseIntervalPow.
Proof. split; reflexivity. Qed.

End Taylor_runs.

(** ** [ContractorIbexPolytope::Prune] *)
Section Polytope_facts.
Context `{IL : ibex.Lib} `{SL : symbolic.Lib}.
Variable ctc_contract : list Interval → list Interval.
Variable formulas_ : list Formula.

Local Abbreviation differs old_iv iv :=
  (fun i => ibex.eqb (nth i old_iv ibex.EMPTY_SET) (nth i iv ibex.EMPTY_SET) = false).

(** The loop of lines 101-106 adds the differing dimensions and raises
    [changed] when there is one. *)
Lemma Polytope_diff_loop (old_iv iv : list Interval) (l : list nat)
    (changed : bool) (out : BitSet) :
  fold_left (Polytope_diff_step old_iv iv) l (changed, out)
  = (changed ||
       existsb (fun i => negb (ibex.eqb (nth i old_iv ibex.EMPTY_SET)
                                  (nth i iv ibex.EMPTY_SET))) l,
     out ∪ list_to_set (filter (differs old_iv iv) l)).
Proof.
  revert changed out. induction l as [|i l IH]; intros changed out; simpl.
  - rewrite orb_false_r. f_equal. set_solver.
  - rewrite filter_cons. unfold Polytope_diff_step at 2. simpl.
    destruct (ibex.eqb _ _) eqn:Heq; simpl.
    + try rewrite decide_False by congruence. apply IH.
    + try rewrite decide_True by done. rewrite IH. simpl.
      rewrite !orb_true_r. f_equal. set_solver.
Qed.

Lemma no_dimension_differs (old_iv iv : list Interval) (l : list nat) :
  existsb (fun i => negb (ibex.eqb (nth i old_iv ibex.EMPTY_SET)
                             (nth i iv ibex.EMPTY_SET))) l = false ↔
  list_to_set (filter (differs old_iv iv) l) = (∅ : BitSet).
Proof.
  induction l as [|i l IH]; simpl; [done|].
  rewrite filter_cons. destruct (ibex.eqb _ _) eqn:Heq; simpl.
  - try rewrite decide_False by congruence. done.
  - try rewrite decide_True by done. split; [done|]. set_solver.
Qed.

(** On a box that is not empty, the dimensions that differ between the boxes
    are those in which the vectors differ, if the result is not empty, and
    all of them if it is. *)
Lemma dimensions_changed_cases (b : Box) (iv : list Interval) :
  nonempty_box b →
  dimensions_changed (values b) iv
  = if ibex.vec_is_empty iv then set_seq 0 (size b)
    else changed_dimensions (values b) iv.
Proof.
  intros (Hlen & Hpos & Hne & Hcomp).
  unfold dimensions_changed, changed_dimensions, interval_of.
  unfold empty in Hne. rewrite Hne.
  destruct (ibex.vec_is_empty iv); [|done].
  rewrite Hlen. apply set_eq. intros i.
  rewrite elem_of_list_to_set, list_elem_of_filter, elem_of_seq, elem_of_set_seq.
  split; [intros [_ ?]; lia|]. intros Hi. split; [|lia].
  apply Hcomp. lia.
Qed.

(** C8.  On a status whose box is not empty, [ContractorIbexPolytope::Prune]
    replaces the box by the result of the polytope-hull contractor, so that
    the box is empty afterwards exactly when the contractor has found it to
    have no solution.  [output] gains exactly the dimensions whose interval
    has changed: the dimensions in which the result differs from the box
    before, which are all of them when the result is empty.  If no dimension
    has changed, [output] and [used_constraints] are left as they were;
    otherwise the formulas of the contractor, among them every one that
    contributed, are added to [used_constraints]. *)
Theorem ContractorIbexPolytope_Prune_effect (cs0 : ContractorStatus) :
  nonempty_box (box cs0) →
  let iv := ctc_contract (values (box cs0)) in
  let cs := ContractorIbexPolytope_Prune ctc_contract formulas_ cs0 in
  values (box cs) = iv ∧
  variables (box cs) = variables (box cs0) ∧
  branching_point cs = branching_point cs0 ∧
  empty (box cs) = ibex.vec_is_empty iv ∧
  output cs = output cs0 ∪ dimensions_changed (values (box cs0)) iv ∧
  (dimensions_changed (values (box cs0)) iv = ∅ →
     output cs = output cs0 ∧ used_constraints cs = used_constraints cs0) ∧
  (dimensions_changed (values (box cs0)) iv ≠ ∅ →
     used_constraints cs = used_constraints cs0 ∪ list_to_set formulas_) ∧
  (ibex.vec_is_empty iv = true →
     dimensions_changed (values (box cs0)) iv = set_seq 0 (size (box cs0))) ∧
  (ibex.vec_is_empty iv = false →
     dimensions_changed (values (box cs0)) iv = changed_dimensions (values (box cs0)) iv).
Proof.
  intros Hbox. cbv zeta.
  rewrite (dimensions_changed_cases (box cs0) _ Hbox).
  destruct Hbox as (Hlen & Hpos & Hne & Hcomp).
  unfold ContractorIbexPolytope_Prune.
  destruct (ibex.vec_is_empty (ctc_contract (values (box cs0)))) eqn:Hempty; simpl.
  - do 5 (split; [done|]). split; [|done].
    intros Hnil. exfalso.
    assert (0 ∈ (set_seq 0 (size (box cs0)) : BitSet)) as Hin
      by (apply elem_of_set_seq; lia).
    rewrite Hnil in Hin. by apply not_elem_of_empty in Hin.
  - rewrite Polytope_diff_loop. simpl. unfold changed_dimensions.
    pose proof (no_dimension_differs (values (box cs0))
                  (ctc_contract (values (box cs0)))
                  (seq 0 (length (values (box cs0))))) as Hnone.
    destruct (existsb _ _) eqn:Hex; simpl.
    + do 5 (split; [done|]). split; [|done].
      intros Hnil. apply Hnone in Hnil. done.
    + pose proof (proj1 Hnone eq_refl) as Hnil.
      do 4 (split; [done|]). split; [done|]. split; [|split; [by intros Hne'|done]].
      intros _. split; [|done]. rewrite Hnil. set_solver.
Qed.

End Polytope_facts.

Section Polytope_runs.
Import QI TestData.

(** Witness of [ContractorIbexPolytope_Prune_effect]: a contraction of
    [[0, 2] × [0, 2]] to [[0, 1] × [0, 2]] reports dimension 0. *)
Lemma ContractorIbexPolytope_Prune_effect_witness :
  output (ContractorIbexPolytope_Prune (narrow_to narrowed) two_formulas
            (status_of square_box))
  = ∅ ∪ dimensions_changed (values square_box) narrowed.
Proof.
  assert (nonempty_box (box (status_of square_box))) as Hbox.
  { split; [reflexivity|]. split; [exact (le_S 1 1 (le_n 1))|]. split; [reflexivity|].
    intros [|[|i]] Hi; [reflexivity|reflexivity|].
    change (S (S i) < 2) in Hi. lia. }
  destruct (ContractorIbexPolytope_Prune_effect (narrow_to narrowed)
              two_formulas (status_of square_box) Hbox) as (_ & _ & _ & _ & Hout & _).
  exact Hout.
Defined.

Example Prune_reports_dimension_0 :
  elements (output (ContractorIbexPolytope_Prune (narrow_to narrowed) two_formulas
                      (status_of square_box))) = [0%nat] ∧
  used_constraints (ContractorIbexPolytope_Prune (narrow_to narrowed) two_formulas
                      (status_of square_box)) = {[ 5%nat; 6%nat ]}.
Proof. split; reflexivity. Qed.

(** A contraction that finds [[0, 2] × [0, 2]] without solution: every
    dimension has changed, and every dimension is reported. *)
Example Prune_reports_all_on_empty :
  empty (box (ContractorIbexPolytope_Prune (prove_empty) two_formulas
                (status_of square_box))) = true ∧
  dimensions_changed (values square_box) (prove_empty (values square_box)) = {[ 0%nat; 1%nat ]} ∧
  output (ContractorIbexPolytope_Prune (prove_empty) two_formulas
            (status_of square_box)) = {[ 0%nat; 1%nat ]} ∧
  used_constraints (ContractorIbexPolytope_Prune (prove_empty) two_formulas
                      (status_of square_box)) = {[ 5%nat; 6%nat ]}.
Proof. repeat split; reflexivity. Qed.

End Polytope_runs.

(** ** Seeding the parallel engine: [DoubleUp] and [FillUp] *)
Section FillUp_facts.
Context `{IL : ibex.Lib}.

(** The first loop of [DoubleUp] adds at most one box per box it bisects,
    so with [bound = n - boxes.size()] the result has at most [n] boxes. *)
Lemma DoubleUp_loop_length (boxes : list Box) (i : nat) (bound : Z) (ret : list Box) :
  (Z.of_nat (length (DoubleUp_loop boxes i bound ret))
   ≤ Z.of_nat (length ret) + Z.of_nat (length boxes)
     + Z.max 0 (Z.min (bound - Z.of_nat i) (Z.of_nat (length boxes))))%Z.
Proof.
  revert i ret. induction boxes as [|b boxes IH]; intros i ret; simpl.
  - lia.
  - destruct (Z.of_nat i <? bound)%Z eqn:Hlt.
    + apply Z.ltb_lt in Hlt.
      destruct (0 <=? FindMaxDiamIdx b)%Z.
      * specialize (IH (S i) (ret ++ [(bisect b (Z.to_nat (FindMaxDiamIdx b))).1;
                                      (bisect b (Z.to_nat (FindMaxDiamIdx b))).2])).
        rewrite length_app in IH. simpl in IH. lia.
      * specialize (IH (S i) ret). lia.
    + rewrite length_app. simpl. lia.
Qed.

Lemma DoubleUp_length (boxes : list Box) (n : Z) :
  (Z.of_nat (length boxes) ≤ n < 2 ^ 64)%Z →
  (Z.of_nat (length (DoubleUp boxes n)) ≤ n)%Z.
Proof.
  intros Hn. unfold DoubleUp, to_size_t.
  rewrite Z.mod_small by lia.
  pose proof (DoubleUp_loop_length boxes 0 (n - Z.of_nat (length boxes)) []) as Hlen.
  simpl in Hlen. lia.
Qed.

(** [FillUp] never returns more than [n] boxes (for [1 <= n] within the
    range of [unsigned]). *)
Lemma FillUp_loop_length (fuel : nat) (ret : list Box) (n : Z) (boxes : list Box) :
  (1 ≤ n < 2 ^ 32)%Z →
  (Z.of_nat (length ret) ≤ n)%Z →
  FillUp_loop fuel ret n = Some boxes →
  (Z.of_nat (length boxes) ≤ n)%Z.
Proof.
  intros Hn. revert ret. induction fuel as [|fuel IH]; intros ret Hret; simpl; [done|].
  destruct (Z.of_nat (length ret) <? to_unsigned n)%Z; [|by intros [= <-]].
  destruct (length (DoubleUp ret n) =? length ret)%nat; [by intros [= <-]|].
  apply IH. apply DoubleUp_length. lia.
Qed.

End FillUp_facts.

Section FillUp_runs.
Import QI TestData.

(** C9, the code at the failing input: the box [x0 ∈ [1, 1]] is not empty
    but has no bisectable dimension, and there are two jobs.  [DoubleUp]
    pushes nothing for it, so [FillUp] returns the empty list: the box is
    lost.  The parallel engine then starts with no box at all and answers
    UNSAT, whereas the sequential engine finds the box delta-SAT. *)
Lemma FillUp_loses_unbisectable_box :
  empty point_box = false ∧
  FindMaxDiamIdx point_box = (-1)%Z ∧
  DoubleUp [point_box] 2 = [] ∧
  FillUp 3 point_box 2 = Some [] ∧
  (∃ cs', IcpParallel_CheckSat spec_helpers (config_of 2 MaxDiam) Id seq_evaluators
            false 3 exit_schedule point_cs = Some (Returns false cs')) ∧
  (∃ st', CheckSat spec_helpers (config_of 1 MaxDiam) Id seq_evaluators 1 point_cs
          = Some (true, st')).
Proof.
  do 4 (split; [reflexivity|]). split; eexists; reflexivity.
Qed.

(** On a bisectable box and with one job [FillUp] returns the box itself. *)
Example FillUp_one_job : FillUp 1 seq_box 1 = Some [seq_box].
Proof. reflexivity. Qed.

End FillUp_runs.

(** ** The lazily populated [ContractorIbexFwdbwdMt] *)
Section FwdbwdMt_facts.
Context `{IL : ibex.Lib} `{SL : symbolic.Lib}.
Variable ContractorIbexFwdbwd : Type.
Variable make_unique : Formula → Box → Config → ContractorIbexFwdbwd.
Variable ctc_input : ContractorIbexFwdbwd → BitSet.
Variable ctc_is_dummy : ContractorIbexFwdbwd → bool.
Variable ctc_Prune : ContractorIbexFwdbwd → ContractorStatus → ContractorStatus.
Variable debug : bool.

Local Abbreviation Mt := (ContractorIbexFwdbwdMt ContractorIbexFwdbwd).
Local Abbreviation Prune :=
  (ContractorIbexFwdbwdMt_Prune ContractorIbexFwdbwd make_unique ctc_is_dummy
     ctc_Prune debug).
Local Abbreviation history :=
  (Prune_history ContractorIbexFwdbwd make_unique ctc_is_dummy ctc_Prune debug).
Local Abbreviation slots_consistent := (slots_consistent ContractorIbexFwdbwd).

Lemma slots_consistent_new f b config :
  slots_consistent (ContractorIbexFwdbwdMt_new ContractorIbexFwdbwd f b config).
Proof.
  intros i. unfold ready_at. simpl. split.
  - intros (ready & Hl & Hne). apply lookup_replicate in Hl as [-> _]. done.
  - intros (ctc & Hl). apply lookup_replicate in Hl as [? _]. done.
Qed.

Lemma not_ready_new f b config i :
  ¬ ready_at ContractorIbexFwdbwd
      (ContractorIbexFwdbwdMt_new ContractorIbexFwdbwd f b config) i.
Proof.
  intros (ready & Hl & Hne). simpl in Hl.
  apply lookup_replicate in Hl as [-> _]. done.
Qed.

(** A successful [Prune] on thread [tid] creates slot [tid] if it was not
    there and touches no other slot. *)
Lemma Prune_creates_slot tid cs0 (c : Mt) cs' c' :
  Prune tid cs0 c = Value (cs', c') →
  slots_consistent c →
  slots_consistent c' ∧
  ∀ i, ready_at ContractorIbexFwdbwd c' i ↔ ready_at ContractorIbexFwdbwd c i ∨ i = tid.
Proof.
  unfold ContractorIbexFwdbwdMt_Prune.
  destruct (if debug then _ else _) as [[]| |]; try done.
  unfold GetCtcOrCreate.
  destruct (ctc_ready_ _ c !! tid) as [ready|] eqn:Hready; [|done].
  destruct (ctcs_ _ c !! tid) as [slot|] eqn:Hslot; [|done].
  destruct (negb (ready =? 0)%Z) eqn:Hz.
  - destruct slot as [ctc|]; [|by destruct debug].
    intros [= <- <-] Hcons. split; [done|]. intros i. split; [by left|].
    intros [?| ->]; [done|]. exists ready. split; [done|].
    apply negb_true_iff, Z.eqb_neq in Hz. done.
  - intros [= <- <-] Hcons.
    pose proof (lookup_lt_Some _ _ _ Hready) as Hlt1.
    pose proof (lookup_lt_Some _ _ _ Hslot) as Hlt2.
    assert (Hready' : ∀ i,
      ready_at ContractorIbexFwdbwd
        (mkMt _ (f_ _ c) (mt_config_ _ c) (<[tid := 1%Z]> (ctc_ready_ _ c))
           (<[tid := Some (make_unique (f_ _ c) (box cs0) (mt_config_ _ c))]> (ctcs_ _ c))) i
      ↔ ready_at ContractorIbexFwdbwd c i ∨ i = tid).
    { intros i. unfold ready_at. simpl. destruct (decide (i = tid)) as [->|Hne].
      - rewrite list_lookup_insert_eq by done. split; [by right|].
        intros _. by exists 1%Z.
      - rewrite list_lookup_insert_ne by done. split; [by left|].
        intros [?|?]; done. }
    split; [|done]. intros i. rewrite Hready'. simpl.
    destruct (decide (i = tid)) as [->|Hne].
    + rewrite list_lookup_insert_eq by done. split; [eauto|by right].
    + rewrite list_lookup_insert_ne by done. rewrite <- (Hcons i).
      split; [by intros [?|?]|by left].
Qed.

(** After a history of successful [Prune] calls the slots that exist are
    those of the threads that called. *)
Lemma history_slots (h : list (nat * ContractorStatus)) (c0 c : Mt) :
  history h c0 = Value c →
  slots_consistent c0 →
  slots_consistent c ∧
  ∀ i, ready_at ContractorIbexFwdbwd c i
       ↔ ready_at ContractorIbexFwdbwd c0 i ∨ ∃ cs0, (i, cs0) ∈ h.
Proof.
  revert c0. induction h as [|[tid cs0] h IH]; intros c0; simpl.
  - intros [= <-] Hcons. split; [done|]. intros i. split; [by left|].
    intros [?|[cs0 Hin]]; [done|]. by apply elem_of_nil in Hin.
  - destruct (Prune tid cs0 c0) as [[cs1 c1]| |] eqn:Hp; try done.
    intros Hh Hcons.
    destruct (Prune_creates_slot tid cs0 c0 cs1 c1 Hp Hcons) as [Hcons1 Hr1].
    destruct (IH c1 Hh Hcons1) as [Hcons' Hr]. split; [done|].
    intros i. rewrite Hr, Hr1. split.
    + intros [[?| ->]|[cs' Hin]].
      * by left.
      * right. exists cs0. apply list_elem_of_here.
      * right. exists cs'. by apply list_elem_of_further.
    + intros [?|[cs' Hin]]; [by left; left|].
      apply elem_of_cons in Hin as [[= -> ->]|Hin].
      * left. by right.
      * right. eauto.
Qed.

(** The accessors go through slot 0. *)
Lemma slot0_call_ready {A} (g : ContractorIbexFwdbwd → A) (c : Mt) :
  slots_consistent c →
  slot0_ready ContractorIbexFwdbwd c →
  ∃ ctc, ctcs_ _ c !! 0%nat = Some (Some ctc) ∧
         slot0_call ContractorIbexFwdbwd debug g c = Value (g ctc).
Proof.
  intros Hcons Hready. destruct (proj1 (Hcons 0%nat) Hready) as [ctc Hctc].
  exists ctc. split; [done|]. destruct Hready as (ready & Hr & Hne).
  unfold slot0_call. rewrite Hr, Hctc.
  apply Z.eqb_neq in Hne. rewrite Hne. by rewrite andb_false_r.
Qed.

Lemma slot0_call_not_ready {A} (g : ContractorIbexFwdbwd → A) (c : Mt) :
  slots_consistent c →
  0 < length (ctc_ready_ _ c) →
  ¬ slot0_ready ContractorIbexFwdbwd c →
  slot0_call ContractorIbexFwdbwd debug g c
  = if debug then AssertionFailure else Undefined.
Proof.
  intros Hcons Hlen Hnot. unfold slot0_call.
  destruct (ctc_ready_ _ c !! 0%nat) as [ready|] eqn:Hr.
  2:{ apply lookup_ge_None in Hr. lia. }
  assert (ready = 0%Z) as ->.
  { destruct (decide (ready = 0%Z)) as [|Hne]; [done|].
    destruct Hnot. by exists ready. }
  simpl. rewrite andb_true_r. destruct debug; [done|].
  destruct (ctcs_ _ c !! 0%nat) as [[ctc|]|] eqn:Hc; try done.
  destruct Hnot. apply Hcons. eauto.
Qed.

Lemma history_length (h : list (nat * ContractorStatus)) (c0 c : Mt) :
  history h c0 = Value c → length (ctc_ready_ _ c) = length (ctc_ready_ _ c0).
Proof.
  revert c0. induction h as [|[tid cs0] h IH]; intros c0; simpl.
  - by intros [= <-].
  - destruct (Prune tid cs0 c0) as [[cs1 c1]| |] eqn:Hp; try done.
    intros Hh. rewrite (IH c1 Hh). clear IH Hh. revert Hp.
    unfold ContractorIbexFwdbwdMt_Prune.
    destruct (if debug then _ else _) as [[]| |]; try done.
    unfold GetCtcOrCreate.
    destruct (ctc_ready_ _ c0 !! tid) as [ready|]; [|done].
    destruct (ctcs_ _ c0 !! tid) as [slot|]; [|done].
    destruct (negb (ready =? 0)%Z).
    + destruct slot; [by intros [= <- <-]|by destruct debug].
    + intros [= <- <-]. simpl. by rewrite length_insert.
Qed.

(** C10.  On a [ContractorIbexFwdbwdMt] that has gone through any history of
    [Prune] calls since its construction, slot 0 exists exactly when one of
    those calls was made on the thread with id 0.  When it exists,
    [input()], [mutable_input()] and [is_dummy()] return what the contractor
    in slot 0 returns.  When it does not, each of the three violates
    [DREAL_ASSERT(ctc_ready_[0])] in a debug build (and dereferences a null
    pointer otherwise): slot 0 is a precondition of the accessors. *)
Theorem accessors_require_slot0 (f : Formula) (b : Box) (config : Config)
    (h : list (nat * ContractorStatus)) (c : Mt) :
  0 < number_of_jobs config →
  history h (ContractorIbexFwdbwdMt_new ContractorIbexFwdbwd f b config) = Value c →
  (slot0_ready ContractorIbexFwdbwd c ↔ ∃ cs0, (0%nat, cs0) ∈ h) ∧
  (slot0_ready ContractorIbexFwdbwd c →
     ∃ ctc, ctcs_ _ c !! 0%nat = Some (Some ctc) ∧
       input ContractorIbexFwdbwd ctc_input debug c = Value (ctc_input ctc) ∧
       mutable_input ContractorIbexFwdbwd ctc_input debug c = Value (ctc_input ctc) ∧
       is_dummy ContractorIbexFwdbwd ctc_is_dummy debug c = Value (ctc_is_dummy ctc)) ∧
  (¬ slot0_ready ContractorIbexFwdbwd c →
     input ContractorIbexFwdbwd ctc_input debug c
       = (if debug then AssertionFailure else Undefined) ∧
     mutable_input ContractorIbexFwdbwd ctc_input debug c
       = (if debug then AssertionFailure else Undefined) ∧
     is_dummy ContractorIbexFwdbwd ctc_is_dummy debug c
       = (if debug then AssertionFailure else Undefined)).
Proof.
  intros Hjobs Hh.
  destruct (history_slots h _ c Hh (slots_consistent_new f b config)) as [Hcons Hr].
  pose proof (history_length h _ c Hh) as Hlen. simpl in Hlen.
  rewrite length_replicate in Hlen.
  split; [|split].
  - unfold slot0_ready. rewrite Hr. split; [|by right].
    intros [Hn|?]; [|done]. by apply not_ready_new in Hn.
  - intros Hready.
    destruct (slot0_call_ready ctc_input c Hcons Hready) as (ctc & Hctc & Hin).
    destruct (slot0_call_ready ctc_is_dummy c Hcons Hready) as (ctc' & Hctc' & Hd).
    assert (ctc' = ctc) as -> by congruence.
    exists ctc. done.
  - intros Hnot. unfold input, mutable_input, is_dummy.
    rewrite !slot0_call_not_ready; try done; lia.
Qed.

(** In a debug build the very first [Prune] already fails: it asserts
    [!is_dummy()], and [is_dummy()] asserts that slot 0 exists. *)
Lemma first_Prune_asserts (f : Formula) (b : Box) (config : Config)
    (tid : nat) (cs0 : ContractorStatus) :
  debug = true →
  0 < number_of_jobs config →
  Prune tid cs0 (ContractorIbexFwdbwdMt_new ContractorIbexFwdbwd f b config)
  = AssertionFailure.
Proof.
  intros -> Hjobs. unfold ContractorIbexFwdbwdMt_Prune, is_dummy, slot0_call. simpl.
  destruct (number_of_jobs config); [lia|]. done.
Qed.

End FwdbwdMt_facts.

Section FwdbwdMt_runs.
Import QI TestData.

Example Prune_on_thread1_only :
  Prune_history Fwdbwd make_fwdbwd snd fwdbwd_Prune false [(1%nat, seq_cs)]
    (ContractorIbexFwdbwdMt_new Fwdbwd the_formula seq_box (config_of 2 MaxDiam))
  = Value mt_after_thread1.
Proof. reflexivity. Qed.

(** After a [Prune] on thread 1 only, the accessors are not defined: a
    debug build fails the assertion, a release build has undefined
    behaviour. *)
Example input_before_slot0 :
  input Fwdbwd fst true mt_after_thread1 = AssertionFailure ∧
  input Fwdbwd fst false mt_after_thread1 = Undefined.
Proof. split; reflexivity. Qed.

Example input_after_slot0 :
  input Fwdbwd fst true mt_after_both = Value {[ 0%nat ]} ∧
  is_dummy Fwdbwd snd true mt_after_both = Value false.
Proof. split; reflexivity. Qed.

(** Witness of [accessors_require_slot0]: in a release build, after [Prune]
    on thread 1 and then on thread 0, slot 0 exists. *)
Lemma accessors_require_slot0_witness :
  slot0_ready Fwdbwd mt_after_both ↔ ∃ cs0, (0%nat, cs0) ∈ mt_history.
Proof.
  apply (accessors_require_slot0 Fwdbwd make_fwdbwd fst snd fwdbwd_Prune false
           the_formula seq_box (config_of 2 MaxDiam) mt_history mt_after_both).
  - repeat constructor.
  - reflexivity.
Defined.

End FwdbwdMt_runs.

(** ** The MaxDiam helper of the specification *)
Section SpecHelpers_facts.
Context `{IL : ibex.Lib} `{SL : symbolic.Lib}.

Lemma FindMaxDiam_spec_loop (b : Box) (bitset : BitSet) (l : list nat)
    (acc : double * Z) :
  let r := fold_left
             (fun acc i => if bool_decide (i ∈ bitset)
                           then FindMaxDiamIdx_step b acc i else acc) l acc in
  ((0 ≤ snd acc)%Z → (0 ≤ snd r)%Z) ∧
  (acc = (ibex.d_of_Z 0, (-1)%Z) →
     (snd r = (-1)%Z ↔ ∀ i, i ∈ l → i ∈ bitset → can_bisect b i = false) ∧
     (snd r = (-1)%Z ∨ (0 ≤ snd r)%Z)).
Proof.
  revert acc. induction l as [|i l IH]; intros acc; simpl.
  - split; [done|]. intros ->. simpl. split; [|by left].
    split; [|done]. intros _ i Hi. by apply elem_of_nil in Hi.
  - destruct (IH (if bool_decide (i ∈ bitset)
                  then FindMaxDiamIdx_step b acc i else acc)) as [Hpos Hinit].
    split.
    + intros Hacc. apply Hpos. destruct (bool_decide _); [|done].
      unfold FindMaxDiamIdx_step. destruct (_ && _); simpl; lia.
    + intros ->. destruct (bool_decide (i ∈ bitset)) eqn:Hin.
      * apply bool_decide_eq_true in Hin.
        unfold FindMaxDiamIdx_step in *. simpl in *.
        fold (can_bisect b i) in *.
        destruct (can_bisect b i) eqn:Hcan.
        -- simpl in Hpos. specialize (Hpos ltac:(lia)). split; [|by right].
           split; [lia|]. intros Hall.
           specialize (Hall i (list_elem_of_here _ _) Hin). congruence.
        -- destruct (Hinit eq_refl) as [Hiff Hcases]. split; [|done].
           rewrite Hiff. split.
           ++ intros Hall j Hj Hjin. apply elem_of_cons in Hj as [->|Hj]; auto.
           ++ intros Hall j Hj. apply Hall. by apply list_elem_of_further.
      * apply bool_decide_eq_false in Hin.
        destruct (Hinit eq_refl) as [Hiff Hcases]. split; [|done].
        rewrite Hiff. split.
        -- intros Hall j Hj Hjin. apply elem_of_cons in Hj as [->|Hj]; auto. done.
        -- intros Hall j Hj. apply Hall. by apply list_elem_of_further.
Qed.

(** [BranchMaxDiam_spec] reports failure exactly when no candidate dimension
    of the box can be bisected, and then leaves the stack alone; otherwise it
    pushes two boxes. *)
Lemma BranchMaxDiam_spec_fails_iff (b : Box) (bitset : BitSet) (left_first : bool)
    (stack : Stack) :
  (fst (BranchMaxDiam_spec b bitset left_first stack) = true ↔
   ∀ i, i < size b → i ∈ bitset → can_bisect b i = false) ∧
  (fst (BranchMaxDiam_spec b bitset left_first stack) = true →
   snd (BranchMaxDiam_spec b bitset left_first stack) = stack) ∧
  (fst (BranchMaxDiam_spec b bitset left_first stack) = false →
   length (snd (BranchMaxDiam_spec b bitset left_first stack)) = S (S (length stack))).
Proof.
  unfold BranchMaxDiam_spec, FindMaxDiam_spec.
  destruct (FindMaxDiam_spec_loop b bitset (seq 0 (size b)) (ibex.d_of_Z 0, (-1)%Z))
    as [_ Hinit].
  destruct (Hinit eq_refl) as [Hiff Hcases]. clear Hinit.
  simpl in *.
  assert (Hseq : (∀ i, i ∈ seq 0 (size b) → i ∈ bitset → can_bisect b i = false) ↔
                 (∀ i, i < size b → i ∈ bitset → can_bisect b i = false)).
  { split; intros Hall i Hi; apply Hall.
    - apply elem_of_seq. lia.
    - apply elem_of_seq in Hi. lia. }
  rewrite <- Hseq, <- Hiff.
  destruct (0 <=? _)%Z eqn:Hle; simpl.
  - apply Z.leb_le in Hle. split; [|split]; [split; [done|lia]|done|].
    intros _. by destruct left_first.
  - apply Z.leb_gt in Hle. split; [|split]; [split; [lia|done]|done|done].
Qed.

End SpecHelpers_facts.

(** ** More on the sequential [Icp::CheckSat] *)
Section CheckSat_more.
Context `{IL : ibex.Lib} `{SL : symbolic.Lib}.
Variable helpers : Helpers.
Variable config_ : Config.
Variable contractor : Contractor.
Variable formula_evaluators : list FormulaEvaluator.

(** One iteration that does not return: the flag is flipped exactly when the
    strategy is MaxDiam and the iteration reaches the branching step. *)
Lemma CheckSat_body_flag_step top rest st st' :
  stack st = top :: rest →
  CheckSat_body helpers config_ contractor formula_evaluators top rest st = Continue st' →
  stack_left_box_first_ st' =
    match branching_strategy config_ with
    | MaxDiam =>
        xorb (stack_left_box_first_ st)
          (reaches_branching config_ contractor formula_evaluators st)
    | GradientDescent => stack_left_box_first_ st
    end.
Proof.
  intros Hst. unfold reaches_branching, pruned. rewrite Hst.
  unfold CheckSat_body, CheckSat_branch.
  destruct (empty _) eqn:Hempty; simpl.
  { intros [= <-]. simpl. destruct (branching_strategy config_); [|done].
    by rewrite xorb_false_r. }
  destruct (fst (EvaluateBox _ _ _ _)) as [bc|] eqn:Hev.
  2:{ intros [= <-]. simpl. destruct (branching_strategy config_); [|done].
      by rewrite xorb_false_r. }
  destruct (decide (bc = ∅)) as [->|Hne]; [done|].
  rewrite bool_decide_eq_false_2 by done. simpl.
  destruct (branching_strategy config_).
  - destruct (fst (BranchMaxDiam _ _ _ _ _)); [done|].
    intros [= <-]. simpl. by rewrite xorb_true_r.
  - destruct (fst (fst (BranchGradientDescent _ _ _ _ _ _))); [done|].
    by intros [= <-].
Qed.

(** Over any number of iterations of [Icp::CheckSat], the member
    [stack_left_box_first_] keeps its value under the GradientDescent
    strategy; under MaxDiam it has been flipped once for every iteration that
    reached the branching step, so it differs from its initial value exactly
    when that number is odd. *)
Theorem CheckSat_flag_parity (k : nat) (st st' : IcpState) :
  state_after helpers config_ contractor formula_evaluators k st = Some st' →
  stack_left_box_first_ st' =
    match branching_strategy config_ with
    | MaxDiam =>
        xorb (stack_left_box_first_ st)
          (Nat.odd (branchings helpers config_ contractor formula_evaluators k st))
    | GradientDescent => stack_left_box_first_ st
    end.
Proof.
  revert st. induction k as [|k IH]; intros st; simpl.
  - intros [= <-]. destruct (branching_strategy config_); [|done].
    by rewrite xorb_false_r.
  - destruct (stack st) as [|top rest] eqn:Hst; [done|].
    destruct (CheckSat_body _ _ _ _ top rest st) as [st1|b st1] eqn:Hbody; [|done].
    intros Hafter. rewrite (IH st1 Hafter).
    rewrite (CheckSat_body_flag_step top rest st st1 Hst Hbody).
    destruct (branching_strategy config_); [|done].
    destruct (reaches_branching _ _ _ st); simpl.
    + rewrite Nat.odd_succ, <- Nat.negb_odd.
      by destruct (stack_left_box_first_ st), (Nat.odd _).
    + by rewrite xorb_false_r.
Qed.

(** If every evaluator reports [VALID], [EvaluateBox] returns the empty
    candidate set and leaves the status alone. *)
Lemma EvaluateBox_all_valid prec (fes : list FormulaEvaluator) b cs0 :
  Forall (fun fe => type (fe_call fe b) = VALID) fes →
  EvaluateBox prec fes b cs0 = (Some ∅, cs0).
Proof.
  unfold EvaluateBox. generalize (∅ : BitSet). intros S Hvalid. revert S.
  induction Hvalid as [|fe fes Hfe _ IH]; intros S; simpl; [done|].
  rewrite Hfe. apply IH.
Qed.

(** When every evaluator reports [VALID] on the box that the first pruning
    leaves (in particular when there is no evaluator at all), [Icp::CheckSat]
    prunes once and never branches: it answers [true] if that box is not
    empty and [false] if it is, and the status is the pruned one. *)
Theorem CheckSat_all_valid (cs0 : ContractorStatus) (fuel : nat) :
  2 ≤ fuel →
  Forall (fun fe =>
            type (fe_call fe
                    (box (contractor
                            (with_branching_point (with_box cs0 (box cs0)) (-1)%Z))))
            = VALID) formula_evaluators →
  CheckSat helpers config_ contractor formula_evaluators fuel cs0
  = Some (negb (empty (box (contractor
                              (with_branching_point (with_box cs0 (box cs0)) (-1)%Z)))),
          mkIcp []
            (contractor (with_branching_point (with_box cs0 (box cs0)) (-1)%Z))
            (stack_left_box_first config_)).
Proof.
  intros Hfuel Hvalid.
  destruct fuel as [|[|fuel]]; [lia|lia|].
  unfold CheckSat, CheckSat_init. cbn [CheckSat_loop stack].
  unfold CheckSat_body. cbn [cs stack_left_box_first_ fst snd].
  destruct (empty _) eqn:Hempty; [done|].
  rewrite (EvaluateBox_all_valid _ _ _ _ Hvalid). cbn [fst snd].
  unfold CheckSat_branch. by rewrite decide_True.
Qed.

(** What the loop returns with the verdict [true]: the state in which the
    body of some iteration returned. *)
Lemma CheckSat_loop_true fuel st st' :
  CheckSat_loop helpers config_ contractor formula_evaluators fuel st = Some (true, st') →
  ∃ k st_k top rest,
    state_after helpers config_ contractor formula_evaluators k st = Some st_k ∧
    stack st_k = top :: rest ∧
    CheckSat_body helpers config_ contractor formula_evaluators top rest st_k
    = Return true st'.
Proof.
  revert st. induction fuel as [|fuel IH]; intros st; simpl; [done|].
  destruct (stack st) as [|top rest] eqn:Hst; [done|].
  destruct (CheckSat_body _ _ _ _ top rest st) as [st1|b1 st1] eqn:Hbody.
  - intros Hloop. destruct (IH _ Hloop) as (k & st_k & top' & rest' & Hk & Hs & Hb).
    exists (S k), st_k, top', rest'. split; [|done]. simpl. by rewrite Hst, Hbody.
  - intros [= -> ->]. exists 0, st, top, rest. done.
Qed.

(** Under the MaxDiam strategy a verdict [true] of [Icp::CheckSat] comes with
    the delta-box in the status: the status is the one that the contractor
    left for the box popped in the last iteration, the one whose body
    returned [true], untouched by evaluation and branching, and its box is
    not empty. *)
Theorem CheckSat_true_box (fuel : nat) (cs0 : ContractorStatus) (st' : IcpState) :
  branching_strategy config_ = MaxDiam →
  CheckSat helpers config_ contractor formula_evaluators fuel cs0 = Some (true, st') →
  empty (box (cs st')) = false ∧
  ∃ k st top rest,
    state_after helpers config_ contractor formula_evaluators k
      (CheckSat_init config_ cs0) = Some st ∧
    stack st = top :: rest ∧
    CheckSat_body helpers config_ contractor formula_evaluators top rest st
    = Return true st' ∧
    cs st' = pruned contractor st top.
Proof.
  intros Hstrat Hsat. unfold CheckSat in Hsat.
  apply CheckSat_loop_true in Hsat as (k & st & top & rest & Hk & Hst & Hbody).
  assert (cs st' = pruned contractor st top ∧ empty (box (cs st')) = false) as [Hcs He].
  { revert Hbody. unfold CheckSat_body, CheckSat_branch, pruned.
    destruct (empty _) eqn:Hempty; [done|].
    destruct (fst (EvaluateBox _ _ _ _)) as [bc|] eqn:Hev; [|done].
    cbv zeta. rewrite (EvaluateBox_Some_status _ _ _ _ _ Hev). rewrite Hstrat.
    destruct (decide (bc = ∅)).
    - by intros [= <-].
    - destruct (fst (BranchMaxDiam _ _ _ _ _)); [|done]. by intros [= <-]. }
  split; [done|]. exists k, st, top, rest. done.
Qed.

End CheckSat_more.

Section CheckSat_more_runs.
Import QI TestData.

(** Witness of [CheckSat_flag_parity]: after the two branching steps of the
    MaxDiam run the flag is back at its configured value. *)
Lemma CheckSat_flag_parity_witness :
  stack_left_box_first_ seq_state2
  = xorb (stack_left_box_first_ (CheckSat_init (config_of 1 MaxDiam) seq_cs))
      (Nat.odd (branchings spec_helpers (config_of 1 MaxDiam) Id seq_evaluators 2
                  (CheckSat_init (config_of 1 MaxDiam) seq_cs))).
Proof.
  apply (CheckSat_flag_parity spec_helpers (config_of 1 MaxDiam) Id seq_evaluators 2
           (CheckSat_init (config_of 1 MaxDiam) seq_cs) seq_state2).
  reflexivity.
Defined.

(** Witness of [CheckSat_all_valid]: one evaluator that always reports
    [VALID]. *)
Lemma CheckSat_all_valid_witness :
  CheckSat spec_helpers (config_of 1 MaxDiam) Id [always_valid 1] 2 seq_cs
  = Some (true, mkIcp [] seq_cs true).
Proof.
  apply (CheckSat_all_valid spec_helpers (config_of 1 MaxDiam) Id [always_valid 1]
           seq_cs 2).
  - constructor.
  - repeat constructor.
Defined.

(** Witness of [CheckSat_true_box]: the delta-SAT run of the test data, which
    returns in its third iteration. *)
Lemma CheckSat_true_box_witness :
  empty (box (cs seq_final)) = false ∧
  ∃ k st top rest,
    state_after spec_helpers (config_of 1 MaxDiam) Id seq_evaluators k
      (CheckSat_init (config_of 1 MaxDiam) seq_cs) = Some st ∧
    stack st = top :: rest ∧
    CheckSat_body spec_helpers (config_of 1 MaxDiam) Id seq_evaluators top rest st
    = Return true seq_final ∧
    cs seq_final = pruned Id st top.
Proof.
  apply (CheckSat_true_box spec_helpers (config_of 1 MaxDiam) Id seq_evaluators 3
           seq_cs seq_final); reflexivity.
Defined.

End CheckSat_more_runs.

(** ** [FindMaxDiamIdx], [DoubleUp] and [FillUp] in general *)
Section Seeding_facts.
Context `{IL : ibex.Lib}.

(** The loop of [FindMaxDiamIdx] over the dimensions [s .. s+n-1]: either
    no dimension beats the incoming maximum and the state is unchanged, or
    the state is the last dimension [i] that did, and no later one beats
    [i]. *)
Lemma FindMaxDiamIdx_loop (b : Box) (n s : nat) (acc : double * Z) :
  let beats (max_diam : double) (j : nat) :=
    ibex.d_gt (ibex.diam (at_idx b j)) max_diam && ibex.is_bisectable (at_idx b j) in
  let r := fold_left (FindMaxDiamIdx_step b) (seq s n) acc in
  (r = acc ∧ ∀ j, s ≤ j < s + n → beats (fst acc) j = false) ∨
  (∃ i i0, s ≤ i < s + n ∧ s ≤ i0 < s + n ∧
     r = (ibex.diam (at_idx b i), Z.of_nat i) ∧
     ibex.is_bisectable (at_idx b i) = true ∧
     beats (fst acc) i0 = true ∧
     ∀ j, i < j < s + n → beats (ibex.diam (at_idx b i)) j = false).
Proof.
  cbv zeta. revert s acc. induction n as [|n IH]; intros s acc; simpl.
  - left. split; [done|]. intros j Hj. lia.
  - unfold FindMaxDiamIdx_step at 2 4.
    destruct (ibex.d_gt (ibex.diam (at_idx b s)) acc.1 &&
              ibex.is_bisectable (at_idx b s)) eqn:Hbeats.
    + right. apply andb_true_iff in Hbeats as Hboth. destruct Hboth as [_ Hbis].
      destruct (IH (S s) (ibex.diam (at_idx b s), Z.of_nat s))
        as [[-> Hnone]|(i & i0 & Hi & Hi0 & -> & Hb & _ & Hlater)].
      * exists s, s. repeat split; try done; try lia.
        intros j Hj. apply Hnone. lia.
      * exists i, s. repeat split; try done; try lia.
        intros j Hj. apply Hlater. lia.
    + destruct (IH (S s) acc) as [[-> Hnone]|(i & i0 & Hi & Hi0 & -> & Hb & Hfirst & Hlater)].
      * left. split; [done|]. intros j Hj.
        destruct (decide (j = s)) as [->|Hne]; [done|]. apply Hnone. lia.
      * right. exists i, i0. repeat split; try done; try lia.
        intros j Hj. apply Hlater. lia.
Qed.

(** [FindMaxDiamIdx] returns [-1] exactly when no dimension of the box is
    bisectable with a diameter above zero.  Otherwise it returns the index
    of a bisectable dimension of the box which no later dimension beats: no
    later bisectable dimension has a strictly greater diameter. *)
Theorem FindMaxDiamIdx_result (b : Box) :
  (FindMaxDiamIdx b = (-1)%Z ↔ ∀ i, i < size b → can_bisect b i = false) ∧
  (FindMaxDiamIdx b ≠ (-1)%Z →
     ∃ i, FindMaxDiamIdx b = Z.of_nat i ∧ i < size b ∧
          ibex.is_bisectable (at_idx b i) = true ∧
          ∀ j, i < j < size b →
            ibex.d_gt (ibex.diam (at_idx b j)) (ibex.diam (at_idx b i))
            && ibex.is_bisectable (at_idx b j) = false).
Proof.
  unfold FindMaxDiamIdx, can_bisect.
  destruct (FindMaxDiamIdx_loop b (size b) 0 (ibex.d_of_Z 0, (-1)%Z))
    as [[-> Hnone]|(i & i0 & Hi & Hi0 & -> & Hb & Hfirst & Hlater)]; simpl in *.
  - split; [|done]. split; [|done]. intros _ i Hi. apply Hnone. lia.
  - split.
    + split; [lia|]. intros Hall. rewrite Hall in Hfirst by lia. done.
    + intros _. exists i. repeat split; try done; try lia.
Qed.

(** The two loops of [DoubleUp] in closed form: the boxes before the bound
    are replaced by what is pushed for them, the others are kept. *)
Lemma DoubleUp_loop_closed (boxes : list Box) (i : nat) (bound : Z) (ret : list Box) :
  DoubleUp_loop boxes i bound ret
  = ret ++ flat_map DoubleUp_pushes (take (Z.to_nat (bound - Z.of_nat i)) boxes)
        ++ drop (Z.to_nat (bound - Z.of_nat i)) boxes.
Proof.
  revert i ret. induction boxes as [|b boxes IH]; intros i ret; simpl.
  - rewrite take_nil, drop_nil. simpl. by rewrite app_nil_r.
  - destruct (Z.of_nat i <? bound)%Z eqn:Hlt.
    + apply Z.ltb_lt in Hlt.
      replace (Z.to_nat (bound - Z.of_nat i))
        with (S (Z.to_nat (bound - Z.of_nat (S i)))) by lia.
      simpl. unfold DoubleUp_pushes at 1.
      destruct (0 <=? FindMaxDiamIdx b)%Z; rewrite IH; simpl.
      * by rewrite <- !app_assoc.
      * done.
    + apply Z.ltb_ge in Hlt.
      replace (Z.to_nat (bound - Z.of_nat i)) with 0 by lia. done.
Qed.

Lemma DoubleUp_pushes_length (b : Box) :
  length (DoubleUp_pushes b) = if (0 <=? FindMaxDiamIdx b)%Z then 2 else 0.
Proof. unfold DoubleUp_pushes. by destruct (0 <=? _)%Z. Qed.

Lemma flat_map_pushes_length (l : list Box) :
  length (flat_map DoubleUp_pushes l) ≤ 2 * length l ∧
  (Forall (fun b => (0 ≤ FindMaxDiamIdx b)%Z) l →
   length (flat_map DoubleUp_pushes l) = 2 * length l).
Proof.
  induction l as [|b l [IH1 IH2]]; simpl; [done|].
  rewrite length_app, DoubleUp_pushes_length. split.
  - destruct (0 <=? _)%Z; lia.
  - intros Hall. apply Forall_cons in Hall as [Hb Hl].
    rewrite (proj2 (Z.leb_le _ _) Hb), (IH2 Hl). lia.
Qed.

Lemma DoubleUp_closed (boxes : list Box) (n : Z) :
  (Z.of_nat (length boxes) ≤ n < 2 ^ 64)%Z →
  DoubleUp boxes n
  = flat_map DoubleUp_pushes (take (Z.to_nat (n - Z.of_nat (length boxes))) boxes)
    ++ drop (Z.to_nat (n - Z.of_nat (length boxes))) boxes.
Proof.
  intros Hn. unfold DoubleUp, to_size_t.
  rewrite Z.mod_small by lia. rewrite DoubleUp_loop_closed. simpl.
  by rewrite Z.sub_0_r.
Qed.

Lemma DoubleUp_bisected_length (boxes : list Box) (n : Z) :
  (Z.of_nat (length boxes) ≤ n < 2 ^ 64)%Z →
  Forall (fun b => (0 ≤ FindMaxDiamIdx b)%Z)
    (take (Z.to_nat (n - Z.of_nat (length boxes))) boxes) →
  length (DoubleUp boxes n)
  = length boxes + Nat.min (Z.to_nat (n - Z.of_nat (length boxes))) (length boxes).
Proof.
  intros Hn Hall. rewrite (DoubleUp_closed boxes n Hn).
  pose proof (flat_map_pushes_length
                (take (Z.to_nat (n - Z.of_nat (length boxes))) boxes)) as [_ Heq].
  rewrite length_take in Heq.
  rewrite length_app, length_drop, (Heq Hall). lia.
Qed.

(** For a vector of at most [n] boxes, [DoubleUp(boxes, n)] visits the first
    [k = min(n - size, size)] boxes: each of them is replaced by its two
    halves if [FindMaxDiamIdx] finds a dimension and is dropped otherwise,
    and the remaining boxes follow unchanged.  The result therefore never
    has more than [n] boxes, is the input itself when the input has [n]
    boxes already, and has exactly [size + k] boxes when each of the first
    [k] can be bisected. *)
Theorem DoubleUp_shape (boxes : list Box) (n : Z) :
  (Z.of_nat (length boxes) ≤ n < 2 ^ 64)%Z →
  DoubleUp boxes n
  = flat_map DoubleUp_pushes (take (Z.to_nat (n - Z.of_nat (length boxes))) boxes)
    ++ drop (Z.to_nat (n - Z.of_nat (length boxes))) boxes ∧
  (Z.of_nat (length (DoubleUp boxes n)) ≤ n)%Z ∧
  (n = Z.of_nat (length boxes) → DoubleUp boxes n = boxes) ∧
  (Forall (fun b => (0 ≤ FindMaxDiamIdx b)%Z)
     (take (Z.to_nat (n - Z.of_nat (length boxes))) boxes) →
   length (DoubleUp boxes n)
   = length boxes + Nat.min (Z.to_nat (n - Z.of_nat (length boxes))) (length boxes)).
Proof.
  intros Hn. pose proof (DoubleUp_closed boxes n Hn) as Hclosed.
  split; [done|]. split; [by apply DoubleUp_length|]. split.
  - intros ->. rewrite Hclosed. replace (Z.to_nat _) with 0 by lia. done.
  - by apply DoubleUp_bisected_length.
Qed.

(** Being bisectable to a depth is inherited by smaller depths. *)
Lemma bisectable_to_depth_S (d : nat) (b : Box) :
  bisectable_to_depth (S d) b = true → bisectable_to_depth d b = true.
Proof.
  revert b. induction d as [|d IH]; intros b; [done|].
  intros H. change (bisectable_to_depth (S (S d)) b)
    with ((0 <=? FindMaxDiamIdx b)%Z &&
          bisectable_to_depth (S d) (fst (bisect b (Z.to_nat (FindMaxDiamIdx b)))) &&
          bisectable_to_depth (S d) (snd (bisect b (Z.to_nat (FindMaxDiamIdx b))))) in H.
  apply andb_true_iff in H as [H H2]. apply andb_true_iff in H as [H0 H1].
  change (bisectable_to_depth (S d) b)
    with ((0 <=? FindMaxDiamIdx b)%Z &&
          bisectable_to_depth d (fst (bisect b (Z.to_nat (FindMaxDiamIdx b)))) &&
          bisectable_to_depth d (snd (bisect b (Z.to_nat (FindMaxDiamIdx b))))).
  by rewrite H0, (IH _ H1), (IH _ H2).
Qed.

Lemma flat_map_pushes_depth (d : nat) (l : list Box) :
  Forall (fun b => bisectable_to_depth (S d) b = true) l →
  Forall (fun b => bisectable_to_depth d b = true) (flat_map DoubleUp_pushes l) ∧
  Forall (fun b => (0 ≤ FindMaxDiamIdx b)%Z) l.
Proof.
  induction 1 as [|b l Hb _ [IH1 IH2]]; simpl; [done|].
  simpl in Hb. apply andb_true_iff in Hb as [Hb H2].
  apply andb_true_iff in Hb as [H0 H1].
  split; [|constructor; [by apply Z.leb_le|done]].
  apply Forall_app. split; [|done].
  unfold DoubleUp_pushes. rewrite H0. by repeat constructor.
Qed.

Lemma FillUp_loop_S (fuel : nat) (ret : list Box) (n : Z) :
  FillUp_loop (S fuel) ret n
  = if (Z.of_nat (length ret) <? to_unsigned n)%Z then
      if (length (DoubleUp ret n) =? length ret)%nat then Some ret
      else FillUp_loop fuel (DoubleUp ret n) n
    else Some ret.
Proof. reflexivity. Qed.

Lemma FillUp_loop_fills (d : nat) (ret : list Box) (n : Z) :
  (1 ≤ n < 2 ^ 32)%Z →
  (1 ≤ Z.of_nat (length ret) ≤ n)%Z →
  (n ≤ Z.of_nat (length ret) * 2 ^ Z.of_nat d)%Z →
  Forall (fun b => bisectable_to_depth d b = true) ret →
  ∃ boxes, FillUp_loop (S d) ret n = Some boxes ∧ Z.of_nat (length boxes) = n.
Proof.
  intros Hn. revert ret. induction d as [|d IH]; intros ret Hlen Hpow Hall.
  - simpl in *. unfold to_unsigned. rewrite Z.mod_small by lia.
    rewrite (proj2 (Z.ltb_ge _ _)) by lia. exists ret. split; [done|]. lia.
  - rewrite FillUp_loop_S. unfold to_unsigned. rewrite Z.mod_small by lia.
    destruct (Z.of_nat (length ret) <? n)%Z eqn:Hlt.
    2:{ apply Z.ltb_ge in Hlt. exists ret. split; [done|]. lia. }
    apply Z.ltb_lt in Hlt.
    pose proof (DoubleUp_closed ret n ltac:(lia)) as Hshape.
    pose proof (DoubleUp_length ret n ltac:(lia)) as Hle.
    pose proof (DoubleUp_bisected_length ret n ltac:(lia)) as Hexact.
    set (k := Z.to_nat (n - Z.of_nat (length ret))) in *.
    destruct (flat_map_pushes_depth d (take k ret) (Forall_take _ _ _ Hall))
      as [Hdepth Hbis].
    specialize (Hexact Hbis).
    rewrite (proj2 (Nat.eqb_neq _ _)) by lia.
    apply IH.
    + lia.
    + rewrite Nat2Z.inj_succ, Z.pow_succ_r in Hpow by lia.
      assert (0 < 2 ^ Z.of_nat d)%Z as Hone by (apply Z.pow_pos_nonneg; lia).
      destruct (Nat.min_spec k (length ret)) as [[Hk Hmin]|[Hk Hmin]];
        rewrite Hexact, Hmin; nia.
    + rewrite Hshape. apply Forall_app. split; [done|].
      apply Forall_drop. eapply Forall_impl; [exact Hall|].
      intros b. apply bisectable_to_depth_S.
Qed.

(** [FillUp(box, n)] returns exactly [n] boxes when the box can be bisected
    deep enough: if [FindMaxDiamIdx] finds a dimension in the box and in
    every box that arises from it by fewer than [d] bisections, and
    [n <= 2^d], then the loop ends within [d + 1] tests with [n] boxes. *)
Theorem FillUp_fills (d : nat) (b : Box) (n : Z) :
  (1 ≤ n < 2 ^ 32)%Z →
  (n ≤ 2 ^ Z.of_nat d)%Z →
  bisectable_to_depth d b = true →
  ∃ boxes, FillUp (S d) b n = Some boxes ∧ Z.of_nat (length boxes) = n.
Proof.
  intros Hn Hpow Hb. unfold FillUp. apply FillUp_loop_fills; simpl; try lia.
  by constructor.
Qed.

(** [FillUp(box, n)] never returns more than [n] boxes for [n] from 1 up to
    the range of [unsigned]; for [n = 0] and [n = 1] it returns the box
    itself without bisecting. *)
Theorem FillUp_never_exceeds (fuel : nat) (b : Box) (n : Z) :
  ((1 ≤ n < 2 ^ 32)%Z → ∀ boxes,
     FillUp fuel b n = Some boxes → (Z.of_nat (length boxes) ≤ n)%Z) ∧
  ((0 ≤ n ≤ 1)%Z → FillUp (S fuel) b n = Some [b]).
Proof.
  split.
  - intros Hn boxes. unfold FillUp. apply FillUp_loop_length; simpl; lia.
  - intros Hn. unfold FillUp. simpl. unfold to_unsigned.
    rewrite Z.mod_small by lia. by rewrite (proj2 (Z.ltb_ge _ _)) by lia.
Qed.

End Seeding_facts.

Section Seeding_runs.
Import QI TestData ParallelData.

(** Witness of [FindMaxDiamIdx_result]: in [[0, 2] × [1, 1]] only dimension
    0 can be bisected. *)
Lemma FindMaxDiamIdx_result_witness :
  ∃ i, FindMaxDiamIdx flat_box = Z.of_nat i ∧ i < size flat_box ∧
       ibex.is_bisectable (at_idx flat_box i) = true ∧
       ∀ j, i < j < size flat_box →
         ibex.d_gt (ibex.diam (at_idx flat_box j)) (ibex.diam (at_idx flat_box i))
         && ibex.is_bisectable (at_idx flat_box j) = false.
Proof.
  apply (proj2 (FindMaxDiamIdx_result flat_box)). vm_compute. discriminate.
Defined.

(** Witness of [DoubleUp_shape]: one box and room for three. *)
Lemma DoubleUp_shape_witness :
  (Z.of_nat (length (DoubleUp [seq_box] 3)) ≤ 3)%Z.
Proof.
  apply (DoubleUp_shape [seq_box] 3). simpl. lia.
Defined.

(** Witness of [FillUp_fills]: three boxes from [x0 ∈ [0, 2]]. *)
Lemma FillUp_fills_witness :
  ∃ boxes, FillUp 3 seq_box 3 = Some boxes ∧ Z.of_nat (length boxes) = 3%Z.
Proof.
  apply (FillUp_fills 2 seq_box 3); [lia|simpl; lia|reflexivity].
Defined.

Example FillUp_three :
  FillUp 3 seq_box 3
  = Some [box1 0 (Qmake 1 2); box1 (Qmake 1 2) 1; box1 1 2].
Proof. reflexivity. Qed.

(** Witness of [FillUp_never_exceeds]. *)
Lemma FillUp_never_exceeds_witness :
  (Z.of_nat (length [box1 0 1; box1 1 2]) ≤ 2)%Z ∧ FillUp 1 seq_box 1 = Some [seq_box].
Proof.
  pose proof (FillUp_never_exceeds 0 seq_box 1) as [_ Hone].
  pose proof (FillUp_never_exceeds 2 seq_box 2) as [Hmost _].
  split.
  - apply (Hmost ltac:(lia)). reflexivity.
  - apply Hone. lia.
Defined.

End Seeding_runs.

(** ** The bookkeeping of the worker pool *)
Section Pool_accounting.
Context `{IL : ibex.Lib} `{SL : symbolic.Lib}.
Variable helpers : Helpers.
Variable config : Config.
Variable contractor : Contractor.
Variable formula_evaluators : list FormulaEvaluator.
Variable DREAL_CHECK_INTERRUPT : bool.

(** Replacing a worker changes the number of holders by what the two
    workers contribute. *)
Lemma holders_insert (ws : list WorkerState) (i : nat) (w w' : WorkerState) :
  ws !! i = Some w →
  holders (<[i := w']> ws) + (if need_to_pop w then 0 else 1)
  = holders ws + (if need_to_pop w' then 0 else 1).
Proof.
  unfold holders. revert i. induction ws as [|x ws IH]; intros i; [done|].
  destruct i as [|i]; simpl.
  - intros [= ->]. rewrite !filter_cons.
    destruct (need_to_pop w), (need_to_pop w'); simpl; lia.
  - intros Hi. specialize (IH i Hi). rewrite !filter_cons.
    destruct (decide (need_to_pop x = false)); simpl; lia.
Qed.

Lemma elem_of_insert_inv (ws : list WorkerState) (i : nat) (w' x : WorkerState) :
  x ∈ <[i := w']> ws → x = w' ∨ x ∈ ws.
Proof.
  intros [j Hj]%list_elem_of_lookup.
  destruct (decide (i = j)) as [->|Hne].
  - pose proof (lookup_lt_Some _ _ _ Hj) as Hlt. rewrite length_insert in Hlt.
    rewrite list_lookup_insert_eq in Hj by done. left. congruence.
  - rewrite list_lookup_insert_ne in Hj by done. right.
    apply list_elem_of_lookup. eauto.
Qed.

(** What processing a box does to the shared counters: the box is
    discarded, or it is split with one half pushed and the other kept, or the
    worker publishes its id. *)
Lemma Worker_process_accounting id sh gs cs0 w :
  let r := Worker_process helpers config contractor formula_evaluators id sh gs cs0 w in
  (w_status (snd r) = Running ∧ found_delta_sat (fst r) = found_delta_sat sh ∧
   ((need_to_pop (snd r) = true ∧ global_stack (fst r) = gs ∧
     number_of_boxes (fst r) = (number_of_boxes sh - 1)%Z) ∨
    (need_to_pop (snd r) = false ∧ (∃ b, global_stack (fst r) = b :: gs) ∧
     number_of_boxes (fst r) = (number_of_boxes sh + 1)%Z))) ∨
  (w_status (snd r) = Found ∧ found_delta_sat (fst r) = Z.of_nat id).
Proof.
  unfold Worker_process. simpl.
  destruct (empty _); [left; split; [done|]; split; [done|]; by left|].
  destruct (fst (EvaluateBox _ _ _ _)) as [bc|];
    [|left; split; [done|]; split; [done|]; by left].
  destruct (decide (bc = ∅)); [by right|].
  unfold ParallelBranch.
  destruct (0 <=? _)%Z; [|by right].
  left. split; [done|]. split; [done|]. right. simpl. eauto.
Qed.

(** Every step of every worker keeps the bookkeeping. *)
Lemma boxes_accounted_step sys ev :
  boxes_accounted sys →
  boxes_accounted
    (System_step helpers config contractor formula_evaluators DREAL_CHECK_INTERRUPT
       sys ev).
Proof.
  intros Hacc.
  assert (Hsame : boxes_accounted (mkSystem (shared sys) (workers sys)))
    by (by destruct sys).
  destruct Hacc as (HA & HB & HC & HD). unfold System_step.
  destruct (workers sys !! fst ev) as [w|] eqn:Hw; [|by split].
  pose proof (holders_insert (workers sys) (fst ev) w) as Hins.
  assert (Hkeep : ∀ st,
    st ≠ Found →
    (st = Exited → (0 ≤ found_delta_sat (shared sys))%Z ∨
                   (number_of_boxes (shared sys) ≤ 0)%Z) →
    boxes_accounted
      (mkSystem (shared sys)
         (<[fst ev := mkWorker (w_cs w) (need_to_pop w) (w_stack_left_box_first w) st]>
            (workers sys)))).
  { intros st Hst Hexit.
    specialize (Hins (mkWorker (w_cs w) (need_to_pop w) (w_stack_left_box_first w) st) Hw).
    simpl in Hins.
    unfold boxes_accounted. simpl.
    split; [done|]. split; [|split].
    - intros Hf. rewrite (HB Hf). lia.
    - intros (x & [->|Hx]%elem_of_insert_inv & Hs); [done|]. apply HC. eauto.
    - intros (x & [->|Hx]%elem_of_insert_inv & Hs); [by apply Hexit|].
      apply HD. eauto. }
  assert (Hproc : ∀ gs cs0,
    found_delta_sat (shared sys) = (-1)%Z →
    (0 < number_of_boxes (shared sys))%Z →
    (if need_to_pop w then length (global_stack (shared sys)) = S (length gs)
     else global_stack (shared sys) = gs) →
    boxes_accounted
      (mkSystem
         (fst (Worker_process helpers config contractor formula_evaluators
                 (fst ev) (shared sys) gs cs0 w))
         (<[fst ev := snd (Worker_process helpers config contractor formula_evaluators
                             (fst ev) (shared sys) gs cs0 w)]> (workers sys)))).
  { intros gs cs0 Hf Hn Hgs. specialize (HB Hf).
    assert (Hnoexit : ¬ ∃ x, x ∈ workers sys ∧ w_status x = Exited).
    { intros Hex. destruct (HD Hex); lia. }
    destruct (Worker_process_accounting (fst ev) (shared sys) gs cs0 w)
      as [(Hs & Hfound & Hcase)|[Hs Hfound]];
      destruct (Worker_process _ _ _ _ _ _ _ _ _) as [sh' w'];
      simpl in *; specialize (Hins w' Hw).
    - unfold boxes_accounted. simpl.
      split; [rewrite Hfound; by left|]. split; [|split].
      + intros _.
        destruct Hcase as [(Hp & -> & ->)|(Hp & [b ->] & ->)];
          rewrite Hp in Hins; destruct (need_to_pop w); simpl in *;
          try rewrite Hgs in HB; lia.
      + intros (x & [->|Hx]%elem_of_insert_inv & Hsx); [congruence|].
        rewrite Hfound. apply HC. eauto.
      + intros (x & [->|Hx]%elem_of_insert_inv & Hsx); [congruence|].
        destruct Hnoexit. eauto.
    - unfold boxes_accounted. simpl.
      split; [right; lia|]. split; [|split].
      + intros ?. lia.
      + intros _. lia.
      + intros _. left. lia. }
  unfold Worker_step.
  destruct (w_status w) eqn:Hs.
  2-4: by rewrite list_insert_id.
  destruct ((found_delta_sat (shared sys) =? -1)%Z &&
            (0 <? number_of_boxes (shared sys))%Z) eqn:Htest; simpl.
  - apply andb_true_iff in Htest as [Hf%Z.eqb_eq Hn%Z.ltb_lt].
    destruct (DREAL_CHECK_INTERRUPT && snd ev); [by apply Hkeep|].
    destruct (need_to_pop w) eqn:Hp.
    + destruct (global_stack (shared sys)) as [|b gs] eqn:Hgs.
      * simpl. by rewrite list_insert_id.
      * by apply Hproc.
    + by apply Hproc.
  - apply Hkeep; [done|]. intros _.
    apply andb_false_iff in Htest as [Hf%Z.eqb_neq|Hn%Z.ltb_ge]; [|by right].
    left. destruct HA; [done|lia].
Qed.

Lemma boxes_accounted_initial (cs0 : ContractorStatus) (boxes : list Box) :
  boxes_accounted (initial_system config cs0 boxes).
Proof.
  split; [by left|]. split; [|split]; simpl.
  - intros _. rewrite length_rev. unfold holders.
    assert (filter (fun w => need_to_pop w = false)
              (replicate (number_of_jobs config)
                 (mkWorker cs0 true (stack_left_box_first config) Running)) = [])
      as ->; [|simpl; lia].
    induction (number_of_jobs config) as [|n IH]; [done|]. simpl.
    by rewrite filter_cons, IH.
  - intros (w & [-> _]%elem_of_replicate & Hs). done.
  - intros (w & [-> _]%elem_of_replicate & Hs). done.
Qed.

Lemma boxes_accounted_run (sched : Schedule) (sys : System) :
  boxes_accounted sys →
  boxes_accounted
    (run helpers config contractor formula_evaluators DREAL_CHECK_INTERRUPT sched sys).
Proof.
  revert sys. unfold run.
  induction sched as [|ev sched IH]; intros sys Hsys; [done|].
  simpl. apply IH. by apply boxes_accounted_step.
Qed.

(** The bookkeeping of the pool holds throughout [IcpParallel::CheckSat],
    whatever the interleaving of the workers: as long as no worker has
    published an id in [found_delta_sat], [number_of_boxes] is the number of
    boxes on the global stack plus the number of workers holding a box;
    [found_delta_sat] is [-1] or a worker id and is set once a worker has
    returned as the finder; and a worker leaves by the loop test only once an
    id is published or the counter is zero or less. *)
Theorem pool_boxes_accounted (sched : Schedule) (cs0 : ContractorStatus)
    (boxes : list Box) :
  boxes_accounted
    (run helpers config contractor formula_evaluators DREAL_CHECK_INTERRUPT sched
       (initial_system config cs0 boxes)).
Proof. apply boxes_accounted_run, boxes_accounted_initial. Qed.

(** When [IcpParallel::CheckSat] answers [false] after a non-empty first
    pruning, no box is left anywhere: the seeding had returned, and at the
    end [found_delta_sat] is [-1], the global stack is empty,
    [number_of_boxes] is zero, and every worker has left by the loop test
    without holding a box. *)
Theorem IcpParallel_unsat_exhausts (fuel : nat) (sched : Schedule)
    (cs0 cs' : ContractorStatus) :
  empty (box (contractor cs0)) = false →
  IcpParallel_CheckSat helpers config contractor formula_evaluators
    DREAL_CHECK_INTERRUPT fuel sched cs0 = Some (Returns false cs') →
  ∃ boxes,
    FillUp fuel (box (contractor cs0)) (Z.of_nat (number_of_jobs config)) = Some boxes ∧
    let sys := run helpers config contractor formula_evaluators DREAL_CHECK_INTERRUPT
                 sched (initial_system config (contractor cs0) boxes) in
    found_delta_sat (shared sys) = (-1)%Z ∧
    global_stack (shared sys) = [] ∧
    number_of_boxes (shared sys) = 0%Z ∧
    Forall (fun w => w_status w = Exited ∧ need_to_pop w = true) (workers sys).
Proof.
  intros Hne. unfold IcpParallel_CheckSat. rewrite Hne.
  destruct (FillUp _ _ _) as [boxes|]; [|done].
  intros Hfin. exists boxes. split; [done|]. cbv zeta.
  pose proof (boxes_accounted_run sched _
                (boxes_accounted_initial (contractor cs0) boxes))
    as (HA & HB & HC & HD).
  pose proof (pool_invariant_run helpers config contractor formula_evaluators
                DREAL_CHECK_INTERRUPT sched _
                (pool_invariant_initial config (contractor cs0) boxes)) as [Hlen _].
  set (sys := run _ _ _ _ _ sched _) in *.
  assert (∃ main, main ∈ workers sys) as [main Hmain].
  { revert Hfin. unfold CheckSat_finish.
    destruct (workers sys !! _) as [main|] eqn:Hl; [|done].
    intros _. exists main. apply list_elem_of_lookup. eauto. }
  apply CheckSat_finish_Returns in Hfin as [Hall Hpost]; [|done].
  assert (found_delta_sat (shared sys) = (-1)%Z) as Hf.
  { revert Hpost. unfold CheckSat_post.
    destruct (0 <=? _)%Z eqn:Hle; [done|]. apply Z.leb_gt in Hle.
    intros _. destruct HA; [done|lia]. }
  assert (Forall (fun w => w_status w = Exited) (workers sys)) as Hexited.
  { rewrite Forall_forall in Hall. apply Forall_forall. intros w Hw.
    destruct (Hall w Hw) as [?|Hfound]; [done|].
    assert (0 ≤ found_delta_sat (shared sys))%Z by (apply HC; eauto). lia. }
  assert (number_of_boxes (shared sys) ≤ 0)%Z as Hn.
  { rewrite Forall_forall in Hexited.
    destruct HD as [?|?]; [exists main; auto|lia|done]. }
  specialize (HB Hf).
  split; [done|]. split; [|split].
  - destruct (global_stack (shared sys)); [done|]. simpl in HB. lia.
  - lia.
  - assert (holders (workers sys) = 0) as Hh by lia.
    unfold holders in Hh. apply length_zero_iff_nil in Hh.
    rewrite Forall_forall in Hexited. apply Forall_forall. intros w Hw.
    split; [auto|]. destruct (need_to_pop w) eqn:Hp; [done|].
    assert (w ∈ filter (fun w => need_to_pop w = false) (workers sys)) as Hin
      by (by apply list_elem_of_filter).
    rewrite Hh in Hin. by apply elem_of_nil in Hin.
Qed.

(** A worker that has just returned as the finder holds the status that the
    contractor left for the box it processed, with a box that is not
    empty. *)
Lemma Worker_process_finder id sh gs cs0 w :
  w_status (snd (Worker_process helpers config contractor formula_evaluators
                   id sh gs cs0 w)) = Found →
  w_cs (snd (Worker_process helpers config contractor formula_evaluators
               id sh gs cs0 w)) = contractor cs0 ∧
  empty (box (contractor cs0)) = false.
Proof.
  unfold Worker_process. cbv zeta.
  destruct (empty _) eqn:Hempty; [done|].
  destruct (fst (EvaluateBox _ _ _ _)) as [bc|] eqn:Hev; [|done].
  rewrite (EvaluateBox_Some_status _ _ _ _ _ Hev).
  destruct (decide (bc = ∅)); [done|].
  destruct (ParallelBranch _ _ _ _ _ _) as [[[[] ?] ?] ?]; done.
Qed.

(** A worker that is the finder after a step either was the finder before,
    unchanged, or has made this step: it was in its loop, passed a status to
    the contractor, and returned with what the contractor left, a box that
    is not empty. *)
Lemma finder_box_step (sys : System) (ev : nat * bool) (id : nat) (w : WorkerState) :
  workers (System_step helpers config contractor formula_evaluators
             DREAL_CHECK_INTERRUPT sys ev) !! id = Some w →
  w_status w = Found →
  workers sys !! id = Some w ∨
  (fst ev = id ∧
   ∃ w0 cs_in,
     workers sys !! id = Some w0 ∧ w_status w0 = Running ∧
     Worker_input (shared sys) w0 = Some cs_in ∧
     w = snd (Worker_step helpers config contractor formula_evaluators
                DREAL_CHECK_INTERRUPT (snd ev) id (shared sys) w0) ∧
     w_cs w = contractor cs_in ∧ empty (box (contractor cs_in)) = false).
Proof.
  unfold System_step.
  destruct (workers sys !! fst ev) as [w0|] eqn:Hw0; [|by left]. simpl.
  destruct (decide (fst ev = id)) as [Hid|Hne].
  2:{ rewrite list_lookup_insert_ne by done. by left. }
  rewrite Hid in *.
  rewrite list_lookup_insert_eq by (by apply lookup_lt_Some in Hw0).
  intros [= <-] Hf.
  destruct (w_status w0) eqn:Hs0;
    try (left; unfold Worker_step; by rewrite Hs0).
  right. split; [done|].
  assert (∃ cs_in,
    Worker_input (shared sys) w0 = Some cs_in ∧
    w_cs (snd (Worker_step helpers config contractor formula_evaluators
                 DREAL_CHECK_INTERRUPT (snd ev) id (shared sys) w0))
    = contractor cs_in ∧
    empty (box (contractor cs_in)) = false) as (cs_in & Hin & Hcs & Hne).
  { revert Hf. unfold Worker_step, Worker_input. rewrite Hs0.
    destruct (negb _); [done|].
    destruct (DREAL_CHECK_INTERRUPT && snd ev); [done|].
    destruct (need_to_pop w0).
    - destruct (global_stack (shared sys)) as [|b gs]; [simpl; congruence|].
      intros Hf. exists (with_box (w_cs w0) b). split; [done|].
      by apply Worker_process_finder.
    - intros Hf. exists (w_cs w0). split; [done|]. by apply Worker_process_finder. }
  by exists w0, cs_in.
Qed.

(** The same along a schedule: a finder at the end was a finder at the start
    or returned as the finder in one step of the schedule. *)
Lemma finder_box_run (sched : Schedule) (sys : System) (id : nat) (w : WorkerState) :
  workers (run helpers config contractor formula_evaluators
             DREAL_CHECK_INTERRUPT sched sys) !! id = Some w →
  w_status w = Found →
  workers sys !! id = Some w ∨
  ∃ pre ev post w0 cs_in,
    sched = pre ++ ev :: post ∧ fst ev = id ∧
    workers (run helpers config contractor formula_evaluators
               DREAL_CHECK_INTERRUPT pre sys) !! id = Some w0 ∧
    w_status w0 = Running ∧
    Worker_input (shared (run helpers config contractor formula_evaluators
                            DREAL_CHECK_INTERRUPT pre sys)) w0 = Some cs_in ∧
    w = snd (Worker_step helpers config contractor formula_evaluators
               DREAL_CHECK_INTERRUPT (snd ev) id
               (shared (run helpers config contractor formula_evaluators
                          DREAL_CHECK_INTERRUPT pre sys)) w0) ∧
    w_cs w = contractor cs_in ∧ empty (box (contractor cs_in)) = false.
Proof.
  revert sys. unfold run.
  induction sched as [|ev sched IH]; intros sys Hw Hf; [by left|].
  simpl in Hw. destruct (IH _ Hw Hf) as [Hnow|Hlater].
  - destruct (finder_box_step sys ev id w Hnow Hf)
      as [?|(Hid & w0 & cs_in & H0 & Hs0 & Hin & Hstep & Hcs & Hne)]; [by left|].
    right. by exists [], ev, sched, w0, cs_in.
  - destruct Hlater as (pre & ev' & post & w0 & cs_in & -> & Hrest).
    right. by exists (ev :: pre), ev', post, w0, cs_in.
Qed.

(** When [IcpParallel::CheckSat] answers [true], the box it leaves in the
    caller's status is the finder's delta-box.  The finder is the worker
    whose id stands in [found_delta_sat] at the end; in one step of the
    schedule it was in its loop, passed a status to the contractor (its own
    status, with the box it popped if it had to pop) and returned as the
    finder.  The caller's box is the box that the contractor left in that
    status, unchanged by the finder's evaluation and failed branching, and
    it is not empty. *)
Theorem IcpParallel_true_box (fuel : nat) (sched : Schedule)
    (cs0 cs' : ContractorStatus) :
  IcpParallel_CheckSat helpers config contractor formula_evaluators
    DREAL_CHECK_INTERRUPT fuel sched cs0 = Some (Returns true cs') →
  ∃ boxes pre ev post w0 cs_in,
    FillUp fuel (box (contractor cs0)) (Z.of_nat (number_of_jobs config)) = Some boxes ∧
    sched = pre ++ ev :: post ∧
    found_delta_sat
      (shared (run helpers config contractor formula_evaluators DREAL_CHECK_INTERRUPT
                 sched (initial_system config (contractor cs0) boxes)))
    = Z.of_nat (fst ev) ∧
    let before := run helpers config contractor formula_evaluators
                    DREAL_CHECK_INTERRUPT pre
                    (initial_system config (contractor cs0) boxes) in
    workers before !! fst ev = Some w0 ∧
    w_status w0 = Running ∧
    Worker_input (shared before) w0 = Some cs_in ∧
    w_status (snd (Worker_step helpers config contractor formula_evaluators
                     DREAL_CHECK_INTERRUPT (snd ev) (fst ev) (shared before) w0))
    = Found ∧
    box cs' = box (contractor cs_in) ∧
    empty (box cs') = false.
Proof.
  unfold IcpParallel_CheckSat.
  destruct (empty (box (contractor cs0))); [done|].
  destruct (FillUp _ _ _) as [boxes|]; [|done].
  pose proof (pool_invariant_run helpers config contractor formula_evaluators
                DREAL_CHECK_INTERRUPT sched _
                (pool_invariant_initial config (contractor cs0) boxes)) as [Hlen Hinv].
  pose proof (finder_box_run sched (initial_system config (contractor cs0) boxes))
    as Hfinder.
  set (sys := run _ _ _ _ _ sched _) in *.
  intros Hfin. apply CheckSat_finish_Returns in Hfin as [_ Hpost]; [|done].
  revert Hpost. unfold CheckSat_post.
  destruct (0 <=? _)%Z eqn:Hle; [|done]. apply Z.leb_le in Hle.
  destruct Hinv as [Hneg|(w & _ & Hw & Hs)]; [lia|].
  erewrite nth_lookup_Some by (rewrite list_lookup_fmap, Hw; done).
  intros [= <-].
  destruct (Hfinder _ w Hw Hs)
    as [Hinit|(pre & ev & post & w0 & cs_in & Hsched & Hid & H0 & Hs0 & Hin & Hstep
               & Hcs & Hne)].
  { simpl in Hinit. apply lookup_replicate in Hinit as [Heq _].
    rewrite Heq in Hs. done. }
  exists boxes, pre, ev, post, w0, cs_in. cbv zeta.
  rewrite Hid. split; [done|]. split; [done|].
  split; [by rewrite Z2Nat.id by done|].
  split; [done|]. split; [done|]. split; [done|].
  split; [by rewrite <- Hstep|].
  simpl. rewrite Hcs. done.
Qed.

End Pool_accounting.

Section Pool_accounting_runs.
Import QI TestData ParallelData.

(** Witness of [IcpParallel_unsat_exhausts]: the refuted problem with one
    job. *)
Lemma IcpParallel_unsat_exhausts_witness :
  ∃ boxes,
    FillUp 2 (box (Id seq_cs)) (Z.of_nat (number_of_jobs (config_of 1 MaxDiam)))
    = Some boxes ∧
    let sys := run spec_helpers (config_of 1 MaxDiam) Id unsat_evaluators false
                 unsat_schedule (initial_system (config_of 1 MaxDiam) (Id seq_cs) boxes) in
    found_delta_sat (shared sys) = (-1)%Z ∧
    global_stack (shared sys) = [] ∧
    number_of_boxes (shared sys) = 0%Z ∧
    Forall (fun w => w_status w = Exited ∧ need_to_pop w = true) (workers sys).
Proof.
  eapply (IcpParallel_unsat_exhausts spec_helpers (config_of 1 MaxDiam) Id
            unsat_evaluators false 2 unsat_schedule seq_cs);
    reflexivity.
Defined.

(** Witness of [IcpParallel_true_box]: the run with two jobs, in which
    worker 0 is the finder. *)
Lemma IcpParallel_true_box_witness :
  ∃ boxes pre ev post w0 cs_in,
    FillUp 2 (box (Id seq_cs)) (Z.of_nat (number_of_jobs (config_of 2 MaxDiam)))
    = Some boxes ∧
    par_schedule = pre ++ ev :: post ∧
    found_delta_sat
      (shared (run spec_helpers (config_of 2 MaxDiam) Id seq_evaluators false
                 par_schedule (initial_system (config_of 2 MaxDiam) (Id seq_cs) boxes)))
    = Z.of_nat (fst ev) ∧
    let before := run spec_helpers (config_of 2 MaxDiam) Id seq_evaluators false pre
                    (initial_system (config_of 2 MaxDiam) (Id seq_cs) boxes) in
    workers before !! fst ev = Some w0 ∧
    w_status w0 = Running ∧
    Worker_input (shared before) w0 = Some cs_in ∧
    w_status (snd (Worker_step spec_helpers (config_of 2 MaxDiam) Id seq_evaluators
                     false (snd ev) (fst ev) (shared before) w0))
    = Found ∧
    box par_final = box (Id cs_in) ∧
    empty (box par_final) = false.
Proof.
  apply (IcpParallel_true_box spec_helpers (config_of 2 MaxDiam) Id seq_evaluators
           false 2 par_schedule seq_cs par_final).
  reflexivity.
Defined.


End Pool_accounting_runs.

(** ** More on the interval evaluator *)
Section Evaluator_more.
Context `{IL : ibex.Lib} `{SL : symbolic.Lib}.

(** Induction on expressions, with the operands held in the maps of the
    addition and multiplication cells. *)
Lemma Expression_nested_ind (P : Expression → Prop) :
  (∀ v, P (EVar v)) →
  (∀ c, P (EConstant c)) →
  (∀ l u, P (ERealConstant l u)) →
  P ENaN →
  (∀ c m, Forall (fun p => P (fst p)) m → P (EAdd c m)) →
  (∀ c m, Forall (fun p => P (fst p) ∧ P (snd p)) m → P (EMul c m)) →
  (∀ e1 e2, P e1 → P e2 → P (EDiv e1 e2)) →
  (∀ k e, P e → P (EUnary k e)) →
  (∀ e1 e2, P e1 → P e2 → P (EPow e1 e2)) →
  (∀ k e1 e2, P e1 → P e2 → P (EBinary k e1 e2)) →
  (∀ f e1 e2, P e1 → P e2 → P (EIfThenElse f e1 e2)) →
  (∀ n vs, P (EUninterpretedFunction n vs)) →
  ∀ e, P e.
Proof.
  intros HVar HC HR HN HA HM HD HU HP HB HI HF.
  fix IH 1. intros [v|c|l u| |c m|c m|e1 e2|k e|e1 e2|k e1 e2|f e1 e2|n vs].
  - apply HVar.
  - apply HC.
  - apply HR.
  - apply HN.
  - apply HA. induction m as [|[e k] m IHm]; constructor; [apply IH|apply IHm].
  - apply HM. induction m as [|[e1 e2] m IHm]; constructor;
      [split; apply IH|apply IHm].
  - apply HD; apply IH.
  - apply HU; apply IH.
  - apply HP; apply IH.
  - apply HB; apply IH.
  - apply HI; apply IH.
  - apply HF.
Qed.

(** A fold whose step fails once the accumulator has failed, and otherwise
    succeeds exactly when [Q] holds of the element. *)
Lemma fold_left_returns {A B} (g : result A → B → result A) (Q : B → Prop)
    (l : list B) (ret : result A) :
  (∀ ret i, (∃ v, g ret i = Ok v) ↔ (∃ r, ret = Ok r) ∧ Q i) →
  (∃ v, fold_left g l ret = Ok v) ↔ (∃ r, ret = Ok r) ∧ ∀ i, i ∈ l → Q i.
Proof.
  intros Hg. revert ret. induction l as [|i l IH]; intros ret; simpl.
  - split; [|by intros [? _]]. intros Hret. split; [done|].
    intros i Hi. by apply elem_of_nil in Hi.
  - rewrite IH, Hg. split.
    + intros [[Hret Hi] Hl]. split; [done|].
      intros j [->|Hj]%elem_of_cons; auto.
    + intros [Hret Hl]. split; [split; [done|]|].
      * apply Hl, list_elem_of_here.
      * intros j Hj. by apply Hl, list_elem_of_further.
Qed.

Lemma fold_left_Throw {A B} (g : result A → B → result A) (l : list B) msg :
  (∀ i, g (Throw msg) i = Throw msg) →
  fold_left g l (Throw msg) = Throw msg.
Proof. intros Hg. induction l as [|i l IH]; simpl; [done|]. by rewrite Hg. Qed.

(** The folds of [VisitAddition] and [VisitMultiplication]: with [step p]
    the evaluation that the element [p] needs, the fold returns a value when
    every [step] does, and fails like the first [step] that fails. *)
Lemma Visit_fold {B C} (step : B → result C) (combine : Interval → B → C → Interval)
    (U : B → bool) (m : list B) (init : Interval) :
  Forall (fun p =>
            (U p = false → ∃ v, step p = Ok v) ∧
            (U p = true → ∃ msg, step p = Throw msg ∧ unsupported_message msg)) m →
  let fold :=
    fold_left (fun init p => bind init (fun i => bind (step p)
                                          (fun x => Ok (combine i p x))))
      m (Ok init) in
  (existsb U m = false → ∃ v, fold = Ok v) ∧
  (existsb U m = true → ∃ msg, fold = Throw msg ∧ unsupported_message msg).
Proof.
  intros Hall. cbv zeta. revert init.
  induction Hall as [|p m [Hok Hthrow] _ IH]; intros init; simpl.
  - split; [eauto|done].
  - destruct (U p) eqn:HU; simpl.
    + split; [done|]. intros _.
      destruct (Hthrow eq_refl) as (msg & -> & Hmsg). simpl.
      exists msg. split; [|done]. by apply fold_left_Throw.
    + destruct (Hok eq_refl) as (x & ->). simpl. apply IH.
Qed.

(** On an expression in which it meets no NaN cell, the evaluator returns an
    interval exactly when it meets neither an if-then-else nor an
    uninterpreted function; when it meets one, it fails with the message of
    [VisitIfThenElse] or of [VisitUninterpretedFunction], wherever the cell
    sits in the expression. *)
Theorem Visit_supported (e : Expression) (b : Box) :
  visits is_nan_cell e = false →
  ((∃ v, Visit e b = Ok v) ↔ visits is_unsupported_cell e = false) ∧
  (visits is_unsupported_cell e = true →
     ∃ msg, Visit e b = Throw msg ∧ unsupported_message msg).
Proof.
  intros Hnan.
  assert (Hboth :
    (visits is_unsupported_cell e = false → ∃ v, Visit e b = Ok v) ∧
    (visits is_unsupported_cell e = true →
       ∃ msg, Visit e b = Throw msg ∧ unsupported_message msg)).
  2:{ destruct Hboth as [Hok Hthrow]. split; [|done]. split; [|done].
      intros [v Hv]. destruct (visits is_unsupported_cell e); [|done].
      destruct (Hthrow eq_refl) as (msg & Hmsg & _). congruence. }
  revert Hnan. induction e as
    [v|c|l u| |c m IH|c m IH|e1 e2 IH1 IH2|k e IH|e1 e2 IH1 IH2
    |k e1 e2 IH1 IH2|f e1 e2 _ _|n vs] using Expression_nested_ind;
    simpl; intros Hnan.
  - split; [eauto|done].
  - split; [eauto|done].
  - split; [eauto|done].
  - done.
  - apply (Visit_fold (fun p => Visit (fst p) b)
             (fun i p x => ibex.add i (ibex.scale (snd p) x))
             (fun p => visits is_unsupported_cell (fst p))).
    revert Hnan. induction IH as [|p m Hp _ IHm]; simpl; [done|].
    intros [Hn1 Hn2]%orb_false_iff. constructor; [by apply Hp|by apply IHm].
  - pose proof (Visit_fold
                  (fun p => bind (Visit (fst p) b) (fun first =>
                            bind (Visit (snd p) b) (fun second =>
                              Ok (VisitPow_apply first second))))
                  (fun i p x => ibex.mul i x)
                  (fun p => visits is_unsupported_cell (fst p)
                            || visits is_unsupported_cell (snd p)) m (ibex.point c))
      as Hfold.
    cbv zeta in Hfold.
    assert (Heq : ∀ l init,
      fold_left
        (fun init p => bind init (fun i =>
           bind (Visit (fst p) b) (fun first =>
           bind (Visit (snd p) b) (fun second =>
             Ok (ibex.mul i (VisitPow_apply first second))))))
        l init
      = fold_left
          (fun init p => bind init (fun i =>
             bind (bind (Visit (fst p) b) (fun first =>
                   bind (Visit (snd p) b) (fun second =>
                     Ok (VisitPow_apply first second))))
               (fun x => Ok (ibex.mul i x))))
          l init).
    { induction l as [|p l IHl]; intros init; simpl; [done|].
      rewrite IHl. f_equal. destruct init as [i|]; simpl; [|done].
      destruct (Visit (fst p) b); simpl; [|done].
      by destruct (Visit (snd p) b). }
    rewrite Heq. apply Hfold. clear Hfold Heq.
    revert Hnan. induction IH as [|p m [Hp1 Hp2] _ IHm]; simpl; [done|].
    intros [[Hn1 Hn2]%orb_false_iff Hn3]%orb_false_iff.
    constructor; [|by apply IHm].
    destruct (Hp1 Hn1) as [Hok1 Hthrow1]. destruct (Hp2 Hn2) as [Hok2 Hthrow2].
    split.
    + intros [Hu1 Hu2]%orb_false_iff.
      destruct (Hok1 Hu1) as [x ->]. destruct (Hok2 Hu2) as [y ->]. simpl. eauto.
    + intros Hu. destruct (visits is_unsupported_cell (fst p)) eqn:Hu1.
      * destruct (Hthrow1 eq_refl) as (msg & -> & Hmsg). simpl. eauto.
      * destruct (Hok1 eq_refl) as [x ->]. simpl in *.
        destruct (Hthrow2 Hu) as (msg & -> & Hmsg). simpl. eauto.
  - apply orb_false_iff in Hnan as [Hn1 Hn2].
    destruct (IH1 Hn1) as [Hok1 Hthrow1]. destruct (IH2 Hn2) as [Hok2 Hthrow2].
    split.
    + intros [Hu1 Hu2]%orb_false_iff.
      destruct (Hok1 Hu1) as [x ->]. destruct (Hok2 Hu2) as [y ->]. simpl. eauto.
    + intros Hu. destruct (visits is_unsupported_cell e1) eqn:Hu1.
      * destruct (Hthrow1 eq_refl) as (msg & -> & Hmsg). simpl. eauto.
      * destruct (Hok1 eq_refl) as [x ->]. simpl in *.
        destruct (Hthrow2 Hu) as (msg & -> & Hmsg). simpl. eauto.
  - destruct (IH Hnan) as [Hok Hthrow]. split.
    + intros Hu. destruct (Hok Hu) as [x ->]. simpl. eauto.
    + intros Hu. destruct (Hthrow Hu) as (msg & -> & Hmsg). simpl. eauto.
  - apply orb_false_iff in Hnan as [Hn1 Hn2].
    destruct (IH1 Hn1) as [Hok1 Hthrow1]. destruct (IH2 Hn2) as [Hok2 Hthrow2].
    split.
    + intros [Hu1 Hu2]%orb_false_iff.
      destruct (Hok1 Hu1) as [x ->]. destruct (Hok2 Hu2) as [y ->]. simpl. eauto.
    + intros Hu. destruct (visits is_unsupported_cell e1) eqn:Hu1.
      * destruct (Hthrow1 eq_refl) as (msg & -> & Hmsg). simpl. eauto.
      * destruct (Hok1 eq_refl) as [x ->]. simpl in *.
        destruct (Hthrow2 Hu) as (msg & -> & Hmsg). simpl. eauto.
  - apply orb_false_iff in Hnan as [Hn1 Hn2].
    destruct (IH1 Hn1) as [Hok1 Hthrow1]. destruct (IH2 Hn2) as [Hok2 Hthrow2].
    split.
    + intros [Hu1 Hu2]%orb_false_iff.
      destruct (Hok1 Hu1) as [x ->]. destruct (Hok2 Hu2) as [y ->]. simpl. eauto.
    + intros Hu. destruct (visits is_unsupported_cell e1) eqn:Hu1.
      * destruct (Hthrow1 eq_refl) as (msg & -> & Hmsg). simpl. eauto.
      * destruct (Hok1 eq_refl) as [x ->]. simpl in *.
        destruct (Hthrow2 Hu) as (msg & -> & Hmsg). simpl. eauto.
  - split; [done|]. intros _. eexists. split; [done|]. by left.
  - split; [done|]. intros _. eexists. split; [done|]. by right.
Qed.

(** The loop of [Mid] over the dimensions [s .. s+n-1]. *)
Lemma Mid_loop (n s : nat) (b0 : Box) :
  let r := fold_left
             (fun ret i => set_idx ret i (ibex.point (ibex.mid (at_idx ret i))))
             (seq s n) b0 in
  variables r = variables b0 ∧
  length (values r) = length (values b0) ∧
  ∀ i, at_idx r i
       = if (s <=? i)%nat && (i <? s + n)%nat && (i <? length (values b0))%nat
         then ibex.point (ibex.mid (at_idx b0 i))
         else at_idx b0 i.
Proof.
  cbv zeta. revert s b0. induction n as [|n IH]; intros s b0; simpl.
  - split; [done|]. split; [done|]. intros i.
    destruct (Nat.leb_spec s i), (Nat.ltb_spec i (s + 0)); simpl; try done; lia.
  - destruct (IH (S s) (set_idx b0 s (ibex.point (ibex.mid (at_idx b0 s)))))
      as (Hvars & Hlen & Hat).
    simpl in Hvars, Hlen. rewrite length_insert in Hlen.
    split; [done|]. split; [done|]. intros i. rewrite Hat. clear Hat.
    unfold at_idx, set_idx. cbn [values]. rewrite length_insert, !nth_lookup.
    destruct (Nat.leb_spec (S s) i), (Nat.leb_spec s i),
      (Nat.ltb_spec i (S s + n)), (Nat.ltb_spec i (s + S n)),
      (Nat.ltb_spec i (length (values b0))); cbn [andb]; try lia.
    all: try (rewrite list_lookup_insert_ne by lia; done).
    all: assert (i = s) as -> by lia.
    + by rewrite list_lookup_insert_eq.
    + by rewrite list_insert_ge by lia.
Qed.

(** [Mid] keeps the variables of the box and replaces the interval of every
    dimension by the point interval of its midpoint. *)
Theorem Mid_midpoints (b : Box) :
  variables (Mid b) = variables b ∧
  length (values (Mid b)) = length (values b) ∧
  ∀ i, at_idx (Mid b) i
       = if (i <? size b)%nat && (i <? length (values b))%nat
         then ibex.point (ibex.mid (at_idx b i))
         else at_idx b i.
Proof.
  unfold Mid. destruct (Mid_loop (size b) 0 b) as (Hvars & Hlen & Hat).
  split; [done|]. split; [done|]. intros i. rewrite Hat. done.
Qed.

End Evaluator_more.

(** ** When the Taylor forms return *)
Section Taylor_more.
Context `{IL : ibex.Lib} `{SL : symbolic.Lib}.
Variable Differentiate : Expression → Var → result Expression.

Lemma accumulate_returns (ret t : result Interval) :
  (∃ v, accumulate ret t = Ok v) ↔ (∃ r, ret = Ok r) ∧ ∃ x, t = Ok x.
Proof.
  unfold accumulate. destruct ret as [r|msg]; simpl.
  - destruct t as [x|msg]; simpl.
    + split; eauto.
    + split; [by intros [? ?]|]. by intros [_ [? ?]].
  - split; [by intros [? ?]|]. by intros [[? ?] _].
Qed.

Lemma first_order_term_returns (f : Expression) (x x0 at_box : Box) (i : nat) :
  (∃ v, first_order_term Differentiate f x x0 at_box i = Ok v) ↔
  ∃ d g, Differentiate f (variable x i) = Ok d ∧ Visit d at_box = Ok g.
Proof.
  unfold first_order_term.
  destruct (Differentiate f (variable x i)) as [d|msg] eqn:Hd; simpl.
  - destruct (Visit d at_box) as [g|msg] eqn:Hg; simpl.
    + split; [|eauto]. intros _. by exists d, g.
    + split; [by intros [? ?]|]. intros (d' & g & [= <-] & Hg'). congruence.
  - split; [by intros [? ?]|]. by intros (d' & g & ? & _).
Qed.

Lemma second_order_term_returns (f : Expression) (x x0 : Box) (i j : nat) :
  (∃ v, second_order_term Differentiate f x x0 i j = Ok v) ↔
  ∃ d dd h, Differentiate f (variable x i) = Ok d ∧
            Differentiate d (variable x j) = Ok dd ∧ Visit dd x = Ok h.
Proof.
  unfold second_order_term.
  destruct (Differentiate f (variable x i)) as [d|msg] eqn:Hd; simpl.
  2:{ split; [by intros [? ?]|]. by intros (d' & dd & h & ? & _). }
  destruct (Differentiate d (variable x j)) as [dd|msg] eqn:Hdd; simpl.
  2:{ split; [by intros [? ?]|]. intros (d' & dd & h & [= <-] & ? & _). congruence. }
  destruct (Visit dd x) as [h|msg] eqn:Hh; simpl.
  - split; [|destruct (i =? j)%nat; eauto]. intros _. by exists d, dd, h.
  - split; [by intros [? ?]|].
    intros (d' & dd' & h & [= <-] & Hdd' & Hh'). congruence.
Qed.

(** [Taylor1Eval] returns an interval exactly when [f] evaluates at the
    midpoint of the box and, for every dimension of the box, the partial
    derivative exists and evaluates over the box.  If evaluating [f] at the
    midpoint fails, [Taylor1Eval] fails with the same message. *)
Theorem Taylor1Eval_returns (f : Expression) (x : Box) :
  ((∃ v, Taylor1Eval Differentiate f x = Ok v) ↔
   (∃ v0, Eval f (Mid x) = Ok v0) ∧
   ∀ i, i < size x →
     ∃ d g, Differentiate f (variable x i) = Ok d ∧ Visit d x = Ok g) ∧
  (∀ msg, Eval f (Mid x) = Throw msg → Taylor1Eval Differentiate f x = Throw msg).
Proof.
  unfold Taylor1Eval, first_order_loop. split.
  - rewrite (fold_left_returns _
               (fun i => ∃ d g, Differentiate f (variable x i) = Ok d ∧ Visit d x = Ok g)).
    + split; intros [H0 Hall]; (split; [done|]); intros i Hi; apply Hall.
      * apply elem_of_seq. lia.
      * apply elem_of_seq in Hi. lia.
    + intros ret i. by rewrite accumulate_returns, first_order_term_returns.
  - intros msg ->. by apply fold_left_Throw.
Qed.

(** [Taylor2Eval] returns an interval exactly when [f] evaluates at the
    midpoint [x0] of the box, every partial derivative exists and evaluates
    at [x0], and every second partial derivative for dimensions [i <= j]
    exists and evaluates over the box.  If evaluating [f] at the midpoint
    fails, [Taylor2Eval] fails with the same message. *)
Theorem Taylor2Eval_returns (f : Expression) (x : Box) :
  ((∃ v, Taylor2Eval Differentiate f x = Ok v) ↔
   (∃ v0, Eval f (Mid x) = Ok v0) ∧
   (∀ i, i < size x →
      ∃ d g, Differentiate f (variable x i) = Ok d ∧ Visit d (Mid x) = Ok g) ∧
   (∀ i j, i ≤ j < size x →
      ∃ d dd h, Differentiate f (variable x i) = Ok d ∧
                Differentiate d (variable x j) = Ok dd ∧ Visit dd x = Ok h)) ∧
  (∀ msg, Eval f (Mid x) = Throw msg → Taylor2Eval Differentiate f x = Throw msg).
Proof.
  unfold Taylor2Eval, second_order_loop, first_order_loop.
  assert (Hinner : ∀ ret i,
    (∃ v, fold_left
            (fun ret j => accumulate ret (second_order_term Differentiate f x (Mid x) i j))
            (seq i (size x - i)) ret = Ok v) ↔
    (∃ r, ret = Ok r) ∧
    ∀ j, j ∈ seq i (size x - i) →
      ∃ d dd h, Differentiate f (variable x i) = Ok d ∧
                Differentiate d (variable x j) = Ok dd ∧ Visit dd x = Ok h).
  { intros ret i. apply fold_left_returns.
    intros ret' j. by rewrite accumulate_returns, second_order_term_returns. }
  split.
  - rewrite (fold_left_returns _ _ _ _ Hinner).
    rewrite (fold_left_returns _
               (fun i => ∃ d g, Differentiate f (variable x i) = Ok d
                                ∧ Visit d (Mid x) = Ok g)).
    2:{ intros ret i. by rewrite accumulate_returns, first_order_term_returns. }
    split.
    + intros [[H0 H1] H2]. split; [done|]. split.
      * intros i Hi. apply H1. apply elem_of_seq. lia.
      * intros i j Hij. apply H2; apply elem_of_seq; lia.
    + intros (H0 & H1 & H2). split; [split; [done|]|].
      * intros i Hi. apply H1. apply elem_of_seq in Hi. lia.
      * intros i Hi j Hj. apply H2. apply elem_of_seq in Hi, Hj. lia.
  - intros msg ->. rewrite fold_left_Throw by done.
    apply fold_left_Throw. intros i. by apply fold_left_Throw.
Qed.

End Taylor_more.

Section Evaluator_more_runs.
Import QI TestData Sym.

(** Witness of [Visit_supported]: [x0^2] is supported. *)
Lemma Visit_supported_witness :
  (∃ v, Visit square seq_box = Ok v) ↔ visits is_unsupported_cell square = false.
Proof.
  apply (Visit_supported square seq_box). reflexivity.
Defined.

Example Visit_nested_if_then_else :
  Visit (EAdd (Fin 1) [(EVar 0%nat, Fin 2);
                       (EUnary Sin (EIfThenElse 7%nat (EVar 0%nat) (EVar 0%nat)), Fin 1)])
    seq_box
  = Throw "If-then-else expression is not supported yet.".
Proof. reflexivity. Qed.

(** Witness of [Taylor1Eval_returns] and of [Taylor2Eval_returns]: the
    square over [x0 ∈ [0, 2]]. *)
Lemma Taylor1Eval_returns_witness :
  (∃ v0, Eval square (Mid seq_box) = Ok v0) ∧
  ∀ i, i < size seq_box →
    ∃ d g, Differentiate square (variable seq_box i) = Ok d ∧ Visit d seq_box = Ok g.
Proof.
  apply (proj1 (Taylor1Eval_returns Differentiate square seq_box)).
  eexists. reflexivity.
Defined.

Lemma Taylor2Eval_returns_witness :
  ∃ v, Taylor2Eval Differentiate square seq_box = Ok v.
Proof.
  apply (proj1 (Taylor2Eval_returns Differentiate square seq_box)).
  split; [eexists; reflexivity|]. split.
  - intros i Hi. change (i < 1) in Hi. assert (i = 0) as -> by lia.
    do 2 eexists. split; reflexivity.
  - intros i j Hij. change (i ≤ j < 1) in Hij.
    assert (i = 0 ∧ j = 0) as [-> ->] by lia.
    do 3 eexists. split; [reflexivity|]. split; reflexivity.
Defined.

End Evaluator_more_runs.

(** ** Construction of [ContractorIbexPolytope] *)
Section Polytope_construction_facts.
Context `{IL : ibex.Lib} `{SL : symbolic.Lib}.
Variable is_forall : Formula → bool.
Variable GetFreeVariables : Formula → list Var.
Variable Fwdbwd_is_dummy : Formula → bool.
Variable ExprCtr : Type.
Variable Convert : Formula → option ExprCtr.
Variable debug : bool.

Local Abbreviation is_dummy := (Polytope_is_dummy is_forall Fwdbwd_is_dummy).
Local Abbreviation new :=
  (ContractorIbexPolytope_new is_forall GetFreeVariables Fwdbwd_is_dummy ExprCtr
     Convert debug).

Lemma Polytope_is_dummy_forall (formulas : list Formula) :
  Polytope_is_dummy is_forall Fwdbwd_is_dummy formulas = true ↔
  ∀ f, f ∈ formulas → is_forall f = false → Fwdbwd_is_dummy f = true.
Proof.
  induction formulas as [|f fs IH]; simpl.
  - split; [|done]. intros _ f Hf. by apply elem_of_nil in Hf.
  - destruct (is_forall f) eqn:Hq.
    + rewrite IH. split.
      * intros Hall g [->|Hg]%elem_of_cons; [congruence|by apply Hall].
      * intros Hall g Hg. by apply Hall, list_elem_of_further.
    + destruct (Fwdbwd_is_dummy f) eqn:Hd; simpl.
      * rewrite IH. split.
        -- intros Hall g [->|Hg]%elem_of_cons; [done|by apply Hall].
        -- intros Hall g Hg. by apply Hall, list_elem_of_further.
      * split; [done|]. intros Hall.
        specialize (Hall f (list_elem_of_here _ _) Hq). congruence.
Qed.

(** [ContractorIbexPolytope::is_dummy] holds of a formula list exactly when
    every formula in it that is not quantified is a dummy for the
    forward-backward contractor.  Quantified formulas do not count, so the
    empty list and a list of quantified formulas are dummies, and a
    concatenation is a dummy exactly when both parts are. *)
Theorem Polytope_is_dummy_iff (formulas : list Formula) :
  (Polytope_is_dummy is_forall Fwdbwd_is_dummy formulas = true ↔
   ∀ f, f ∈ formulas → is_forall f = false → Fwdbwd_is_dummy f = true) ∧
  (∀ more, Polytope_is_dummy is_forall Fwdbwd_is_dummy (formulas ++ more)
           = Polytope_is_dummy is_forall Fwdbwd_is_dummy formulas
             && Polytope_is_dummy is_forall Fwdbwd_is_dummy more) ∧
  Polytope_is_dummy is_forall Fwdbwd_is_dummy
    (filter (fun f => is_forall f = false) formulas)
  = Polytope_is_dummy is_forall Fwdbwd_is_dummy formulas.
Proof.
  split; [apply Polytope_is_dummy_forall|split].
  - intros more. induction formulas as [|f fs IH]; simpl; [done|].
    destruct (is_forall f); [done|]. by destruct (Fwdbwd_is_dummy f).
  - induction formulas as [|f fs IH]; simpl; [done|].
    rewrite filter_cons. destruct (is_forall f) eqn:Hq; simpl; [done|].
    rewrite Hq, IH. done.
Qed.

Lemma add_constraints_spec (formulas : list Formula) (expr_ctrs : list ExprCtr) :
  add_constraints is_forall ExprCtr Convert formulas expr_ctrs
  = expr_ctrs ++ omap (fun f => if is_forall f then None else Convert f) formulas.
Proof.
  revert expr_ctrs. induction formulas as [|f fs IH]; intros expr_ctrs; simpl.
  - by rewrite app_nil_r.
  - destruct (is_forall f); simpl; [apply IH|].
    destruct (Convert f); rewrite IH; [by rewrite <- app_assoc|done].
Qed.

Lemma build_input_spec (formulas : list Formula) (b : Box) (input : BitSet) (i : nat) :
  i ∈ build_input GetFreeVariables formulas b input ↔
  i ∈ input ∨ ∃ f v, f ∈ formulas ∧ v ∈ GetFreeVariables f ∧ i = index b v.
Proof.
  assert (Hinner : ∀ vs (S : BitSet),
    i ∈ fold_left (fun input var => input ∪ {[ index b var ]}) vs S ↔
    i ∈ S ∨ ∃ v, v ∈ vs ∧ i = index b v).
  { induction vs as [|v vs IH]; intros S; simpl.
    - split; [auto|]. intros [?|(v & Hv & _)]; [done|]. by apply elem_of_nil in Hv.
    - rewrite IH. split.
      + intros [[?| ->%elem_of_singleton]%elem_of_union|(w & Hw & ->)].
        * by left.
        * right. exists v. split; [apply list_elem_of_here|done].
        * right. exists w. split; [by apply list_elem_of_further|done].
      + intros [?|(w & [->|Hw]%elem_of_cons & ->)].
        * left. set_solver.
        * left. set_solver.
        * right. eauto. }
  unfold build_input. revert input.
  induction formulas as [|f fs IH]; intros input; simpl.
  - split; [auto|]. intros [?|(f & v & Hf & _)]; [done|]. by apply elem_of_nil in Hf.
  - rewrite IH, Hinner. split.
    + intros [[?|(v & Hv & ->)]|(g & v & Hg & Hv & ->)].
      * by left.
      * right. exists f, v. split; [apply list_elem_of_here|done].
      * right. exists g, v. split; [by apply list_elem_of_further|done].
    + intros [?|(g & v & [->|Hg]%elem_of_cons & Hv & ->)].
      * by left; left.
      * left. right. eauto.
      * right. eauto.
Qed.

(** The constructor of [ContractorIbexPolytope] yields an object only if at
    least one formula is not quantified and converts to an ibex constraint;
    the object then keeps the formulas, holds one constraint for each such
    formula in order, and its input is the set of the box indices of the
    free variables of all the formulas, quantified ones included.  If no
    formula gives a constraint, and in particular for the empty list and for
    quantified formulas only, the constructor does not return: it ends in
    [throw 1], or in a debug build possibly in the assertion that the list
    is not a dummy. *)
Theorem ContractorIbexPolytope_new_result (formulas : list Formula) (b : Box) :
  (∀ c, new formulas b = Constructed c →
     (∃ f expr_ctr, f ∈ formulas ∧ is_forall f = false ∧ Convert f = Some expr_ctr) ∧
     polytope_formulas_ ExprCtr c = formulas ∧
     expr_ctrs_ ExprCtr c
     = omap (fun f => if is_forall f then None else Convert f) formulas ∧
     ∀ i, i ∈ input_ ExprCtr c ↔
          ∃ f v, f ∈ formulas ∧ v ∈ GetFreeVariables f ∧ i = index b v) ∧
  ((∀ f, f ∈ formulas → is_forall f = false → Convert f = None) →
     new formulas b = ThrowsInt 1 ∨
     (debug = true ∧ new formulas b = FailsAssertion)) ∧
  ((∀ f, f ∈ formulas → is_forall f = true) →
     new formulas b = if debug then FailsAssertion else ThrowsInt 1).
Proof.
  unfold ContractorIbexPolytope_new. rewrite add_constraints_spec. simpl.
  assert (Hnone : (∀ f, f ∈ formulas → is_forall f = false → Convert f = None) →
    omap (fun f => if is_forall f then None else Convert f) formulas = []).
  { induction formulas as [|f fs IH]; simpl; [done|].
    intros Hall. destruct (is_forall f) eqn:Hq.
    - apply IH. intros g Hg. by apply Hall, list_elem_of_further.
    - rewrite (Hall f (list_elem_of_here _ _) Hq). apply IH.
      intros g Hg. by apply Hall, list_elem_of_further. }
  split; [|split].
  - intros c. destruct (debug && _); [done|].
    destruct (length _ =? 0)%nat eqn:Hlen; [done|]. intros [= <-]. simpl.
    split; [|split; [done|split; [done|]]].
    + apply Nat.eqb_neq in Hlen.
      destruct (omap _ formulas) as [|expr_ctr l] eqn:Hl; [done|].
      assert (expr_ctr ∈ omap (fun f => if is_forall f then None else Convert f)
                         formulas) as Hin by (rewrite Hl; apply list_elem_of_here).
      apply list_elem_of_omap in Hin as (f & Hf & Hc).
      exists f, expr_ctr. destruct (is_forall f); [done|]. done.
    + intros i. rewrite build_input_spec. split; [|auto].
      intros [Hi|?]; [|done]. by apply not_elem_of_empty in Hi.
  - intros Hall. rewrite (Hnone Hall). simpl.
    destruct debug; simpl; [|by left].
    destruct (is_dummy formulas); [by right|by left].
  - intros Hall.
    assert (is_dummy formulas = true) as ->.
    { apply Polytope_is_dummy_forall. intros f Hf Hq. rewrite (Hall f Hf) in Hq. done. }
    rewrite Hnone.
    + by destruct debug.
    + intros f Hf Hq. rewrite (Hall f Hf) in Hq. done.
Qed.

End Polytope_construction_facts.

(** ** The two versions of [ContractorIbexFwdbwdMt] *)
Section FwdbwdMt_more.
Context `{IL : ibex.Lib} `{SL : symbolic.Lib}.
Variable ContractorIbexFwdbwd : Type.
Variable make_unique : Formula → Box → Config → ContractorIbexFwdbwd.
Variable ctc_input : ContractorIbexFwdbwd → BitSet.
Variable ctc_is_dummy : ContractorIbexFwdbwd → bool.
Variable ctc_Prune : ContractorIbexFwdbwd → ContractorStatus → ContractorStatus.
Variable debug : bool.

Local Abbreviation Mt := (ContractorIbexFwdbwdMt ContractorIbexFwdbwd).
Local Abbreviation Prune :=
  (ContractorIbexFwdbwdMt_Prune ContractorIbexFwdbwd make_unique ctc_is_dummy
     ctc_Prune debug).
Local Abbreviation results :=
  (Prune_results ContractorIbexFwdbwd make_unique ctc_is_dummy ctc_Prune debug).
Local Abbreviation holds := (holds ContractorIbexFwdbwd).

(** The eagerly populated contractor is usable as soon as it is constructed
    with at least one job: [is_dummy()] and the input are those of a
    contractor built from the formula, box and configuration of the
    constructor, and [Prune] on any thread with an id below the number of
    jobs prunes with such a contractor, whichever thread it is.  On a thread
    with a larger id, [GetCtc] indexes the vector out of range. *)
Theorem EagerFwdbwdMt_behaviour (f : Formula) (b : Box) (config : Config) :
  0 < number_of_jobs config →
  ∃ c, EagerFwdbwdMt_new ContractorIbexFwdbwd make_unique ctc_input ctc_is_dummy
         f b config = Value c ∧
    EagerFwdbwdMt_is_dummy ContractorIbexFwdbwd c
    = ctc_is_dummy (make_unique f b config) ∧
    eager_input ContractorIbexFwdbwd c = ctc_input (make_unique f b config) ∧
    ∀ tid cs0,
      EagerFwdbwdMt_Prune ContractorIbexFwdbwd ctc_Prune debug tid cs0 c
      = if debug && ctc_is_dummy (make_unique f b config) then AssertionFailure
        else if (tid <? number_of_jobs config)%nat
             then Value (ctc_Prune (make_unique f b config) cs0)
             else Undefined.
Proof.
  intros Hjobs. unfold EagerFwdbwdMt_new.
  destruct (number_of_jobs config) as [|n] eqn:Hn; [lia|]. simpl.
  eexists. split; [done|]. split; [done|]. split; [done|].
  intros tid cs0. unfold EagerFwdbwdMt_Prune, GetCtc. simpl.
  destruct (debug && _); [done|].
  destruct tid as [|tid]; simpl; [done|].
  rewrite list_lookup_fmap.
  destruct (Nat.ltb_spec (S tid) (S n)).
  - rewrite lookup_seq_lt by lia. done.
  - rewrite lookup_seq_ge by lia. done.
Qed.

(** In a release build a [Prune] on a thread whose slot is in range returns:
    with the contractor of the slot if there is one, and otherwise with a
    new contractor built from the box of the status, which the slot holds
    afterwards; no other slot changes. *)
Lemma release_Prune_step (tid : nat) (cs0 : ContractorStatus) (c : Mt) :
  debug = false →
  slots_consistent ContractorIbexFwdbwd c →
  length (ctc_ready_ _ c) = length (ctcs_ _ c) →
  tid < length (ctc_ready_ _ c) →
  ∃ ctc c',
    Prune tid cs0 c = Value (ctc_Prune ctc cs0, c') ∧
    holds c' tid ctc ∧
    (ready_at ContractorIbexFwdbwd c tid → holds c tid ctc) ∧
    (¬ ready_at ContractorIbexFwdbwd c tid →
       ctc = make_unique (f_ _ c) (box cs0) (mt_config_ _ c)) ∧
    slots_consistent ContractorIbexFwdbwd c' ∧
    length (ctc_ready_ _ c') = length (ctcs_ _ c') ∧
    length (ctc_ready_ _ c') = length (ctc_ready_ _ c) ∧
    f_ _ c' = f_ _ c ∧ mt_config_ _ c' = mt_config_ _ c ∧
    ∀ i, i ≠ tid →
      (ready_at ContractorIbexFwdbwd c' i ↔ ready_at ContractorIbexFwdbwd c i) ∧
      ctcs_ _ c' !! i = ctcs_ _ c !! i.
Proof.
  intros -> Hcons Hlen Htid.
  unfold ContractorIbexFwdbwdMt_Prune, GetCtcOrCreate. simpl.
  destruct (ctc_ready_ _ c !! tid) as [ready|] eqn:Hready.
  2:{ apply lookup_ge_None in Hready. lia. }
  destruct (ctcs_ _ c !! tid) as [slot|] eqn:Hslot.
  2:{ apply lookup_ge_None in Hslot. lia. }
  destruct (decide (ready = 0%Z)) as [->|Hne]; simpl.
  - assert (¬ ready_at ContractorIbexFwdbwd c tid) as Hnot.
    { intros (r & Hr & Hr0). congruence. }
    eexists _, _. split; [done|]. unfold holds, ready_at. simpl.
    rewrite !list_lookup_insert_eq by lia.
    split; [split; [by exists 1%Z|done]|].
    split; [done|]. split; [done|].
    split.
    { intros i. unfold ready_at. simpl. destruct (decide (i = tid)) as [->|Hi].
      - rewrite !list_lookup_insert_eq by lia. split; [eauto|]. intros _. by exists 1%Z.
      - rewrite !list_lookup_insert_ne by done. apply Hcons. }
    rewrite !length_insert. do 4 (split; [done|]).
    intros i Hi. by rewrite !list_lookup_insert_ne by done.
  - assert (ready_at ContractorIbexFwdbwd c tid) as Hr by (by exists ready).
    destruct (proj1 (Hcons tid) Hr) as [ctc Hctc].
    assert (slot = Some ctc) as -> by congruence.
    apply Z.eqb_neq in Hne. rewrite Hne. simpl.
    exists ctc, c. split; [done|]. split; [done|]. split; [done|].
    split; [done|]. done.
Qed.

(** The statuses returned along a history, given the slots at its start. *)
Lemma release_Prune_results (h : list (nat * ContractorStatus)) (c : Mt) :
  debug = false →
  slots_consistent ContractorIbexFwdbwd c →
  length (ctc_ready_ _ c) = length (ctcs_ _ c) →
  Forall (fun call => fst call < length (ctc_ready_ _ c)) h →
  ∃ rs, results h c = Value rs ∧ length rs = length h ∧
    ∀ k tid cs_k, h !! k = Some (tid, cs_k) →
      (∀ ctc, holds c tid ctc → rs !! k = Some (ctc_Prune ctc cs_k)) ∧
      (¬ ready_at ContractorIbexFwdbwd c tid →
         ∃ j cs_j, j ≤ k ∧ h !! j = Some (tid, cs_j) ∧
           (∀ i cs_i, i < j → h !! i ≠ Some (tid, cs_i)) ∧
           rs !! k = Some (ctc_Prune
                             (make_unique (f_ _ c) (box cs_j) (mt_config_ _ c)) cs_k)).
Proof.
  intros Hdebug. revert c.
  induction h as [|[tid cs0] h IH]; intros c Hcons Hlen Hall.
  - exists []. split; [done|]. split; [done|]. intros k tid cs_k Hk. done.
  - apply Forall_cons in Hall as [Htid Hall]. simpl in Htid.
    destruct (release_Prune_step tid cs0 c Hdebug Hcons Hlen Htid)
      as (ctc & c' & Hp & Hholds' & Hwas & Hnew & Hcons' & Hlen' & Hsame & Hf & Hcfg
          & Hother).
    destruct (IH c' Hcons' Hlen' ltac:(by rewrite Hsame)) as (rs & Hrs & Hlrs & Hspec).
    exists (ctc_Prune ctc cs0 :: rs). simpl. rewrite Hp, Hrs.
    split; [done|]. split; [simpl; by rewrite Hlrs|].
    intros [|k] tid' cs_k; simpl.
    + intros [= <- <-]. split.
      * intros ctc' Hh. destruct (Hwas (proj1 Hh)) as [_ Hc].
        destruct Hh as [_ Hc']. congruence.
      * intros Hnot. exists 0, cs0. split; [done|]. split; [done|].
        split; [intros i cs_i Hi; lia|]. by rewrite (Hnew Hnot).
    + intros Hk. destruct (Hspec k tid' cs_k Hk) as [Hready Hfresh].
      destruct (decide (tid' = tid)) as [->|Hne].
      * split.
        -- intros ctc' Hh. apply Hready.
           destruct (Hwas (proj1 Hh)) as [_ Hc]. destruct Hh as [_ Hc'].
           assert (ctc' = ctc) as -> by congruence. done.
        -- intros Hnot. exists 0, cs0. split; [lia|]. split; [done|].
           split; [intros i cs_i Hi; lia|].
           rewrite <- (Hnew Hnot). by apply Hready.
      * destruct (Hother tid' Hne) as [Hiff Hslot]. split.
        -- intros ctc' [Hr Hc]. apply Hready. split; [by apply Hiff|by rewrite Hslot].
        -- intros Hnot.
           destruct Hfresh as (j & cs_j & Hj & Hhj & Hfirst & Hres);
             [by rewrite Hiff|].
           exists (S j), cs_j. split; [lia|]. split; [done|]. split.
           ++ intros [|i] cs_i Hi; simpl; [congruence|]. apply Hfirst. lia.
           ++ by rewrite <- Hf, <- Hcfg.
Qed.

(** In a release build, every [Prune] made on the lazily populated
    contractor by a thread with an id below the number of jobs returns, and
    it prunes with the contractor that was built, from the formula and the
    configuration of the constructor, for the box of the status of the first
    [Prune] made on the same thread. *)
Theorem lazy_Prune_results (f : Formula) (b : Box) (config : Config)
    (h : list (nat * ContractorStatus)) :
  debug = false →
  Forall (fun call => fst call < number_of_jobs config) h →
  ∃ rs,
    results h (ContractorIbexFwdbwdMt_new ContractorIbexFwdbwd f b config) = Value rs ∧
    length rs = length h ∧
    ∀ k tid cs_k, h !! k = Some (tid, cs_k) →
      ∃ j cs_j, j ≤ k ∧ h !! j = Some (tid, cs_j) ∧
        (∀ i cs_i, i < j → h !! i ≠ Some (tid, cs_i)) ∧
        rs !! k = Some (ctc_Prune (make_unique f (box cs_j) config) cs_k).
Proof.
  intros Hdebug Hall.
  destruct (release_Prune_results h
              (ContractorIbexFwdbwdMt_new ContractorIbexFwdbwd f b config) Hdebug)
    as (rs & Hrs & Hlen & Hspec).
  - apply slots_consistent_new.
  - simpl. by rewrite !length_replicate.
  - simpl. by rewrite length_replicate.
  - exists rs. split; [done|]. split; [done|].
    intros k tid cs_k Hk. apply (Hspec k tid cs_k Hk). apply not_ready_new.
Qed.

(** In a debug build no [Prune] on a newly constructed lazily populated
    contractor gets through: [Prune] asserts [!is_dummy()], and
    [is_dummy()] asserts that slot 0 exists, which only a [Prune] can
    create.  Every non-empty history of calls ends in that assertion. *)
Theorem lazy_Prune_never_in_debug (f : Formula) (b : Box) (config : Config)
    (h : list (nat * ContractorStatus)) :
  debug = true →
  0 < number_of_jobs config →
  h ≠ [] →
  Prune_history ContractorIbexFwdbwd make_unique ctc_is_dummy ctc_Prune debug h
    (ContractorIbexFwdbwdMt_new ContractorIbexFwdbwd f b config) = AssertionFailure ∧
  results h (ContractorIbexFwdbwdMt_new ContractorIbexFwdbwd f b config)
  = AssertionFailure.
Proof.
  intros Hdebug Hjobs Hh. destruct h as [|[tid cs0] h]; [done|]. simpl.
  by rewrite (first_Prune_asserts ContractorIbexFwdbwd make_unique ctc_is_dummy
                ctc_Prune debug f b config tid cs0 Hdebug Hjobs).
Qed.

End FwdbwdMt_more.

Section Contractors_runs.
Import QI TestData ContractorData.

(** Witness of [ContractorIbexPolytope_new_result]: of a quantified formula
    and a plain one, the second gives the constraint, and both give the
    input. *)
Lemma ContractorIbexPolytope_new_result_witness :
  ContractorIbexPolytope_new forall_if_even free_variables never_dummy nat convert_all
    true mixed_formulas square_box = Constructed mixed_polytope ∧
  ∀ i, i ∈ mixed_input ↔
       ∃ f v, f ∈ mixed_formulas ∧ v ∈ free_variables f ∧ i = index square_box v.
Proof.
  split; [reflexivity|].
  destruct (proj1 (ContractorIbexPolytope_new_result forall_if_even free_variables
                     never_dummy nat convert_all true mixed_formulas square_box)
              mixed_polytope ltac:(reflexivity)) as (_ & _ & _ & Hinput).
  exact Hinput.
Defined.

Example Polytope_of_quantified_formulas :
  ContractorIbexPolytope_new forall_if_even free_variables never_dummy nat convert_all
    false quantified_formulas square_box = ThrowsInt 1 ∧
  ContractorIbexPolytope_new forall_if_even free_variables never_dummy nat convert_all
    true quantified_formulas square_box = FailsAssertion.
Proof. split; reflexivity. Qed.

(** Witness of [EagerFwdbwdMt_behaviour]. *)
Lemma EagerFwdbwdMt_behaviour_witness :
  ∃ c, EagerFwdbwdMt_new BoxCtc make_box_ctc no_input not_dummy the_formula seq_box
         (config_of 2 MaxDiam) = Value c ∧
    EagerFwdbwdMt_is_dummy BoxCtc c
    = not_dummy (make_box_ctc the_formula seq_box (config_of 2 MaxDiam)) ∧
    eager_input BoxCtc c
    = no_input (make_box_ctc the_formula seq_box (config_of 2 MaxDiam)) ∧
    ∀ tid cs0,
      EagerFwdbwdMt_Prune BoxCtc box_ctc_Prune true tid cs0 c
      = if true && not_dummy (make_box_ctc the_formula seq_box (config_of 2 MaxDiam))
        then AssertionFailure
        else if (tid <? number_of_jobs (config_of 2 MaxDiam))%nat
             then Value (box_ctc_Prune
                           (make_box_ctc the_formula seq_box (config_of 2 MaxDiam)) cs0)
             else Undefined.
Proof.
  apply (EagerFwdbwdMt_behaviour BoxCtc make_box_ctc no_input not_dummy box_ctc_Prune
           true the_formula seq_box (config_of 2 MaxDiam)).
  repeat constructor.
Defined.

(** Witness of [lazy_Prune_results]: the third call, the second on thread 1,
    prunes to the box of the first call. *)
Lemma lazy_Prune_results_witness :
  ∃ rs,
    Prune_results BoxCtc make_box_ctc not_dummy box_ctc_Prune false three_calls
      (ContractorIbexFwdbwdMt_new BoxCtc the_formula seq_box (config_of 2 MaxDiam))
    = Value rs ∧
    length rs = length three_calls ∧
    ∀ k tid cs_k, three_calls !! k = Some (tid, cs_k) →
      ∃ j cs_j, j ≤ k ∧ three_calls !! j = Some (tid, cs_j) ∧
        (∀ i cs_i, i < j → three_calls !! i ≠ Some (tid, cs_i)) ∧
        rs !! k = Some (box_ctc_Prune
                          (make_box_ctc the_formula (box cs_j) (config_of 2 MaxDiam))
                          cs_k).
Proof.
  apply (lazy_Prune_results BoxCtc make_box_ctc not_dummy box_ctc_Prune false
           the_formula seq_box (config_of 2 MaxDiam) three_calls).
  - reflexivity.
  - repeat constructor.
Defined.

Example lazy_Prune_three_calls :
  Prune_results BoxCtc make_box_ctc not_dummy box_ctc_Prune false three_calls
    (ContractorIbexFwdbwdMt_new BoxCtc the_formula seq_box (config_of 2 MaxDiam))
  = Value [status_of (box1 0 2); status_of (box1 0 1); status_of (box1 0 2)].
Proof. reflexivity. Qed.

(** Witness of [lazy_Prune_never_in_debug]. *)
Lemma lazy_Prune_never_in_debug_witness :
  Prune_history BoxCtc make_box_ctc not_dummy box_ctc_Prune true three_calls
    (ContractorIbexFwdbwdMt_new BoxCtc the_formula seq_box (config_of 2 MaxDiam))
  = AssertionFailure.
Proof.
  apply (lazy_Prune_never_in_debug BoxCtc make_box_ctc not_dummy box_ctc_Prune true
           the_formula seq_box (config_of 2 MaxDiam) three_calls).
  - reflexivity.
  - repeat constructor.
  - discriminate.
Defined.

End Contractors_runs.

(** ** Expression cells: evaluation and expansion *)
Section Cells_facts.
Context `{IL : ibex.Lib} `{SL : symbolic.Lib} `{CL : !cmath.Lib}.
Variable GetFreeVariables : Formula → gset Var.
Variable Formula_Evaluate : Formula → Environment → evaluated bool.
Variable NDEBUG : bool.

(** An exception other than the missing entry, and a value that follows an
    outcome, do not depend on the environment that a message prints. *)
Lemma and_then_in_environment {A B} (env : Environment) (r : evaluated A)
    (k k' : A → evaluated B) :
  (∀ a, k' a = in_environment env (k a)) →
  and_then (in_environment env r) k' = in_environment env (and_then r k).
Proof.
  intros Hk. destruct r as [a|what|]; simpl; [apply Hk| |done].
  by destruct what.
Qed.

Lemma assert_not_nan_in_environment (env : Environment) (v : double) :
  assert_not_nan NDEBUG v = in_environment env (assert_not_nan NDEBUG v).
Proof. unfold assert_not_nan. by destruct (_ && _). Qed.

Lemma DoEvaluate1_in_environment (env : Environment) k (v : double) :
  DoEvaluate1 k v = in_environment env (DoEvaluate1 k v).
Proof. unfold DoEvaluate1. by destruct (check_domain k v). Qed.

Lemma DoEvaluate2_in_environment (env : Environment) k this (v1 v2 : double) :
  DoEvaluate2 k this v1 v2 = in_environment env (DoEvaluate2 k this v1 v2).
Proof.
  destruct k; simpl; try done.
  - by destruct (ibex.d_eqb _ _).
  - by destruct (pow_out_of_domain _ _).
Qed.

(** [Evaluate] looks at the environment only at the variables that
    [GetVariables] reports: two environments that agree on them give the
    same value, the same failed assertion or the same exception, up to the
    environment that the message of a missing entry prints, provided that
    the same holds of the formulas of the if-then-else cells and their free
    variables. *)
Theorem Evaluate_coincidence (e : Cell) (env1 env2 : Environment) :
  (∀ f env1 env2,
     (∀ v, v ∈ GetFreeVariables f → env1 !! v = env2 !! v) →
     Formula_Evaluate f env2 = in_environment env2 (Formula_Evaluate f env1)) →
  (∀ v, v ∈ GetVariables GetFreeVariables e → env1 !! v = env2 !! v) →
  Evaluate Formula_Evaluate NDEBUG e env2
  = in_environment env2 (Evaluate Formula_Evaluate NDEBUG e env1).
Proof.
  intros Hformula.
  induction e as [var|v|lb ub u| |k e IH|k e1 IH1 e2 IH2|f e1 IH1 e2 IH2|name vars];
    cbn [Evaluate GetVariables]; intros Hagree; try done.
  - rewrite (Hagree var) by set_solver.
    destruct (env2 !! var); [apply assert_not_nan_in_environment|done].
  - apply assert_not_nan_in_environment.
  - rewrite IH by done. apply and_then_in_environment.
    intros v. apply DoEvaluate1_in_environment.
  - rewrite IH1 by (intros v Hv; apply Hagree; set_solver).
    apply and_then_in_environment. intros v1.
    rewrite IH2 by (intros v Hv; apply Hagree; set_solver).
    apply and_then_in_environment. intros v2. apply DoEvaluate2_in_environment.
  - rewrite (Hformula f env1 env2) by (intros v Hv; apply Hagree; set_solver).
    apply and_then_in_environment. intros [|].
    + apply IH1. intros v Hv. apply Hagree. set_solver.
    + apply IH2. intros v Hv. apply Hagree. set_solver.
Qed.

(** The exponent of a polynomial power is an integer constant. *)
Lemma polynomial_pow (base exponent : Cell) :
  is_polynomial (CBinary KPow base exponent) = true →
  is_polynomial base = true ∧ ∃ c, exponent = CConstant c ∧ is_integer c = true.
Proof.
  simpl. destruct (is_polynomial base); [|done].
  destruct exponent as [|c| | | | | |]; try done. simpl.
  unfold is_non_negative_integer. intros [_ Hi]%andb_true_iff. eauto.
Qed.

(** Evaluating an expression whose [is_polynomial] flag is set never throws
    a [domain_error], nor the errors of the NaN and uninterpreted-function
    cells.  The only exceptions are the [runtime_error] for a variable of
    the expression that has no entry in the environment, and the
    [runtime_error] of a division whose divisor is zero. *)
Theorem polynomial_Evaluate_failures (e : Cell) (env : Environment) (what : Failure) :
  is_polynomial e = true →
  Evaluate Formula_Evaluate NDEBUG e env = Thrown what →
  is_domain_error what = false ∧
  ((∃ var, what = NoEntry var env ∧ var ∈ GetVariables GetFreeVariables e ∧
           env !! var = None) ∨
   (∃ v1 v2 this, what = DivisionByZero v1 v2 this ∧
                  ibex.d_eqb v2 (ibex.d_of_Z 0) = true)).
Proof.
  assert (Hnan : ∀ v, assert_not_nan NDEBUG v ≠ Thrown what).
  { intros v. unfold assert_not_nan. by destruct (_ && _). }
  revert what Hnan.
  induction e as [var|v|lb ub u| |k e IH|k e1 IH1 e2 IH2|f e1 IH1 e2 IH2|name vars];
    intros what Hnan Hpoly; try done.
  - simpl. destruct (env !! var) as [v|] eqn:Hvar; [by intros ?%Hnan|].
    intros [= <-]. split; [done|]. left. exists var. split; [done|]. split; [set_solver|done].
  - simpl. by intros ?%Hnan.
  - assert (is_polynomial e1 = true ∧
            (k = KAdd ∨ k = KMul ∨ k = KDiv ∨ k = KPow) ∧
            (k = KAdd ∨ k = KMul → is_polynomial e2 = true) ∧
            (k = KDiv ∨ k = KPow → ∃ c, e2 = CConstant c) ∧
            (k = KPow → ∃ c, e2 = CConstant c ∧ is_integer c = true))
      as (Hp1 & Hk & Hp2 & Hc & Hi).
    { destruct k; try done.
      - simpl in Hpoly. apply andb_true_iff in Hpoly as [? ?].
        split; [done|]. split; [auto|]. split; [done|]. split; intros; intuition congruence.
      - simpl in Hpoly. apply andb_true_iff in Hpoly as [? ?].
        split; [done|]. split; [auto|]. split; [done|]. split; intros; intuition congruence.
      - simpl in Hpoly. apply andb_true_iff in Hpoly as [? Hcst].
        split; [done|]. split; [auto|]. split; [intros [?|?]; done|].
        split; [|done]. intros _. destruct e2; try done. eauto.
      - apply polynomial_pow in Hpoly as [? (c & -> & Hint)].
        split; [done|]. split; [auto|]. split; [intros [?|?]; done|].
        split; eauto. }
    cbn [Evaluate].
    destruct (Evaluate Formula_Evaluate NDEBUG e1 env) as [v1|what1|] eqn:He1; simpl; [| |done].
    2:{ intros [= ->]. destruct (IH1 what Hnan Hp1 eq_refl) as [Hd [(var & -> & Hin & Hno)|Hz]].
        - split; [done|]. left. exists var. split; [done|]. split; [set_solver|done].
        - split; [done|]. by right. }
    destruct (Evaluate Formula_Evaluate NDEBUG e2 env) as [v2|what2|] eqn:He2; simpl; [| |done].
    2:{ intros [= ->].
        assert (is_polynomial e2 = true) as Hp.
        { destruct Hk as [?|[?|[?|?]]]; [by apply Hp2; left|by apply Hp2; right| |];
            destruct Hc as [c ->]; auto. }
        destruct (IH2 what Hnan Hp eq_refl) as [Hd [(var & -> & Hin & Hno)|Hz]].
        - split; [done|]. left. exists var. split; [done|]. split; [set_solver|done].
        - split; [done|]. by right. }
    destruct Hk as [-> | [-> | [-> | ->]]]; simpl; try done.
    + destruct (ibex.d_eqb v2 (ibex.d_of_Z 0)) eqn:Hz; [|done].
      intros [= <-]. split; [done|]. right. eauto.
    + destruct (Hi eq_refl) as (c & -> & Hint).
      assert (v2 = c) as ->.
      { simpl in He2. unfold assert_not_nan in He2.
        destruct (_ && _); [done|]. congruence. }
      unfold pow_out_of_domain. rewrite Hint. simpl. by rewrite andb_false_r.
Qed.

Section Expansion_facts.
Variable plus : Cell → Cell → Cell.
Variable times : Cell → Cell → Cell.
(** An interpretation of expressions in the integers under which [operator+],
    [operator*] and the addition cell mean addition and multiplication. *)
Variable meaning : Cell → Z.
Hypothesis meaning_plus : ∀ a b, meaning (plus a b) = (meaning a + meaning b)%Z.
Hypothesis meaning_times : ∀ a b, meaning (times a b) = (meaning a * meaning b)%Z.
Hypothesis meaning_add : ∀ a b, meaning (CBinary KAdd a b) = (meaning a + meaning b)%Z.

Lemma ExpandMultiplication_meaning (e1 e2 : Cell) :
  meaning (ExpandMultiplication plus times e1 e2) = (meaning e1 * meaning e2)%Z.
Proof.
  unfold ExpandMultiplication.
  destruct e1 as [| | | | |[] e11 e12| |]; destruct e2 as [| | | | |[] e21 e22| |];
    rewrite ?meaning_plus, ?meaning_times, ?meaning_add; ring.
Qed.

Lemma ExpandPow_not_positive (fuel : nat) (base : Cell) (n : Z) :
  (n ≤ 0)%Z → ExpandPow plus times fuel base n = None.
Proof.
  revert n. induction fuel as [|fuel IH]; intros n Hn; simpl; [done|].
  rewrite (proj2 (Z.eqb_neq n 1)) by lia.
  rewrite IH; [done|]. apply Z.quot_le_upper_bound; lia.
Qed.

(** [ExpandMultiplication] distributes correctly and [ExpandPow(base, n)]
    computes the [n]-th power: under every interpretation of expressions in
    the integers for which [operator+], [operator*] and the addition cell
    mean addition and multiplication, the result of [ExpandMultiplication]
    means the product of its arguments, and for [n >= 1] [ExpandPow]
    returns, within [n] nested calls, an expression that means
    [base] to the [n].  For [n <= 0], which its [assert] excludes, the
    recursion never reaches [n == 1]. *)
Theorem ExpandPow_meaning (base : Cell) (n : Z) (fuel : nat) :
  (∀ e1 e2, meaning (ExpandMultiplication plus times e1 e2)
            = (meaning e1 * meaning e2)%Z) ∧
  ((1 ≤ n ≤ Z.of_nat fuel)%Z →
     ∃ e, ExpandPow plus times fuel base n = Some e ∧
          meaning e = (meaning base ^ n)%Z) ∧
  ((n ≤ 0)%Z → ExpandPow plus times fuel base n = None).
Proof.
  split; [apply ExpandMultiplication_meaning|]. split; [|apply ExpandPow_not_positive].
  revert n. induction fuel as [|fuel IH]; intros n Hn; [lia|]. simpl.
  destruct (Z.eqb_spec n 1) as [->|Hne].
  - exists base. split; [done|]. by rewrite Z.pow_1_r.
  - assert (Z.quot n 2 = n / 2)%Z as Hq by (apply Z.quot_div_nonneg; lia).
    assert (Z.rem n 2 = n mod 2)%Z as Hr by (apply Z.rem_mod_nonneg; lia).
    pose proof (Z.div_mod n 2 ltac:(lia)) as Hdm.
    pose proof (Z.mod_pos_bound n 2 ltac:(lia)) as Hm.
    destruct (IH (Z.quot n 2)) as (pow_half & -> & Hhalf); [rewrite Hq; lia|].
    rewrite Hq in Hhalf. rewrite Hr.
    destruct (Z.eqb_spec (n mod 2) 1) as [Hodd|Heven]; eexists; (split; [done|]).
    + unfold ExpandMultiplication3. rewrite !ExpandMultiplication_meaning, Hhalf.
      rewrite Hdm at 3. rewrite Hodd, Z.pow_add_r, Z.pow_1_r, Z.pow_twice_r by lia.
      ring.
    + rewrite ExpandMultiplication_meaning, Hhalf.
      rewrite Hdm at 3. replace (n mod 2)%Z with 0%Z by lia.
      rewrite Z.add_0_r, Z.pow_twice_r. done.
Qed.

End Expansion_facts.

End Cells_facts.

Section Cells_runs.
Import QI TestData CellData.

Example Evaluate_poly_cell :
  Evaluate holds_everywhere false poly_cell env_small = Returned (Fin 11) ∧
  Evaluate holds_everywhere false poly_cell env_x0 = Thrown (NoEntry 1%nat env_x0) ∧
  Evaluate holds_everywhere false
    (CBinary KDiv (CVar 0%nat) (CBinary KAdd (CVar 0%nat) (CConstant (Fin (-3))))) env_x0
  = Thrown (DivisionByZero (Fin 3) (Fin 0)
              (CBinary KDiv (CVar 0%nat)
                 (CBinary KAdd (CVar 0%nat) (CConstant (Fin (-3)))))) ∧
  Evaluate holds_everywhere false (CUnary Sqrt (CConstant (Fin (-1)))) env_x0
  = Thrown (OutOfDomain SqrtDomain [Fin (-1)]).
Proof. repeat split; reflexivity. Qed.

(** Witness of [Evaluate_coincidence]: an entry for [x2] makes no
    difference to [x0^2 + x1 / 2]. *)
Lemma Evaluate_coincidence_witness :
  Evaluate holds_everywhere false poly_cell env_large
  = in_environment env_large (Evaluate holds_everywhere false poly_cell env_small).
Proof.
  apply (Evaluate_coincidence closed_formula holds_everywhere false poly_cell
           env_small env_large).
  - reflexivity.
  - intros v Hv.
    assert (v = 0%nat ∨ v = 1%nat) as [-> | ->]; [|reflexivity|reflexivity].
    revert Hv. unfold poly_cell. simpl. set_solver.
Defined.

(** Witness of [polynomial_Evaluate_failures]: without an entry for [x1]. *)
Lemma polynomial_Evaluate_failures_witness :
  is_domain_error (NoEntry 1%nat env_x0) = false ∧
  ((∃ var, NoEntry 1%nat env_x0 = NoEntry var env_x0 ∧
           var ∈ GetVariables closed_formula poly_cell ∧ env_x0 !! var = None) ∨
   (∃ v1 v2 this, NoEntry 1%nat env_x0 = DivisionByZero v1 v2 this ∧
                  ibex.d_eqb v2 (ibex.d_of_Z 0) = true)).
Proof.
  apply (polynomial_Evaluate_failures closed_formula holds_everywhere false poly_cell
           env_x0 (NoEntry 1%nat env_x0)); reflexivity.
Defined.

(** Witness of [ExpandPow_meaning]: [(x0 + x1)^3] at [x0 = 2], [x1 = 3]. *)
Lemma ExpandPow_meaning_witness :
  ∃ e, ExpandPow (CBinary KAdd) (CBinary KMul) 3 sum_cell 3 = Some e ∧
       int_value e = (int_value sum_cell ^ 3)%Z.
Proof.
  apply (ExpandPow_meaning (CBinary KAdd) (CBinary KMul) int_value
           ltac:(reflexivity) ltac:(reflexivity) ltac:(reflexivity) sum_cell 3 3).
  lia.
Defined.

Example ExpandPow_cube_value :
  int_value <$> ExpandPow (CBinary KAdd) (CBinary KMul) 3 sum_cell 3 = Some 125%Z.
Proof. reflexivity. Qed.

End Cells_runs.

(** ** [Icp::EvaluateBox] and the precision *)
Section EvaluateBox_precision_facts.
Context `{IL : ibex.Lib} `{SL : symbolic.Lib}.

Lemma add_bisectable_mono (b : Box) (vs : list Var) (S1 S2 : BitSet) :
  S2 ⊆ S1 → add_bisectable b vs S2 ⊆ add_bisectable b vs S1.
Proof.
  intros Hsub i. rewrite !add_bisectable_elem. intros [Hi|Hi]; [left|right]; auto.
Qed.

Lemma add_bisectable_grows (b : Box) (vs : list Var) (S1 S2 : BitSet) :
  S2 ⊆ S1 → S2 ⊆ add_bisectable b vs S1.
Proof.
  intros Hsub i Hi. rewrite add_bisectable_elem. left. auto.
Qed.

(** The loop under two precisions of which the second is the coarser: both
    runs stop at the same evaluator with the same status, or both run to the
    end and the coarser one has collected no more. *)
Lemma EvaluateBox_loop_precision (prec1 prec2 : double) (fes : list FormulaEvaluator)
    (b : Box) (cs : ContractorStatus) (S1 S2 : BitSet) :
  (∀ d, ibex.d_gt d prec2 = true → ibex.d_gt d prec1 = true) →
  S2 ⊆ S1 →
  (fst (EvaluateBox_loop prec1 fes b cs S1) = None ∧
   EvaluateBox_loop prec2 fes b cs S2 = EvaluateBox_loop prec1 fes b cs S1) ∨
  (∃ bc1 bc2, EvaluateBox_loop prec1 fes b cs S1 = (Some bc1, cs) ∧
              EvaluateBox_loop prec2 fes b cs S2 = (Some bc2, cs) ∧ bc2 ⊆ bc1).
Proof.
  intros Hprec. revert S1 S2.
  induction fes as [|g fes IH]; intros S1 S2 Hsub; simpl.
  - right. by exists S1, S2.
  - destruct (type (fe_call g b)); [by apply IH|by left|].
    destruct (ibex.d_gt _ prec2) eqn:H2.
    + rewrite (Hprec _ H2). by apply IH, add_bisectable_mono.
    + destruct (ibex.d_gt _ prec1); [|by apply IH].
      by apply IH, add_bisectable_grows.
Qed.

(** The precision matters to [Icp::EvaluateBox] only for the branching
    candidates.  Whether it returns [nullopt], and the status it then leaves,
    do not depend on the precision.  With a coarser precision (every
    diameter above it is above the finer one) the bitset returned is a
    subset of the one returned with the finer precision; so a box that is
    accepted as a delta-box, with the empty bitset, is accepted under every
    coarser precision. *)
Theorem EvaluateBox_precision (prec1 prec2 : double) (fes : list FormulaEvaluator)
    (b : Box) (cs : ContractorStatus) :
  (∀ d, ibex.d_gt d prec2 = true → ibex.d_gt d prec1 = true) →
  (fst (EvaluateBox prec1 fes b cs) = None →
     EvaluateBox prec2 fes b cs = EvaluateBox prec1 fes b cs) ∧
  (fst (EvaluateBox prec2 fes b cs) = None → fst (EvaluateBox prec1 fes b cs) = None) ∧
  (∀ bc1, fst (EvaluateBox prec1 fes b cs) = Some bc1 →
     ∃ bc2, EvaluateBox prec2 fes b cs = (Some bc2, cs) ∧ bc2 ⊆ bc1) ∧
  (fst (EvaluateBox prec1 fes b cs) = Some ∅ →
     EvaluateBox prec2 fes b cs = (Some ∅, cs)).
Proof.
  intros Hprec. unfold EvaluateBox.
  destruct (EvaluateBox_loop_precision prec1 prec2 fes b cs ∅ ∅ Hprec ltac:(done))
    as [[Hnone Heq]|(bc1 & bc2 & H1 & H2 & Hsub)].
  - rewrite Heq, Hnone. repeat split; done.
  - rewrite H1, H2. simpl. split; [done|]. split; [done|]. split.
    + intros ? [= <-]. by exists bc2.
    + intros [= ->]. f_equal. f_equal. set_solver.
Qed.

End EvaluateBox_precision_facts.

Section EvaluateBox_precision_runs.
Import QI TestData PrecisionData.

Lemma coarse_above_half (d : double) :
  ibex.d_gt d coarse = true → ibex.d_gt d half = true.
Proof.
  destruct d as [| |q|]; try done.
  unfold ibex.d_gt. simpl. unfold Qlt_bool.
  intros H%negb_true_iff. apply negb_true_iff.
  destruct (Qle_bool q (Qmake 1 2)) eqn:E; [|done].
  apply Qle_bool_iff in E.
  assert (Qle_bool q 3 = true) as H3.
  { apply Qle_bool_iff. eapply Qle_trans; [exact E|]. unfold Qle. simpl. lia. }
  congruence.
Qed.

(** Witness of [EvaluateBox_precision]: the box [[0, 2]] has a candidate at
    precision 1/2 and is a delta-box at precision 3. *)
Lemma EvaluateBox_precision_witness :
  EvaluateBox half seq_evaluators seq_box seq_cs = (Some fine_candidates, seq_cs) ∧
  ∃ bc2, EvaluateBox coarse seq_evaluators seq_box seq_cs = (Some bc2, seq_cs) ∧
         bc2 ⊆ fine_candidates.
Proof.
  split; [reflexivity|].
  apply (proj1 (proj2 (proj2 (EvaluateBox_precision half coarse seq_evaluators
                                seq_box seq_cs coarse_above_half)))).
  reflexivity.
Defined.

Example EvaluateBox_coarse :
  EvaluateBox coarse seq_evaluators seq_box seq_cs = (Some ∅, seq_cs).
Proof. reflexivity. Qed.

End EvaluateBox_precision_runs.

